(** * Battle Sandbox: the simulation engine of [js/main.js]

    A shallow embedding of the effect resolution engine, the status decay,
    the projectile pass, the movement/cast policy and the ability compiler
    of [js/main.js], with the properties the specification states about
    them.

    Numbers.  The formulas of one step (mitigation, knockback, the
    movement of a tick, the cast policy) are stated over the real
    numbers: [Math.hypot] is a square root and [Math.pow(0.2, dt)] a real
    power, and comparisons are decided with [Rlt_dec] and its relatives.
    The counters that are accumulated from tick to tick and compared with
    a threshold (the accumulator of a DoT record, the immunity and
    cooldown timers, the decaying velocity) are embedded a second time
    over an arbitrary arithmetic, module [Num]: it is evaluated in
    binary64, the numbers of JavaScript, and general statements are
    proved for every rounding of real arithmetic with the error bounds of
    [rounding].  Without rounding the two embeddings agree (lemma
    [decay_exact]).  [NaN] and the infinities are outside the model.

    Objects.  A fighter is referred to by its index in [Arena.fighters];
    the callbacks of the ability scripts ([onCast], [onHit]) are values of
    an arbitrary type [CB], interpreted by an instance of [Script] as
    transformers of the whole world. *)

From Stdlib Require Import Reals Lra Lia.
From Stdlib Require PrimFloat FloatOps SpecFloat.
From stdpp Require Import base option list strings gmap.

Local Open Scope R_scope.

(** ** Utilities *)

Definition Rltb (x y : R) : bool := if Rlt_dec x y then true else false.
Definition Rleb (x y : R) : bool := if Rle_dec x y then true else false.

(** [a || b] on numbers: [0] is falsy, so it is replaced by the default. *)
Definition js_or (a b : R) : R := if Req_dec_T a 0 then b else a.

(** [Math.sign]. *)
Definition sign (a : R) : R :=
  if Rlt_dec 0 a then 1 else if Rlt_dec a 0 then -1 else 0.

Record vec := mkvec { X : R; Y : R }.

(** [Math.hypot(a, b)]. *)
Definition hypot (a b : R) : R := sqrt (a * a + b * b).

(** [const dist = (a,b) => Math.hypot(a.x-b.x, a.y-b.y)]. *)
Definition dist (a b : vec) : R := hypot (X a - X b) (Y a - Y b).

(** [const clamp = (x, a, b) => Math.max(a, Math.min(b, x))]. *)
Definition clamp (x a b : R) : R := Rmax a (Rmin b x).

(** ** Effects *)

Inductive DamageKind := physical | magical | both.

#[export] Instance DamageKind_eq_dec : EqDecision DamageKind.
Proof. solve_decision. Defined.

Inductive Effect :=
| damage (amount : R) (dtype : DamageKind)
| dot (dps duration : R) (dtype : DamageKind)
| immunity (dtype : DamageKind) (duration : R)
| timeFreeze (duration : R)
| knockback (force : R).

(** ** Fighters *)

Record Stats := mkStats {
  stat_hp : R;
  physicalStrength : R;
  physicalResistance : R;
  magicalPower : R;
  magicalResistance : R;
  moveSpeed : R;
  attackSpeed : R;
  canFly : bool
}.

(** An entry of [state.dots]: [{dps, duration, t, dtype}]. *)
Record DotRec := mkDot {
  d_dps : R;
  d_duration : R;
  d_t : R;
  d_dtype : DamageKind
}.

(** [state.immunities]: one timer for each damage kind. *)
Record Immunities := mkImm {
  imm_physical : R;
  imm_magical : R;
  imm_both : R
}.

Record State := mkState {
  hp : R;
  pos : vec;
  vel : vec;
  facing : R;
  dots : list DotRec;
  immunities : Immunities;
  freeze : R;
  cd : gmap string R
}.

Inductive AbilityType := ty_physical | ty_magical | ty_both | ty_status.

(** A validated ability.  [onCast = None] stands for the default [onCast]
    that [Ability.make] supplies: apply the ability's own effects to the
    target. *)
Record Ability (CB : Type) := mkAbility {
  name : string;
  atype : AbilityType;
  cooldown : R;
  range : R;
  effects : list Effect;
  onCast : option CB
}.
Arguments mkAbility {CB}.
Arguments name {CB}.
Arguments atype {CB}.
Arguments cooldown {CB}.
Arguments range {CB}.
Arguments effects {CB}.
Arguments onCast {CB}.

Record Fighter (CB : Type) := mkFighter {
  stats : Stats;
  state : State;
  abilities : list (Ability CB)
}.
Arguments mkFighter {CB}.
Arguments stats {CB}.
Arguments state {CB}.
Arguments abilities {CB}.

Definition with_state {CB} (f : Fighter CB) (s : State) : Fighter CB :=
  mkFighter (stats f) s (abilities f).

Definition set_hp (s : State) (h : R) : State :=
  mkState h (pos s) (vel s) (facing s) (dots s) (immunities s) (freeze s) (cd s).
Definition set_pos (s : State) (p : vec) : State :=
  mkState (hp s) p (vel s) (facing s) (dots s) (immunities s) (freeze s) (cd s).
Definition set_vel (s : State) (v : vec) : State :=
  mkState (hp s) (pos s) v (facing s) (dots s) (immunities s) (freeze s) (cd s).
Definition set_facing (s : State) (x : R) : State :=
  mkState (hp s) (pos s) (vel s) x (dots s) (immunities s) (freeze s) (cd s).
Definition set_dots (s : State) (ds : list DotRec) : State :=
  mkState (hp s) (pos s) (vel s) (facing s) ds (immunities s) (freeze s) (cd s).
Definition set_immunities (s : State) (i : Immunities) : State :=
  mkState (hp s) (pos s) (vel s) (facing s) (dots s) i (freeze s) (cd s).
Definition set_freeze (s : State) (x : R) : State :=
  mkState (hp s) (pos s) (vel s) (facing s) (dots s) (immunities s) x (cd s).
Definition set_cd (s : State) (m : gmap string R) : State :=
  mkState (hp s) (pos s) (vel s) (facing s) (dots s) (immunities s) (freeze s) m.

(** [immunities[k]] and [immunities[k] = v]. *)
Definition imm_get (i : Immunities) (k : DamageKind) : R :=
  match k with
  | physical => imm_physical i
  | magical => imm_magical i
  | both => imm_both i
  end.

Definition imm_set (i : Immunities) (k : DamageKind) (v : R) : Immunities :=
  match k with
  | physical => mkImm v (imm_magical i) (imm_both i)
  | magical => mkImm (imm_physical i) v (imm_both i)
  | both => mkImm (imm_physical i) (imm_magical i) v
  end.

(** ** Effect resolution: [Arena.isImmune], [Arena.timeFreeze],
    [Arena.applyEffects] *)

Definition isImmune (s : State) (k : DamageKind) : bool :=
  match k with
  | both =>
      Rltb 0 (imm_both (immunities s))
      || (Rltb 0 (imm_physical (immunities s)) && Rltb 0 (imm_magical (immunities s)))
  | _ => Rltb 0 (imm_get (immunities s) k) || Rltb 0 (imm_both (immunities s))
  end.

(** [timeFreeze(target, duration)]:
    [freeze = Math.max(freeze, duration||1)]. *)
Definition state_timeFreeze (s : State) (duration : R) : State :=
  set_freeze s (Rmax (freeze s) (js_or duration 1)).

(** The amount taken from [hp] by a damage effect that is not blocked. *)
Definition mitigated (st : Stats) (amount : R) (k : DamageKind) : R :=
  let amt := js_or amount 0 in
  match k with
  | physical => amt * (100 / (100 + physicalResistance st))
  | magical => amt * (100 / (100 + magicalResistance st))
  | both =>
      let half := (amt / 2) * 100 / (100 + physicalResistance st) in
      half + (amt / 2) * 100 / (100 + magicalResistance st)
  end.

(** One iteration of the loop of [applyEffects]: [st] are the target's base
    stats, [s] its state and [cpos] is [caster.state.pos].  The loop never
    writes a position, so reading the caster's position before the loop is
    the same as reading it in each iteration, also when caster and target
    are one fighter. *)
Definition applyEffect (cpos : vec) (st : Stats) (s : State) (e : Effect) : State :=
  match e with
  | damage amount k =>
      if isImmune s k then s
      else set_hp s (hp s - mitigated st amount k)
  | dot dps duration k =>
      if isImmune s k then s
      else set_dots s (dots s ++ [mkDot (js_or dps 0) (js_or duration 0) 0 k])
  | immunity k duration =>
      set_immunities s
        (imm_set (immunities s) k
           (Rmax (js_or (imm_get (immunities s) k) 0) (js_or duration 0)))
  | timeFreeze duration => state_timeFreeze s (js_or duration 1)
  | knockback force =>
      let dx := sign (X (pos s) - X cpos) in
      let dy := sign (Y (pos s) - Y cpos) in
      set_vel s (mkvec (X (vel s) + dx * js_or force 80 / 2)
                       (Y (vel s) + dy * js_or force 80 / 2))
  end.

Definition applyEffects_state (effs : list Effect) (cpos : vec) (st : Stats)
    (s : State) : State :=
  fold_left (applyEffect cpos st) effs s.

(** ** The world: fighters, projectiles, bounds *)

Inductive Shape := circle (radius : R) | square (size : R).

Record Projectile (CB : Type) := mkProjectile {
  p_pos : vec;
  p_vel : vec;
  ttl : R;
  shape : Shape;
  tint : string;
  onHit : option CB;
  alive : bool
}.
Arguments mkProjectile {CB}.
Arguments p_pos {CB}.
Arguments p_vel {CB}.
Arguments ttl {CB}.
Arguments shape {CB}.
Arguments tint {CB}.
Arguments onHit {CB}.
Arguments alive {CB}.

Record Bounds := mkBounds { b_x : R; b_y : R; b_w : R; b_h : R }.

Record World (CB : Type) := mkWorld {
  fighters : list (Fighter CB);
  projectiles : list (Projectile CB);
  bounds : Bounds
}.
Arguments mkWorld {CB}.
Arguments fighters {CB}.
Arguments projectiles {CB}.
Arguments bounds {CB}.

Definition set_fighters {CB} (w : World CB) (fs : list (Fighter CB)) : World CB :=
  mkWorld fs (projectiles w) (bounds w).
Definition set_projectiles {CB} (w : World CB) (ps : list (Projectile CB)) : World CB :=
  mkWorld (fighters w) ps (bounds w).

(** The scripted callbacks.  [runCast cb me op w] is [a.onCast.call(a, me,
    op, this)] and [runHit cb f w] is [p.onHit(f)], each as the world it
    leaves behind; a callback that throws or does not return is not
    modelled. *)
Class Script (CB : Type) := {
  runCast : CB -> nat -> nat -> World CB -> World CB;
  runHit : CB -> nat -> World CB -> World CB
}.

(** [Arena.applyEffects(effects, caster, target)] on fighters of the
    world. *)
Definition applyEffects {CB} (effs : list Effect) (caster target : nat)
    (w : World CB) : World CB :=
  match fighters w !! caster, fighters w !! target with
  | Some c, Some t =>
      set_fighters w
        (<[target := with_state t
             (applyEffects_state effs (pos (state c)) (stats t) (state t))]>
           (fighters w))
  | _, _ => w
  end.

(** [Arena.timeFreeze(target, duration)]. *)
Definition world_timeFreeze {CB} (target : nat) (duration : R) (w : World CB)
    : World CB :=
  match fighters w !! target with
  | Some t =>
      set_fighters w
        (<[target := with_state t (state_timeFreeze (state t) duration)]> (fighters w))
  | None => w
  end.

(** The argument of [spawnProjectile]: [{speed,maxTime,from,to,shape,tint,
    onHit}].  A missing [speed] or [maxTime] is written [0]: [undefined||d]
    and [0||d] are both [d]. *)
Record ProjSpec (CB : Type) := mkProjSpec {
  speed : R;
  maxTime : R;
  p_from : vec;
  p_to : vec;
  ps_shape : option Shape;
  ps_tint : option string;
  ps_onHit : option CB
}.
Arguments mkProjSpec {CB}.
Arguments speed {CB}.
Arguments maxTime {CB}.
Arguments p_from {CB}.
Arguments p_to {CB}.
Arguments ps_shape {CB}.
Arguments ps_tint {CB}.
Arguments ps_onHit {CB}.

Definition Colors_neutral : string := "#dce7f3".

(** [const L = Math.hypot(dir.x, dir.y) || 1]. *)
Definition spawn_L {CB} (p : ProjSpec CB) : R :=
  js_or (hypot (X (p_to p) - X (p_from p)) (Y (p_to p) - Y (p_from p))) 1.

Definition spawned {CB} (p : ProjSpec CB) : Projectile CB :=
  let dirx := (X (p_to p) - X (p_from p)) / spawn_L p in
  let diry := (Y (p_to p) - Y (p_from p)) / spawn_L p in
  mkProjectile
    (mkvec (X (p_from p)) (Y (p_from p)))
    (mkvec (dirx * js_or (speed p) 220) (diry * js_or (speed p) 220))
    (js_or (maxTime p) 2)
    (default (circle 3) (ps_shape p))
    (default Colors_neutral (ps_tint p))
    (ps_onHit p)
    true.

(** [Arena.spawnProjectile(p)]. *)
Definition spawnProjectile {CB} (p : ProjSpec CB) (w : World CB) : World CB :=
  set_projectiles w (projectiles w ++ [spawned p]).

(** ** Status decay: the first loop of [Arena.tick] *)

Definition dot_pulse (d : DotRec) : DotRec :=
  mkDot (d_dps d) (d_duration d - 1) (d_t d - 1) (d_dtype d).

(** [while(d.t >= 1){ d.t -= 1; if(!isImmune(f, d.dtype)) f.state.hp -=
    d.dps; d.duration -= 1; }], with the amounts its pulses take from
    [hp], in order (a pulse on an immune fighter takes nothing and is not
    listed). *)
Fixpoint dot_while (fuel : nat) (d : DotRec) (s : State) : DotRec * State * list R :=
  match fuel with
  | O => (d, s, [])
  | S n =>
      if Rle_dec 1 (d_t d) then
        if isImmune s (d_dtype d) then dot_while n (dot_pulse d) s
        else
          let '(d', s', l) := dot_while n (dot_pulse d) (set_hp s (hp s - d_dps d)) in
          (d', s', d_dps d :: l)
      else (d, s, [])
  end.

(** The loop leaves when [d.t < 1]; [up (d.t)] iterations always reach
    that point (lemma [dot_loop_exit]). *)
Definition dot_loop (d : DotRec) (s : State) : DotRec * State * list R :=
  dot_while (Z.to_nat (up (d_t d))) d s.

(** [for(let i=dots.length-1;i>=0;i--)]: the records are visited from the
    last to the first; an exhausted record is spliced out, the others
    accumulate [dt] and pulse.  Returns the records kept, the state (of
    which the loop changes [hp] only) and the pulses delivered. *)
Fixpoint decayDots (dt : R) (ds : list DotRec) (s : State)
    : list DotRec * State * list R :=
  match ds with
  | [] => ([], s, [])
  | d :: rest =>
      let '(rest', s1, l1) := decayDots dt rest s in
      if Rle_dec (d_duration d) 0 then (rest', s1, l1)
      else
        let d1 := mkDot (d_dps d) (d_duration d) (js_or (d_t d) 0 + dt) (d_dtype d) in
        let '(d2, s2, l2) := dot_loop d1 s1 in
        (d2 :: rest', s2, l1 ++ l2)
  end.

(** [if(immunities[k]>0) immunities[k] -= dt] for the three kinds. *)
Definition decayTimer (dt v : R) : R := if Rlt_dec 0 v then v - dt else v.

Definition decayImmunities (dt : R) (i : Immunities) : Immunities :=
  mkImm (decayTimer dt (imm_physical i)) (decayTimer dt (imm_magical i))
        (decayTimer dt (imm_both i)).

(** [if(!(a.name in cd)) cd[a.name]=0; cd[a.name] = Math.max(0,
    cd[a.name]-dt)] for each ability in turn. *)
Definition decayCooldown (dt : R) (m : gmap string R) (n : string) : gmap string R :=
  let m1 := match m !! n with None => <[n := 0]> m | Some _ => m end in
  <[n := Rmax 0 (default 0 (m1 !! n) - dt)]> m1.

Definition decayCooldowns {CB} (dt : R) (abs : list (Ability CB)) (m : gmap string R)
    : gmap string R :=
  fold_left (fun m a => decayCooldown dt m (name a)) abs m.

(** The body of the status loop for one fighter, with the pulses of its
    DoT records. *)
Definition decayFighter_log {CB} (dt : R) (f : Fighter CB) : Fighter CB * list R :=
  let '(ds, s1, k) := decayDots dt (dots (state f)) (state f) in
  let s2 := set_dots s1 ds in
  let s3 := set_immunities s2 (decayImmunities dt (immunities s2)) in
  let s4 := set_cd s3 (decayCooldowns dt (abilities f) (cd s3)) in
  (with_state f s4, k).

Definition decayFighter {CB} (dt : R) (f : Fighter CB) : Fighter CB :=
  fst (decayFighter_log dt f).

(** The sum of the steps: the time elapsed. *)
Definition elapsed (dts : list R) : R := fold_right Rplus 0 dts.

Definition decayPhase {CB} (dt : R) (w : World CB) : World CB :=
  set_fighters w (decayFighter dt <$> fighters w).

(** ** Projectiles: the second loop of [Arena.tick] *)

Definition set_alive {CB} (p : Projectile CB) (b : bool) : Projectile CB :=
  mkProjectile (p_pos p) (p_vel p) (ttl p) (shape p) (tint p) (onHit p) b.

(** [p.ttl -= dt] *)
Definition age {CB} (dt : R) (p : Projectile CB) : Projectile CB :=
  mkProjectile (p_pos p) (p_vel p) (ttl p - dt) (shape p) (tint p) (onHit p) (alive p).

(** [p.pos.x += p.vel.x * dt; p.pos.y += p.vel.y * dt] *)
Definition advance {CB} (dt : R) (p : Projectile CB) : Projectile CB :=
  mkProjectile
    (mkvec (X (p_pos p) + X (p_vel p) * dt) (Y (p_pos p) + Y (p_vel p) * dt))
    (p_vel p) (ttl p) (shape p) (tint p) (onHit p) (alive p).

(** [p.alive=false] on the projectile object, which is entry [pi] of
    [Arena.projectiles]. *)
Definition kill {CB} (pi : nat) (w : World CB) : World CB :=
  match projectiles w !! pi with
  | Some p => set_projectiles w (<[pi := set_alive p false]> (projectiles w))
  | None => w
  end.

(** The hit radius, [const r = 18]. *)
Definition hit_radius : R := 18.

(** One iteration of [for(const f of this.fighters)] in the collision
    test of projectile [pi], whose position after the advance is [ppos] and
    whose callback is [cb].  The result carries [true] when [onHit] was
    invoked on fighter [i]. *)
Definition collide1 {CB} `{Script CB} (pi : nat) (ppos : vec) (cb : option CB)
    (i : nat) (w : World CB) : World CB * bool :=
  match fighters w !! i with
  | Some f =>
      if Rlt_dec (dist ppos (pos (state f))) hit_radius then
        let w1 := kill pi w in
        (match cb with Some c => runHit c i w1 | None => w1 end, true)
      else (w, false)
  | None => (w, false)
  end.

(** The collision loop over the fighters [i, i+1, ..., i+n-1], with the
    list of the fighters [onHit] was invoked on, in order.  The loop has no
    [break]. *)
Fixpoint collide {CB} `{Script CB} (pi : nat) (ppos : vec) (cb : option CB)
    (n i : nat) (w : World CB) : World CB * list nat :=
  match n with
  | O => (w, [])
  | S n' =>
      let '(w1, h) := collide1 pi ppos cb i w in
      let '(w2, hs) := collide pi ppos cb n' (S i) w1 in
      (w2, if h then i :: hs else hs)
  end.

(** The body of [for(const p of this.projectiles)] for the projectile at
    index [pi]. *)
Definition stepProjectile {CB} `{Script CB} (dt : R) (pi : nat) (w : World CB)
    : World CB * list nat :=
  match projectiles w !! pi with
  | None => (w, [])
  | Some p =>
      if negb (alive p) then (w, [])
      else
        let p1 := age dt p in
        if Rle_dec (ttl p1) 0 then
          (set_projectiles w (<[pi := set_alive p1 false]> (projectiles w)), [])
        else
          let p2 := advance dt p1 in
          let w1 := set_projectiles w (<[pi := p2]> (projectiles w)) in
          collide pi (p_pos p2) (onHit p2) (length (fighters w1)) 0 w1
  end.

(** The loop over [this.projectiles].  A callback may push projectiles,
    which the same loop then reaches, so the loop is driven by the index
    and bounded by [fuel]; [None] is a loop that has not finished within
    [fuel] iterations.  The log lists every [onHit] invocation as
    (projectile index, fighter index). *)
Fixpoint projLoop {CB} `{Script CB} (fuel : nat) (dt : R) (pi : nat) (w : World CB)
    : option (World CB * list (nat * nat)) :=
  if decide (pi < length (projectiles w))%nat then
    match fuel with
    | O => None
    | S fuel' =>
        let '(w1, hs) := stepProjectile dt pi w in
        match projLoop fuel' dt (S pi) w1 with
        | Some (w2, log) => Some (w2, map (pair pi) hs ++ log)
        | None => None
        end
    end
  else Some (w, []).

(** [this.projectiles = this.projectiles.filter(p=>p.alive)] *)
Definition cleanup {CB} (w : World CB) : World CB :=
  set_projectiles w (filter (fun p => alive p = true) (projectiles w)).

Definition projectilePhase {CB} `{Script CB} (fuel : nat) (dt : R) (w : World CB)
    : option (World CB * list (nat * nat)) :=
  match projLoop fuel dt 0 w with
  | Some (w1, log) => Some (cleanup w1, log)
  | None => None
  end.

(** ** AI, movement and cast: the third loop of [Arena.tick] *)

(** [me.abilities.reduce((m,a)=>Math.max(m, a.range||0), 0)] *)
Definition maxRange {CB} (abs : list (Ability CB)) : R :=
  fold_left (fun m a => Rmax m (js_or (range a) 0)) abs 0.

(** [me.state.vel.x *= Math.pow(0.2, dt); me.state.vel.y *= Math.pow(0.2,
    dt)] *)
Definition friction (dt : R) (v : vec) : vec :=
  mkvec (X v * Rpower (2 / 10) dt) (Y v * Rpower (2 / 10) dt).

(** The directed movement: a ranged fighter closer than it wants to be
    moves away from the opponent, a melee fighter farther than it wants
    to be moves towards it. *)
Definition directed (dt : R) (st : Stats) (mr : R) (opos : vec) (s : State) : vec :=
  let ranged := Rleb 40 mr in
  let desired := if ranged then mr * (8 / 10) else 20 in
  let d := dist (pos s) opos in
  let dx := X opos - X (pos s) in
  let dy := Y opos - Y (pos s) in
  let L := js_or (hypot dx dy) 1 in
  let dirx := dx / L in
  let diry := dy / L in
  let speed := moveSpeed st in
  if ranged && Rltb d desired then
    mkvec (X (pos s) - dirx * speed * dt) (Y (pos s) - diry * speed * dt)
  else if negb ranged && Rltb desired d then
    mkvec (X (pos s) + dirx * speed * dt) (Y (pos s) + diry * speed * dt)
  else pos s.

(** The movement part of one fighter's turn, from the choice of the
    desired distance to the update of [facing]; [mr] is the largest range
    of the fighter's abilities and [opos] the opponent's position. *)
Definition moveStep (dt : R) (b : Bounds) (st : Stats) (mr : R) (opos : vec)
    (s : State) : State :=
  let p1 := directed dt st mr opos s in
  let p2 := mkvec (X p1 + X (vel s) * dt) (Y p1 + Y (vel s) * dt) in
  let v := friction dt (vel s) in
  let p3 := mkvec (clamp (X p2) (b_x b) (b_x b + b_w b))
                  (clamp (Y p2) (b_y b) (b_y b + b_h b)) in
  let fc := if Rlt_dec (X p3) (X opos) then 1 else -1 in
  set_facing (set_vel (set_pos s p3) v) fc.

(** [me.state.cd[a.name]>0]; a missing entry compares false. *)
Definition onCooldown (m : gmap string R) (n : string) : bool :=
  match m !! n with
  | Some c => Rltb 0 c
  | None => false
  end.

(** [d <= Math.max(20, a.range||0)] *)
Definition inRange {CB} (d : R) (a : Ability CB) : bool :=
  Rleb d (Rmax 20 (js_or (range a) 0)).

(** The scan of [for(const a of me.abilities)]: the ability the loop stops
    at, if any. *)
Fixpoint selectCast {CB} (m : gmap string R) (d : R) (abs : list (Ability CB))
    : option (Ability CB) :=
  match abs with
  | [] => None
  | a :: rest =>
      if onCooldown m (name a) then selectCast m d rest
      else if inRange d a then Some a
      else selectCast m d rest
  end.

(** [Math.max(0.1, (a.cooldown||1) / Math.max(0.1, attackSpeed))] *)
Definition castCooldown {CB} (st : Stats) (a : Ability CB) : R :=
  Rmax (1 / 10) (js_or (cooldown a) 1 / Rmax (1 / 10) (attackSpeed st)).

(** [a.onCast.call(a, me, op, this)]; the default [onCast] of
    [Ability.make] is [world.applyEffects(this.effects, self, target)]. *)
Definition invokeOnCast {CB} `{Script CB} (a : Ability CB) (me op : nat)
    (w : World CB) : World CB :=
  match onCast a with
  | Some c => runCast c me op w
  | None => applyEffects (effects a) me op w
  end.

(** The cast part of one fighter's turn: the world after it and the
    abilities cast (their names), in order. *)
Definition castStep {CB} `{Script CB} (d : R) (me op : nat) (w : World CB)
    : World CB * list string :=
  match fighters w !! me with
  | None => (w, [])
  | Some f =>
      match selectCast (cd (state f)) d (abilities f) with
      | None => (w, [])
      | Some a =>
          let s := set_cd (state f) (<[name a := castCooldown (stats f) a]> (cd (state f))) in
          let w1 := set_fighters w (<[me := with_state f s]> (fighters w)) in
          (invokeOnCast a me op w1, [name a])
      end
  end.

(** One iteration of [for(const [me, op] of pairs)]. *)
Definition aiTurn {CB} `{Script CB} (dt : R) (me op : nat) (w : World CB)
    : World CB * list string :=
  match fighters w !! me, fighters w !! op with
  | Some f, Some o =>
      if Rlt_dec 0 (freeze (state f)) then
        (set_fighters w
           (<[me := with_state f (set_freeze (state f) (freeze (state f) - dt))]>
              (fighters w)), [])
      else
        let d := dist (pos (state f)) (pos (state o)) in
        let s := moveStep dt (bounds w) (stats f) (maxRange (abilities f))
                   (pos (state o)) (state f) in
        castStep d me op (set_fighters w (<[me := with_state f s]> (fighters w)))
  | _, _ => (w, [])
  end.

(** [const [A,B] = this.fighters; if(A && B){ for pairs [[A,B],[B,A]] }],
    with the casts of the first and of the second fighter. *)
Definition aiPhase {CB} `{Script CB} (dt : R) (w : World CB)
    : World CB * (list string * list string) :=
  match fighters w with
  | _ :: _ :: _ =>
      let '(w1, c0) := aiTurn dt 0 1 w in
      let '(w2, c1) := aiTurn dt 1 0 w1 in
      (w2, (c0, c1))
  | _ => (w, ([], []))
  end.

(** ** The hp floor and the whole tick *)

(** [if(f.state.hp <= 0) f.state.hp = 0] *)
Definition hpFloor {CB} (f : Fighter CB) : Fighter CB :=
  if Rle_dec (hp (state f)) 0 then with_state f (set_hp (state f) 0) else f.

Definition floorPhase {CB} (w : World CB) : World CB :=
  set_fighters w (hpFloor <$> fighters w).

(** [Arena.tick(dt)]: status decay, projectiles, AI and cast, hp floor. *)
Definition tick {CB} `{Script CB} (fuel : nat) (dt : R) (w : World CB)
    : option (World CB) :=
  match projectilePhase fuel dt (decayPhase dt w) with
  | Some (w2, _) => Some (floorPhase (fst (aiPhase dt w2)))
  | None => None
  end.

(** ** Abilities: [Ability.make] and [compileAbilities] *)

Inductive result (A : Type) := Ok (a : A) | Throw (message : string).
Arguments Ok {A}.
Arguments Throw {A}.

(** The values a script may store in a field that [Ability.make] checks. *)
Inductive JsVal := JNum (r : R) | JStr (s : string) | JUndefined | JOther.

(** The argument of [Ability.make]: a field that is [None] is absent from
    the object, and [Object.assign] then keeps the default. *)
Record AbilitySpec (CB : Type) := mkSpec {
  s_name : option string;
  s_type : option JsVal;
  s_cooldown : option JsVal;
  s_range : option JsVal;
  s_effects : option (list Effect);
  s_onCast : option CB
}.
Arguments mkSpec {CB}.
Arguments s_name {CB}.
Arguments s_type {CB}.
Arguments s_cooldown {CB}.
Arguments s_range {CB}.
Arguments s_effects {CB}.
Arguments s_onCast {CB}.

(** [["physical","magical","both","status"].includes(a.type)] *)
Definition parse_type (v : JsVal) : option AbilityType :=
  match v with
  | JStr s =>
      if decide (s = "physical") then Some ty_physical
      else if decide (s = "magical") then Some ty_magical
      else if decide (s = "both") then Some ty_both
      else if decide (s = "status") then Some ty_status
      else None
  | _ => None
  end.

Definition Ability_make {CB} (spec : AbilitySpec CB) : result (Ability CB) :=
  let a_name := default "Ability" (s_name spec) in
  let a_type := default (JStr "status") (s_type spec) in
  let a_cooldown := default (JNum 2) (s_cooldown spec) in
  let a_range := default (JNum 20) (s_range spec) in
  let a_effects := default [] (s_effects spec) in
  match parse_type a_type with
  | None => Throw "Invalid ability.type"
  | Some ty =>
      match a_cooldown with
      | JNum c =>
          if Rle_dec c 0 then Throw "cooldown must be > 0"
          else
            match a_range with
            | JNum r =>
                if Rlt_dec r 0 then Throw "range must be >= 0"
                else Ok (mkAbility a_name ty c r a_effects (s_onCast spec))
            | _ => Throw "range must be >= 0"
            end
      | _ => Throw "cooldown must be > 0"
      end
  end.

(** What the JavaScript engine makes of the text of a script: [new
    Function(...)] throws, or the call of the function throws, or it
    returns a value that is an array of ability objects or is not an
    array. *)
Inductive ScriptRun (CB : Type) :=
| syntax_error (message : string)
| call_throws (message : string)
| returns_other
| returns_array (l : list (AbilitySpec CB)).
Arguments syntax_error {CB}.
Arguments call_throws {CB}.
Arguments returns_other {CB}.
Arguments returns_array {CB}.

(** [statusEl.textContent] *)
Inductive Status :=
| status_loaded (n : nat)
| status_syntax_error (message : string)
| status_runtime_error (message : string).

(** [for(const a of result){ Ability.make(a); }]: the first exception
    leaves the loop. *)
Fixpoint validate_all {CB} (l : list (AbilitySpec CB)) : result unit :=
  match l with
  | [] => Ok ()
  | a :: rest =>
      match Ability_make a with
      | Ok _ => validate_all rest
      | Throw m => Throw m
      end
  end.

(** [result.map(a => Ability.make(a))] *)
Fixpoint make_all {CB} (l : list (AbilitySpec CB)) : result (list (Ability CB)) :=
  match l with
  | [] => Ok []
  | a :: rest =>
      match Ability_make a with
      | Ok b =>
          match make_all rest with
          | Ok bs => Ok (b :: bs)
          | Throw m => Throw m
          end
      | Throw m => Throw m
      end
  end.

(** [compileAbilities(src, label, statusEl)]: the returned list ([None] is
    [null]) and the status written. *)
Definition compileAbilities {CB} (run : ScriptRun CB)
    : option (list (Ability CB)) * Status :=
  match run with
  | syntax_error m => (None, status_syntax_error m)
  | call_throws m => (None, status_runtime_error m)
  | returns_other => (None, status_runtime_error "Ability script must return an array")
  | returns_array l =>
      match validate_all l with
      | Throw m => (None, status_runtime_error m)
      | Ok _ =>
          match make_all l with
          | Ok bs => (Some bs, status_loaded (length l))
          | Throw m => (None, status_runtime_error m)
          end
      end
  end.

(** The click handlers of [validateA] and [validateB]:
    [const c = compileAbilities(...); if(c) compiledA = c;]
    on the variable [compiledA]. *)
Definition validateClick {CB} (run : ScriptRun CB) (compiled : list (Ability CB))
    : list (Ability CB) :=
  match fst (compileAbilities run) with
  | Some c => c
  | None => compiled
  end.

(** The failures the specification lists: structural (the text does not
    compile) and behavioural (the call throws, the value is not an array,
    or some ability of the array does not pass [Ability.make]). *)
Inductive compile_fails {CB} : ScriptRun CB -> Prop :=
| fails_structural m : compile_fails (syntax_error m)
| fails_throws m : compile_fails (call_throws m)
| fails_not_array : compile_fails returns_other
| fails_invalid l a m :
    a ∈ l -> Ability_make a = Throw m -> compile_fails (returns_array l).

(** ** A script language for the examples

    The callbacks of the template of the README call the world's three
    operations on the fighters they are given.  [OnCast body] is
    [onCast(self, target, world){ body }]; [OnHit body self target] is
    the closure [(hit) => { body }] made inside an [onCast] that ran with
    these [self] and [target].  As in the template, an [onHit] applies
    effects or freezes and spawns nothing. *)

Inductive Ref := ref_self | ref_target | ref_hit.

Inductive HitCall :=
| hit_applyEffects (effs : list Effect) (caster target : Ref)
| hit_timeFreeze (target : Ref) (duration : R).

Inductive Call :=
| call_hit (c : HitCall)
| call_spawnProjectile (spd maxT : R) (src dst : Ref) (onhit : list HitCall).

Inductive Callback :=
| OnCast (body : list Call)
| OnHit (body : list HitCall) (self target : nat).

Definition resolve (self target : nat) (hit : option nat) (r : Ref) : option nat :=
  match r with
  | ref_self => Some self
  | ref_target => Some target
  | ref_hit => hit
  end.

Definition exec_hit {CB} (self target : nat) (hit : option nat) (w : World CB)
    (c : HitCall) : World CB :=
  match c with
  | hit_applyEffects effs a b =>
      match resolve self target hit a, resolve self target hit b with
      | Some i, Some j => applyEffects effs i j w
      | _, _ => w
      end
  | hit_timeFreeze b duration =>
      match resolve self target hit b with
      | Some j => world_timeFreeze j duration w
      | None => w
      end
  end.

Definition exec_call (self target : nat) (w : World Callback) (c : Call)
    : World Callback :=
  match c with
  | call_hit h => exec_hit self target None w h
  | call_spawnProjectile spd maxT a b onhit =>
      match resolve self target None a ≫= (fun i => fighters w !! i),
            resolve self target None b ≫= (fun j => fighters w !! j) with
      | Some f, Some g =>
          spawnProjectile
            (mkProjSpec spd maxT (pos (state f)) (pos (state g)) None None
               (Some (OnHit onhit self target))) w
      | _, _ => w
      end
  end.

#[export] Instance Callback_Script : Script Callback := {
  runCast cb me op w :=
    match cb with
    | OnCast body => fold_left (exec_call me op) body w
    | OnHit _ _ _ => w
    end;
  runHit cb f w :=
    match cb with
    | OnHit body self target => fold_left (exec_hit self target (Some f)) body w
    | OnCast _ => w
    end
}.


(** ** The specification's words and sample data *)

(** The mitigation of the specification, in its words: [raw × 100 / (100 +
    resistance)], and for [both] the two halves mitigated separately. *)
Definition spec_mitigated (st : Stats) (raw : R) (k : DamageKind) : R :=
  match k with
  | physical => raw * 100 / (100 + physicalResistance st)
  | magical => raw * 100 / (100 + magicalResistance st)
  | both =>
      (raw / 2) * 100 / (100 + physicalResistance st)
      + (raw / 2) * 100 / (100 + magicalResistance st)
  end.

(** [st'] resists damage of kind [k] more than [st] does. *)
Definition more_resistant (k : DamageKind) (st st' : Stats) : Prop :=
  match k with
  | physical => physicalResistance st < physicalResistance st'
  | magical => magicalResistance st < magicalResistance st'
  | both =>
      physicalResistance st <= physicalResistance st'
      /\ magicalResistance st <= magicalResistance st'
      /\ (physicalResistance st < physicalResistance st'
          \/ magicalResistance st < magicalResistance st')
  end.

(** The resistance that applies to kind [k] is zero. *)
Definition unresisted (k : DamageKind) (st : Stats) : Prop :=
  match k with
  | physical => physicalResistance st = 0
  | magical => magicalResistance st = 0
  | both => physicalResistance st = 0 /\ magicalResistance st = 0
  end.

Definition nonneg_resistances (st : Stats) : Prop :=
  0 <= physicalResistance st /\ 0 <= magicalResistance st.

(** Sample stats and a fresh state. *)
Definition stats0 : Stats := mkStats 100 10 0 10 0 120 1 false.
Definition stats20 : Stats := mkStats 100 10 20 10 20 120 1 false.
Definition stats_mixed : Stats := mkStats 100 10 0 10 100 120 1 false.
Definition state0 : State :=
  mkState 100 (mkvec 0 0) (mkvec 0 0) 1 [] (mkImm 0 0 0) 0 ∅.

Definition state_frozen_half : State :=
  mkState 100 (mkvec 0 0) (mkvec 0 0) 1 [] (mkImm 0 0 0) (1 / 2) ∅.
Definition state_at (x y : R) : State :=
  mkState 100 (mkvec x y) (mkvec 0 0) 1 [] (mkImm 0 0 0) 0 ∅.

(** A fighter with no abilities that carries one DoT record of 3 dps for
    3 seconds. *)
Definition burning : Fighter Callback :=
  mkFighter stats0
    (mkState 100 (mkvec 0 0) (mkvec 0 0) 1 [mkDot 3 3 0 magical] (mkImm 0 0 0) 0 ∅)
    [].

(** The first ability of the template, a correct one, and one whose
    cooldown is negative. *)
Definition spec_slash : AbilitySpec Callback :=
  mkSpec (Some "Slash") (Some (JStr "physical")) (Some (JNum (12 / 10)))
    (Some (JNum 20)) (Some [damage 14 physical])
    (Some (OnCast [call_hit (hit_applyEffects [damage 14 physical] ref_self ref_target);
                   call_hit (hit_applyEffects [knockback 110] ref_self ref_target)])).
Definition spec_bad : AbilitySpec Callback :=
  mkSpec (Some "Broken") (Some (JStr "magical")) (Some (JNum (-1)))
    None None None.
Definition slash : Ability Callback :=
  mkAbility "Slash" ty_physical (12 / 10) 20 [damage 14 physical] (s_onCast spec_slash).

(** The magnitude of a velocity. *)
Definition magnitude (v : vec) : R := hypot (X v) (Y v).

(** No fighter of [w] is within the hit radius of the point [c]. *)
Definition clear_of {CB} (w : World CB) (c : vec) : Prop :=
  forall j f, fighters w !! j = Some f -> ~ dist c (pos (state f)) < hit_radius.

(** A sample world: two melee fighters ten pixels apart and a projectile
    that flies to the right and reaches them in the next frame, cast by
    the first with an [onHit] that damages the fighter hit. *)
Definition bounds0 : Bounds := mkBounds 40 40 720 400.
Definition fighterA : Fighter Callback := mkFighter stats20 (state_at 100 100) [slash].
Definition fighterB : Fighter Callback := mkFighter stats20 (state_at 110 100) [slash].
Definition bolt : Projectile Callback :=
  mkProjectile (mkvec 95 100) (mkvec 260 0) 2 (circle 4) "#ff8a3a"
    (Some (OnHit [hit_applyEffects [damage 12 physical] ref_self ref_hit] 0 1)) true.
Definition crowded : World Callback := mkWorld [fighterA; fighterB] [bolt] bounds0.
Definition frame : R := 33 / 1000.

(** The cooldown timer of the ability named [n]: [cd[n]], an entry that
    is missing counting as an expired timer. *)
Definition cdTimer (m : gmap string R) (n : string) : R := default 0 (m !! n).

(** The condition of the specification for an ability to be cast: its
    cooldown timer is at most 0 and the distance at most [max(20,
    range)]. *)
Definition eligible {CB} (m : gmap string R) (d : R) (a : Ability CB) : Prop :=
  cdTimer m (name a) <= 0 /\ d <= Rmax 20 (range a).

(** The cooldown of the specification, in its words: [max(0.1,
    baseCooldown / attackSpeed)]. *)
Definition spec_castCooldown {CB} (st : Stats) (a : Ability CB) : R :=
  Rmax (1 / 10) (cooldown a / attackSpeed st).

(** Stats of a fighter whose attack speed is a twentieth, and an ability
    of base cooldown 2. *)
Definition stats_slow : Stats := mkStats 100 10 20 10 20 120 (1 / 20) false.
Definition jab : Ability Callback := mkAbility "Jab" ty_physical 2 20 [damage 5 physical] None.

(** ** Conditions under which hp is never raised *)

(** The amounts of an effect are not negative. *)
Definition nonneg_effect (e : Effect) : Prop :=
  match e with
  | damage a _ => 0 <= a
  | dot dps _ _ => 0 <= dps
  | _ => True
  end.

(** A fighter whose resistances are not negative and whose abilities with
    the default [onCast] carry effects of non-negative amounts. *)
Definition sound_fighter {CB} (f : Fighter CB) : Prop :=
  nonneg_resistances (stats f)
  /\ Forall (fun a => onCast a = None -> Forall nonneg_effect (effects a)) (abilities f).

Definition dots_nonneg {CB} (f : Fighter CB) : Prop :=
  Forall (fun d => 0 <= d_dps d) (dots (state f)).

(** [f'] is [f] later on: the same stats and abilities, and no more hp. *)
Definition hp_le {CB} (f f' : Fighter CB) : Prop :=
  stats f' = stats f /\ abilities f' = abilities f /\ hp (state f') <= hp (state f).

(** The callbacks of the projectiles in flight satisfy [ok]. *)
Definition hits_ok {CB} (ok : CB -> Prop) (w : World CB) : Prop :=
  Forall (fun p => forall c, onHit p = Some c -> ok c) (projectiles w).

(** The [onCast] callbacks of the abilities of a fighter satisfy [ok]. *)
Definition casts_ok {CB} (ok : CB -> Prop) (f : Fighter CB) : Prop :=
  Forall (fun a => forall c, onCast a = Some c -> ok c) (abilities f).

(** The callbacks that satisfy [ok] never raise the hp of a fighter: run
    in a world whose fighters are sound and whose projectiles carry
    callbacks that satisfy [ok], such a callback leaves every fighter
    with its stats, its abilities and no more hp than it had, and leaves
    no projectile whose callback does not satisfy [ok]. *)
Definition never_raise (CB : Type) `{Script CB} (ok : CB -> Prop) : Prop :=
  (forall c me op w,
     ok c -> Forall sound_fighter (fighters w) -> hits_ok ok w ->
     Forall2 hp_le (fighters w) (fighters (runCast c me op w))
     /\ hits_ok ok (runCast c me op w))
  /\ (forall c i w,
     ok c -> Forall sound_fighter (fighters w) -> hits_ok ok w ->
     Forall2 hp_le (fighters w) (fighters (runHit c i w))
     /\ hits_ok ok (runHit c i w)).

(** The callbacks of a script leave the stats of the fighters alone. *)
Definition keeps_stats (CB : Type) `{Script CB} : Prop :=
  (forall c me op w, stats <$> fighters (runCast c me op w) = stats <$> fighters w)
  /\ (forall c i w, stats <$> fighters (runHit c i w) = stats <$> fighters w).

(** The mitigation of damage to [f] divides by [100 + resistance]; with
    a resistance of -100 that is a division by zero, whose result is not
    a number of this model. *)
Definition defined_mitigation {CB} (f : Fighter CB) : Prop :=
  100 + physicalResistance (stats f) <> 0 /\ 100 + magicalResistance (stats f) <> 0.

(** The calls of the script language whose effects have amounts that are
    not negative. *)
Definition nonneg_hit (c : HitCall) : Prop :=
  match c with
  | hit_applyEffects effs _ _ => Forall nonneg_effect effs
  | hit_timeFreeze _ _ => True
  end.

Definition nonneg_call (c : Call) : Prop :=
  match c with
  | call_hit h => nonneg_hit h
  | call_spawnProjectile _ _ _ _ onhit => Forall nonneg_hit onhit
  end.

Definition nonneg_callback (c : Callback) : Prop :=
  match c with
  | OnCast body => Forall nonneg_call body
  | OnHit body _ _ => Forall nonneg_hit body
  end.

(** The [onHit] callbacks of a script spawn no projectile. *)
Definition hits_spawn_nothing (CB : Type) `{Script CB} : Prop :=
  forall c i w, length (projectiles (runHit c i w)) = length (projectiles w).

(** Abilities that all keep the default [onCast] need no callback. *)
#[export] Instance no_callbacks : Script Empty_set := {
  runCast c := match c with end;
  runHit c := match c with end
}.

(** An ability with the default [onCast]. *)
Definition punch : Ability Empty_set :=
  mkAbility "Punch" ty_physical (12 / 10) 20 [damage 14 physical] None.

(** A fighter that a knockback has left with velocity (50, 0), and a
    projectile spawned on the spot, far from both fighters. *)
Definition knocked : Fighter Callback :=
  mkFighter stats20
    (mkState 100 (mkvec 100 100) (mkvec 50 0) 1 [] (mkImm 0 0 0) 0 ∅) [slash].
Definition shoved : World Callback := mkWorld [knocked; fighterB] [] bounds0.

(** The end-to-end example of the specification: a fighter with one
    ability (range 20, damage 14 physical, cooldown 1.2, default [onCast])
    and attack speed 1, at distance 15 from a fighter of physical
    resistance 20 and hp 100. *)
Definition duelA : Fighter Empty_set :=
  mkFighter (mkStats 100 10 20 10 20 0 1 false) (state_at 100 100) [punch].
Definition duelB : Fighter Empty_set :=
  mkFighter stats20 (state_at 115 100) [].
Definition duel : World Empty_set := mkWorld [duelA; duelB] [] bounds0.

(** ** Further definitions: timers over successive ticks *)

(** The immunity of kind [k] covers damage of kind [k']. *)
Definition covers (k k' : DamageKind) : Prop := k = both \/ k = k'.

(** A damage or DoT effect of kind [k]. *)
Definition harms (e : Effect) (k : DamageKind) : Prop :=
  match e with
  | damage _ k' => k' = k
  | dot _ _ k' => k' = k
  | _ => False
  end.

(** A fighter immune to everything for a while that carries a DoT. *)
Definition shielded : Fighter Callback :=
  mkFighter stats20
    (mkState 100 (mkvec 0 0) (mkvec 0 0) 1 [mkDot 3 3 (9 / 10) magical]
       (mkImm 0 0 5) 0 ∅)
    [slash].

(** ** Further definitions: cooldowns over successive ticks *)

(** How many of the abilities carry the name [n]. *)
Definition count_name {CB} (n : string) (abs : list (Ability CB)) : nat :=
  length (filter (fun a => name a = n) abs).

(** A ranged ability beside [slash]. *)
Definition firebolt : Ability Callback :=
  mkAbility "Firebolt" ty_magical 2 200 [damage 10 magical; dot 2 3 magical] None.

(** ** Further definitions: projectiles over successive ticks *)

(** The projectile phase of successive ticks of lengths [dts], with
    nothing else run in between; each pass gets as much fuel as there are
    projectiles. *)
Fixpoint runProjectiles {CB} `{Script CB} (dts : list R) (w : World CB)
    : option (World CB * list (nat * nat)) :=
  match dts with
  | [] => Some (w, [])
  | dt :: rest =>
      match projectilePhase (length (projectiles w)) dt w with
      | Some (w1, l1) =>
          match runProjectiles rest w1 with
          | Some (w2, l2) => Some (w2, l1 ++ l2)
          | None => None
          end
      | None => None
      end
  end.

(** The point a projectile reaches after flying for the time [e]. *)
Definition ray {CB} (q : Projectile CB) (e : R) : vec :=
  mkvec (X (p_pos q) + X (p_vel q) * e) (Y (p_pos q) + Y (p_vel q) * e).

(** Every fighter of [w] is farther than the hit radius from the point
    [c], by the margin [m] at least. *)
Definition clear_by {CB} (m : R) (w : World CB) (c : vec) : Prop :=
  forall j f, fighters w !! j = Some f -> hit_radius + m <= dist c (pos (state f)).

(** The allowance made for the rounding of a countdown that starts at
    [v]: a part in [2^40] of the larger of [v] and the longest step, for
    each of the [n] steps (binary64 loses at most a part in [2^53]). *)
Definition countdown_slack (n : nat) (v D : R) : R := INR n * Rmax v D / 2 ^ 40.

(** A projectile aimed from (100, 100) at a point to the right and
    above, and a world whose fighters stand far below its line. *)
Definition aimed_spec : ProjSpec Callback :=
  mkProjSpec 260 2 (mkvec 100 100) (mkvec 103 104) None None None.
Definition flying : Projectile Callback :=
  mkProjectile (mkvec 100 100) (mkvec 260 0) 2 (circle 4) "#ff8a3a" None true.
Definition farA : Fighter Callback := mkFighter stats20 (state_at 100 300) [slash].
Definition farB : Fighter Callback := mkFighter stats20 (state_at 500 300) [slash].
Definition range_world : World Callback := mkWorld [farA; farB] [flying] bounds0.

(** ** Further definitions: abilities as objects *)

(** The string of an ability type. *)
Definition type_name (ty : AbilityType) : string :=
  match ty with
  | ty_physical => "physical"
  | ty_magical => "magical"
  | ty_both => "both"
  | ty_status => "status"
  end.

(** An ability seen again as the argument of [Ability.make]: every field
    is present.  A script that builds its abilities with [Ability.make]
    returns such objects, and [compileAbilities] passes them to
    [Ability.make] again. *)
Definition to_spec {CB} (a : Ability CB) : AbilitySpec CB :=
  mkSpec (Some (name a)) (Some (JStr (type_name (atype a))))
    (Some (JNum (cooldown a))) (Some (JNum (range a))) (Some (effects a))
    (onCast a).

(** An ability whose type is not one of the four, and whose cooldown is
    not positive either. *)
Definition spec_twice_bad : AbilitySpec Callback :=
  mkSpec (Some "Odd") (Some (JStr "fire")) (Some (JNum 0)) (Some (JNum (-5)))
    None None.

(** ** Further definitions: fighters and the arena object *)

(** [dist2(a,b)], also named [distsq]. *)
Definition dist2 (a b : vec) : R :=
  (X a - X b) * (X a - X b) + (Y a - Y b) * (Y a - Y b).
Definition distsq := dist2.


Record Canvas := mkCanvas { width : R; height : R }.

(** The [Arena] object: the canvas, the time of the last frame, the
    [running] flag, and the fighters, projectiles and bounds, which are
    the [World] the simulation works on. *)
Record Arena (CB : Type) := mkArena {
  cv : Canvas;
  last : R;
  running : bool;
  world : World CB
}.
Arguments mkArena {CB}.
Arguments cv {CB}.
Arguments last {CB}.
Arguments running {CB}.
Arguments world {CB}.

(** [Arena.init(canvas)], at time [now()]. *)
Definition Arena_init {CB} (canvas : Canvas) (now : R) : Arena CB :=
  mkArena canvas now false
    (mkWorld [] [] (mkBounds 40 40 (width canvas - 80) (height canvas - 80))).

Definition Arena_start {CB} (a : Arena CB) : Arena CB :=
  mkArena (cv a) (last a) true (world a).
Definition Arena_pause {CB} (a : Arena CB) : Arena CB :=
  mkArena (cv a) (last a) false (world a).

(** [f.state.pos = vec(..); f.state.hp = f.base.stats.hp] *)
Definition respawn {CB} (p : vec) (f : Fighter CB) : Fighter CB :=
  with_state f (set_hp (set_pos (state f) p) (stat_hp (stats f))).

(** [if(this.fighters[i]){ ... }] *)
Definition place {CB} (i : nat) (p : vec) (fs : list (Fighter CB))
    : list (Fighter CB) :=
  match fs !! i with
  | Some f => <[i := respawn p f]> fs
  | None => fs
  end.

(** [Arena.reset(fighters)] *)
Definition Arena_reset {CB} (fs : list (Fighter CB)) (a : Arena CB) : Arena CB :=
  let midx := width (cv a) / 2 in
  let midy := height (cv a) / 2 in
  let fs1 := place 0 (mkvec (midx - 220) midy) fs in
  let fs2 := place 1 (mkvec (midx + 220) midy) fs1 in
  mkArena (cv a) (last a) (running a) (mkWorld fs2 [] (bounds (world a))).

(** [Arena.loop()], called at time [now()]; drawing is left out.  The
    fuel is that of [tick]. *)
Definition Arena_loop {CB} `{Script CB} (fuel : nat) (now : R) (a : Arena CB)
    : option (Arena CB) :=
  let dt := Rmin (33 / 1000) (now - last a) in
  if running a then
    match tick fuel dt (world a) with
    | Some w => Some (mkArena (cv a) now true w)
    | None => None
    end
  else Some (mkArena (cv a) now false (world a)).

(** Successive frames at the times [nows]; each tick gets as much fuel as
    there are projectiles when it starts. *)
Fixpoint runFrames {CB} `{Script CB} (nows : list R) (a : Arena CB)
    : option (Arena CB) :=
  match nows with
  | [] => Some a
  | t :: rest =>
      match Arena_loop (length (projectiles (world a))) t a with
      | Some a' => runFrames rest a'
      | None => None
      end
  end.

(** The page: the ability lists loaded for the two fighters, the stats
    their editors return, and the arena. *)
Record Page (CB : Type) := mkPage {
  compiledA : list (Ability CB);
  compiledB : list (Ability CB);
  arena : Arena CB
}.
Arguments mkPage {CB}.
Arguments compiledA {CB}.
Arguments compiledB {CB}.
Arguments arena {CB}.



Definition pauseClick {CB} (p : Page CB) : Page CB :=
  mkPage (compiledA p) (compiledB p) (Arena_pause (arena p)).

(** The click handler of [resetBtn]: [Arena.pause(); Arena.reset(Arena.fighters)] *)
Definition resetClick {CB} (p : Page CB) : Page CB :=
  let a := Arena_pause (arena p) in
  mkPage (compiledA p) (compiledB p) (Arena_reset (fighters (world a)) a).

(** Whether a point lies in the rectangle of the bounds. *)
Definition in_bounds (b : Bounds) (p : vec) : Prop :=
  b_x b <= X p <= b_x b + b_w b /\ b_y b <= Y p <= b_y b + b_h b.

(** A canvas of 800 by 480, a fighter in the middle of a fight, and a
    page on which the script of fighter A was replaced by one that does
    not compile after [slash] was loaded. *)
Definition canvas0 : Canvas := mkCanvas 800 480.
Definition worn : Fighter Callback :=
  mkFighter stats0
    (mkState 35 (mkvec 300 90) (mkvec 55 0) (-1) [mkDot 2 3 0 magical]
       (mkImm 0 (1 / 2) 0) (4 / 10) {["Slash" := 1]}) [slash].



(** ** Further definitions: the stats editor *)

(** The values of a parsed JSON text; objects and arrays are not told
    apart. *)
Inductive Json :=
| JBool (b : bool)
| JNumber (r : R)
| JString (s : string)
| JNull
| JObject.

(** [!!v] *)
Definition truthy (v : Json) : bool :=
  match v with
  | JBool b => b
  | JNumber r => if Req_dec_T r 0 then false else true
  | JString s => if decide (s = "") then false else true
  | JNull => false
  | JObject => true
  end.

(** The keys of the number fields with their defaults. *)
Definition fields : list (string * R) :=
  [("hp", 100); ("physicalStrength", 10); ("physicalResistance", 20);
   ("magicalPower", 10); ("magicalResistance", 20); ("moveSpeed", 120);
   ("attackSpeed", 1)].

(** The state of a [StatsEditor]: the object [data] of the closure, the
    values shown by the number inputs (by their [data-key]) and the
    checkbox [flyEl]. *)
Record StatsEditor := mkStatsEditor {
  data : gmap string R;
  inputs : gmap string Json;
  flyEl : bool
}.

Definition StatsEditor_init : StatsEditor :=
  mkStatsEditor (list_to_map fields) (JNumber <$> list_to_map fields) false.

(** [+data[k] || d]: a missing entry is [undefined], whose number is NaN. *)
Definition field (e : StatsEditor) (k : string) (d : R) : R :=
  match data e !! k with
  | Some v => js_or v d
  | None => d
  end.

(** [get()] *)
Definition StatsEditor_get (e : StatsEditor) : Stats :=
  mkStats (field e "hp" 100) (field e "physicalStrength" 0)
    (field e "physicalResistance" 0) (field e "magicalPower" 0)
    (field e "magicalResistance" 0) (field e "moveSpeed" 100)
    (field e "attackSpeed" 1) (flyEl e).

(** One iteration of [for(const k in obj)] in [set(obj)]: the checkbox for
    the key [canFly], the value of the input of that key when there is
    one, nothing otherwise. *)
Definition set_key (e : StatsEditor) (kv : string * Json) : StatsEditor :=
  if decide (kv.1 = "canFly") then mkStatsEditor (data e) (inputs e) (truthy kv.2)
  else if decide (kv.1 ∈ fields.*1)
       then mkStatsEditor (data e) (<[kv.1 := kv.2]> (inputs e)) (flyEl e)
       else e.

(** [set(obj)], on the entries of [obj] in their order. *)
Definition StatsEditor_set (obj : list (string * Json)) (e : StatsEditor)
    : StatsEditor :=
  fold_left set_key obj e.

(** The [change] listener of the input of key [k], run by the browser
    when the user commits an edit: [parsed] is [parseFloat(inp.value)]
    when it is finite. *)
Definition StatsEditor_change (k : string) (parsed : option R) (e : StatsEditor)
    : StatsEditor :=
  match list_to_map (M := gmap string R) fields !! k with
  | Some def => mkStatsEditor (<[k := default def parsed]> (data e)) (inputs e) (flyEl e)
  | None => e
  end.

(** The stats object of an exported fighter with 250 hp that can fly. *)
Definition stats_json : list (string * Json) :=
  [("hp", JNumber 250); ("physicalStrength", JNumber 30);
   ("moveSpeed", JNumber 90); ("canFly", JBool true)].

(** ** Further definitions: the sprite editor *)

Module Sprite.

Inductive Tool := paint | erase | eyedrop.

(** The state of a [SpriteEditor]: the array [pixels], whose elements are
    [null] or a colour string, the variable
    [tool], and the value of the colour input [colorEl]. *)
Record Editor := mkEditor {
  pixels : list (option string);
  tool : Tool;
  colorEl : string
}.

Definition size : nat := 16.

(** The editor as [SpriteEditor(gridEl, colorEl)] returns it. *)
Definition init (color : string) : Editor :=
  mkEditor (replicate (size * size) None) paint color.

Definition setTool (t : Tool) (e : Editor) : Editor :=
  mkEditor (pixels e) t (colorEl e).

(** [setPixel(ix, hex)]: [pixels[ix] = hex].  Every call passes an index
    below [pixels.length]: the loops of [clear] and [fromData] are bounded
    by it, and the cells are those of the 256 indices. *)
Definition setPixel (ix : nat) (hex : option string) (px : list (option string))
    : list (option string) :=
  <[ix := hex]> px.

Definition getColor (ix : nat) (e : Editor) : option string :=
  default None (pixels e !! ix).

(** [for(let i=0;i<pixels.length;i++) setPixel(i,null)] *)
Definition clear (e : Editor) : Editor :=
  mkEditor (fold_left (fun px i => setPixel i None px) (seq 0 (length (pixels e)))
              (pixels e))
    (tool e) (colorEl e).

Definition toData (e : Editor) : list (option string) := pixels e.

(** [for(let i=0;i<Math.min(arr.length,pixels.length);i++) setPixel(i, arr[i])] *)
Definition fromData (arr : list (option string)) (e : Editor) : Editor :=
  mkEditor (fold_left (fun px i => setPixel i (default None (arr !! i)) px)
              (seq 0 (Nat.min (length arr) (length (pixels e)))) (pixels e))
    (tool e) (colorEl e).

(** [if(c)] on a pixel: [null] and the empty string are falsy. *)
Definition is_colour (c : option string) : bool :=
  match c with
  | Some s => if decide (s = "") then false else true
  | None => false
  end.

(** The [mousedown] listener of cell [i]. *)
Definition mousedown (i : nat) (e : Editor) : Editor :=
  match tool e with
  | eyedrop =>
      let c := getColor i e in
      mkEditor (pixels e) paint
        (if is_colour c then default "" c else colorEl e)
  | erase => mkEditor (setPixel i None (pixels e)) (tool e) (colorEl e)
  | paint => mkEditor (setPixel i (Some (colorEl e)) (pixels e)) (tool e) (colorEl e)
  end.

(** The [mouseenter] listener of cell [i]; [pressed] is [e.buttons===1]. *)
Definition mouseenter (i : nat) (pressed : bool) (e : Editor) : Editor :=
  if pressed then
    match tool e with
    | erase => mkEditor (setPixel i None (pixels e)) (tool e) (colorEl e)
    | paint => mkEditor (setPixel i (Some (colorEl e)) (pixels e)) (tool e) (colorEl e)
    | eyedrop => e
    end
  else e.

(** What can happen to an editor. *)
Inductive Event :=
| ev_setTool (t : Tool)
| ev_clear
| ev_fromData (arr : list (option string))
| ev_mousedown (i : nat)
| ev_mouseenter (i : nat) (pressed : bool)
| ev_colour (c : string).

Definition step (e : Editor) (ev : Event) : Editor :=
  match ev with
  | ev_setTool t => setTool t e
  | ev_clear => clear e
  | ev_fromData arr => fromData arr e
  | ev_mousedown i => mousedown i e
  | ev_mouseenter i pressed => mouseenter i pressed e
  | ev_colour c => mkEditor (pixels e) (tool e) c
  end.

Definition run (evs : list Event) (e : Editor) : Editor := fold_left step evs e.

End Sprite.

(** * The arithmetic of the timers

    The counters that the engine accumulates from tick to tick (the
    accumulator of a DoT record, the immunity and cooldown timers, the
    decaying velocity) compare a rounded number with a threshold, so
    that rounding can decide what happens.  For them the code of the
    status decay is embedded once more, over an arbitrary arithmetic
    [Num.Arith], and read two ways: in binary64, the numbers of
    JavaScript, where it is evaluated, and in real arithmetic followed
    by a rounding function, where general statements are proved for
    every rounding that has the properties of [rounding]. *)

Module Num.

Record Arith (N : Type) := mkArith {
  add : N -> N -> N;
  sub : N -> N -> N;
  mul : N -> N -> N;
  leb : N -> N -> bool;
  ltb : N -> N -> bool;
  eqb : N -> N -> bool;
  zero : N;
  one : N
}.
Arguments mkArith {N}.
Arguments add {N}.
Arguments sub {N}.
Arguments mul {N}.
Arguments leb {N}.
Arguments ltb {N}.
Arguments eqb {N}.
Arguments zero {N}.
Arguments one {N}.

(** A DoT record [{dps, t, duration, dtype}]. *)
Record Dot (N : Type) := mkDot {
  dps : N;
  duration : N;
  t : N;
  dtype : DamageKind
}.
Arguments mkDot {N}.
Arguments dps {N}.
Arguments duration {N}.
Arguments t {N}.
Arguments dtype {N}.

(** [state.immunities] *)
Record Imm (N : Type) := mkImm {
  imm_physical : N;
  imm_magical : N;
  imm_both : N
}.
Arguments mkImm {N}.
Arguments imm_physical {N}.
Arguments imm_magical {N}.
Arguments imm_both {N}.

(** What the status decay of a fighter reads and writes: [state.hp],
    [state.dots], [state.immunities] and [state.cd]. *)
Record Status (N : Type) := mkStatus {
  hp : N;
  dots : list (Dot N);
  immunities : Imm N;
  cd : gmap string N
}.
Arguments mkStatus {N}.
Arguments hp {N}.
Arguments dots {N}.
Arguments immunities {N}.
Arguments cd {N}.

Section Engine.
Context {N : Type} (A : Arith N).

(** [x || 0] *)
Definition or_zero (x : N) : N := if eqb A x (zero A) then zero A else x.

(** [Math.max(0, x)] *)
Definition max_zero (x : N) : N := if ltb A (zero A) x then x else zero A.

Definition imm_get (i : Imm N) (k : DamageKind) : N :=
  match k with
  | physical => imm_physical i
  | magical => imm_magical i
  | both => imm_both i
  end.

(** [Arena.isImmune] *)
Definition isImmune (i : Imm N) (k : DamageKind) : bool :=
  match k with
  | both =>
      ltb A (zero A) (imm_both i)
      || (ltb A (zero A) (imm_physical i) && ltb A (zero A) (imm_magical i))
  | _ => ltb A (zero A) (imm_get i k) || ltb A (zero A) (imm_both i)
  end.

(** [while(d.t >= 1){ d.t -= 1; if(!isImmune(f, d.dtype)) f.state.hp -=
    d.dps; d.duration -= 1; }] with the amounts taken from [hp], in order.
    The loop runs as long as the test holds; [None] when [fuel] iterations
    have not ended it. *)
Fixpoint pulses (fuel : nat) (immune : bool) (d : Dot N) (h : N)
    : option (Dot N * N * list N) :=
  if leb A (one A) (t d) then
    match fuel with
    | O => None
    | S fuel' =>
        let d' := mkDot (dps d) (sub A (duration d) (one A)) (sub A (t d) (one A))
                    (dtype d) in
        if immune then pulses fuel' immune d' h
        else
          match pulses fuel' immune d' (sub A h (dps d)) with
          | Some (d2, h2, l) => Some (d2, h2, dps d :: l)
          | None => None
          end
    end
  else Some (d, h, []).

(** [for(let i=dots.length-1;i>=0;i--)]: from the last record to the
    first, an exhausted record is spliced out, the others accumulate [dt]
    and pulse. *)
Fixpoint decay_dots (fuel : nat) (dt : N) (i : Imm N) (ds : list (Dot N)) (h : N)
    : option (list (Dot N) * N * list N) :=
  match ds with
  | [] => Some ([], h, [])
  | d :: rest =>
      match decay_dots fuel dt i rest h with
      | None => None
      | Some (rest', h1, l1) =>
          if leb A (duration d) (zero A) then Some (rest', h1, l1)
          else
            let d1 := mkDot (dps d) (duration d) (add A (or_zero (t d)) dt) (dtype d) in
            match pulses fuel (isImmune i (dtype d)) d1 h1 with
            | Some (d2, h2, l2) => Some (d2 :: rest', h2, l1 ++ l2)
            | None => None
            end
      end
  end.

(** [if(immunities[k]>0) immunities[k] -= dt] *)
Definition decay_timer (dt v : N) : N := if ltb A (zero A) v then sub A v dt else v.

Definition decay_immunities (dt : N) (i : Imm N) : Imm N :=
  mkImm (decay_timer dt (imm_physical i)) (decay_timer dt (imm_magical i))
    (decay_timer dt (imm_both i)).

(** [if(!(a.name in cd)) cd[a.name]=0; cd[a.name] = Math.max(0,
    cd[a.name]-dt)] *)
Definition decay_cooldown (dt : N) (m : gmap string N) (n : string) : gmap string N :=
  let m1 := match m !! n with None => <[n := zero A]> m | Some _ => m end in
  <[n := max_zero (sub A (default (zero A) (m1 !! n)) dt)]> m1.

(** [for(const a of f.abilities)], on the names of the abilities. *)
Definition decay_cooldowns (dt : N) (names : list string) (m : gmap string N)
    : gmap string N :=
  fold_left (decay_cooldown dt) names m.

(** The body of the status loop of [tick] for a fighter whose abilities
    have the names [names], with the pulses of its DoT records. *)
Definition decay (fuel : nat) (names : list string) (dt : N) (st : Status N)
    : option (Status N * list N) :=
  match decay_dots fuel dt (immunities st) (dots st) (hp st) with
  | Some (ds, h, l) =>
      Some (mkStatus h ds (decay_immunities dt (immunities st))
              (decay_cooldowns dt names (cd st)), l)
  | None => None
  end.

(** The status loop of one fighter over successive ticks of lengths
    [dts]. *)
Fixpoint run (fuel : nat) (names : list string) (dts : list N) (st : Status N)
    : option (Status N * list N) :=
  match dts with
  | [] => Some (st, [])
  | dt :: rest =>
      match decay fuel names dt st with
      | Some (st1, l1) =>
          match run fuel names rest st1 with
          | Some (st2, l2) => Some (st2, l1 ++ l2)
          | None => None
          end
      | None => None
      end
  end.

(** [me.state.cd[a.name]>0], a missing entry comparing false. *)
Definition onCooldown (m : gmap string N) (n : string) : bool :=
  match m !! n with
  | Some c => ltb A (zero A) c
  | None => false
  end.

(** [p.ttl -= dt; if(p.ttl<=0){ p.alive=false; continue; }] over the
    projectile passes of successive ticks, for a projectile that hits
    nothing: the ttl it is left with when it is still alive after all of
    them, [None] when one of them has removed it. *)
Fixpoint flight (dts : list N) (ttl : N) : option N :=
  match dts with
  | [] => Some ttl
  | dt :: rest =>
      let ttl' := sub A ttl dt in
      if leb A ttl' (zero A) then None else flight rest ttl'
  end.

(** [me.state.vel.x *= k; me.state.vel.y *= k] where [k] is the number
    that [Math.pow(0.2, dt)] returns. *)
Definition friction (k : N) (v : N * N) : N * N := (mul A v.1 k, mul A v.2 k).

End Engine.
End Num.

(** Real arithmetic in which every operation is followed by the rounding
    [rnd]. *)
Definition rounded (rnd : R -> R) : Num.Arith R :=
  Num.mkArith (fun x y => rnd (x + y)) (fun x y => rnd (x - y))
    (fun x y => rnd (x * y)) Rleb Rltb
    (fun x y => if Req_dec_T x y then true else false) 0 1.

(** What is assumed of a rounding: it is monotone, it leaves the numbers
    it produces and the integers up to [2^53] as they are, and its error
    is bounded by [eps], relative to the exact result, plus [eta].  The
    rounding to nearest of binary64 has these properties, with
    [eps = 2^-53] and [eta = 2^-1075], on the results that do not
    overflow. *)
Record rounding (eps eta : R) (rnd : R -> R) : Prop := mkRounding {
  rnd_mono : forall x y, x <= y -> rnd x <= rnd y;
  rnd_err : forall x, Rabs (rnd x - x) <= eps * Rabs x + eta;
  rnd_idem : forall x, rnd (rnd x) = rnd x;
  rnd_int : forall z : Z, (Z.abs z <= 2 ^ 53)%Z -> rnd (IZR z) = IZR z
}.

(** Binary64, the numbers of JavaScript, on the primitive floats. *)
Definition binary64 : Num.Arith PrimFloat.float :=
  Num.mkArith PrimFloat.add PrimFloat.sub PrimFloat.mul PrimFloat.leb PrimFloat.ltb
    PrimFloat.eqb PrimFloat.zero PrimFloat.one.

(** The real number that a finite binary64 number is. *)
Definition to_R (x : PrimFloat.float) : R :=
  match FloatOps.Prim2SF x with
  | SpecFloat.S754_finite s m e =>
      (if s then -1 else 1) * IZR (Z.pos m) * powerRZ 2 e
  | _ => 0
  end.

(** A rounding that is not the identity: the numbers from 0.999 to 1 are
    rounded to 1. *)
Definition snap (x : R) : R :=
  if Rle_dec (999 / 1000) x then (if Rle_dec x 1 then 1 else x) else x.

(** The number of abilities that carry the name [n]. *)
Definition count_of (n : string) (names : list string) : nat :=
  length (filter (fun x => x = n) names).

Module Binary64.
Import PrimFloat.

(** The literals [0.1], [0.3] and [0.2] of JavaScript. *)
Definition tenth : float := 0x1.999999999999ap-4%float.
Definition fifth : float := 0x1.999999999999ap-3%float.


(** A fighter at 100 hp that carries one DoT record of 3 dps for 3
    seconds and is immune to nothing. *)
Definition burning : Num.Status float :=
  Num.mkStatus 100%float [Num.mkDot 3%float 3%float 0%float magical]
    (Num.mkImm 0%float 0%float 0%float) ∅.

Definition n0 : float := 0%float.
Definition n2 : float := 2%float.

(** The literals [0.7], [1.2] and [0.4]; a fighter immune to physical
    damage for 0.7 seconds whose ability Slash has 1.2 seconds of
    cooldown left. *)
Definition seven_tenths : float := 0x1.6666666666666p-1%float.
Definition twelve_tenths : float := 0x1.3333333333333p+0%float.
Definition two_fifths : float := 0x1.999999999999ap-2%float.
Definition warded : Num.Status float :=
  Num.mkStatus 100%float [] (Num.mkImm seven_tenths 0%float 0%float)
    {["Slash" := twelve_tenths]}.

(** The velocity that a knockback of force 100 leaves on the x axis. *)
Definition knocked_back : float * float := (50%float, 0%float).
Definition at_rest : float * float := (0%float, 0%float).


End Binary64.


(** A fighter immune to physical damage for 1.5 seconds, and one whose
    ability Slash has 1.2 seconds of cooldown left. *)
Definition warded_status : Num.Status R :=
  Num.mkStatus 100 [] (Num.mkImm (3 / 2) 0 0) ∅.
Definition cooling_status : Num.Status R :=
  Num.mkStatus 100 [] (Num.mkImm 0 0 0) {["Slash" := 6 / 5]}.

(** The part of a fighter's state that the status decay works on, and the
    arithmetic without rounding: with them the status decay of [Num] is
    the one of [decayFighter_log]. *)
Definition exact : Num.Arith R := rounded (fun x => x).
Definition dot_of (d : DotRec) : Num.Dot R :=
  Num.mkDot (d_dps d) (d_duration d) (d_t d) (d_dtype d).
Definition imm_of (i : Immunities) : Num.Imm R :=
  Num.mkImm (imm_physical i) (imm_magical i) (imm_both i).
Definition status_of (s : State) : Num.Status R :=
  Num.mkStatus (hp s) (dot_of <$> dots s) (imm_of (immunities s)) (cd s).
(** * Properties *)

(** ** Numbers *)

Lemma Rltb_true x y : Rltb x y = true <-> x < y.
Proof. unfold Rltb. destruct (Rlt_dec x y); split; intros; try done. Qed.

Lemma Rltb_false x y : Rltb x y = false <-> y <= x.
Proof.
  unfold Rltb. destruct (Rlt_dec x y); split; intros; try done; lra.
Qed.

Lemma Rleb_true x y : Rleb x y = true <-> x <= y.
Proof. unfold Rleb. destruct (Rle_dec x y); split; intros; try done. Qed.

Lemma Rleb_false x y : Rleb x y = false <-> y < x.
Proof.
  unfold Rleb. destruct (Rle_dec x y); split; intros; try done; lra.
Qed.

Lemma js_or_nonzero a b : a <> 0 -> js_or a b = a.
Proof. unfold js_or. destruct (Req_dec_T a 0); intros; done. Qed.

Lemma js_or_zero b : js_or 0 b = b.
Proof. unfold js_or. destruct (Req_dec_T 0 0); intros; done. Qed.

Lemma js_or_0_r a : js_or a 0 = a.
Proof. unfold js_or. destruct (Req_dec_T a 0); intros; congruence. Qed.

Lemma js_or_idem a b : js_or (js_or a b) b = js_or a b.
Proof.
  unfold js_or. destruct (Req_dec_T a 0) as [->|Ha].
  - destruct (Req_dec_T b 0); congruence.
  - destruct (Req_dec_T a 0); congruence.
Qed.

(** Decides the comparisons of a goal about concrete numbers. *)
Ltac rdec :=
  repeat match goal with
  | |- context [Rlt_dec ?a ?b] => destruct (Rlt_dec a b); try lra
  | |- context [Rle_dec ?a ?b] => destruct (Rle_dec a b); try lra
  | |- context [Req_dec_T ?a ?b] => destruct (Req_dec_T a b); try lra
  end.

Ltac reval :=
  unfold Rltb, Rleb, js_or, sign, clamp; rdec.

Lemma hypot_nonneg a b : 0 <= hypot a b.
Proof. apply sqrt_pos. Qed.

Lemma hypot_0 : hypot 0 0 = 0.
Proof. unfold hypot. rewrite Rmult_0_l, Rplus_0_l. apply sqrt_0. Qed.

Lemma hypot_lt a b r : 0 <= r -> hypot a b < r <-> a * a + b * b < r * r.
Proof.
  intros Hr. unfold hypot.
  assert (Hs : 0 <= a * a + b * b) by nra.
  rewrite <- (sqrt_square r) at 1 by done.
  split; intros H.
  - apply sqrt_lt_0_alt in H. done.
  - apply sqrt_lt_1; nra.
Qed.

(** ** Immunity *)

Lemma isImmune_set_hp s h k : isImmune (set_hp s h) k = isImmune s k.
Proof. by destruct k. Qed.

Lemma not_immune_both s :
  isImmune s both = false <->
  imm_both (immunities s) <= 0 /\
  (imm_physical (immunities s) <= 0 \/ imm_magical (immunities s) <= 0).
Proof.
  unfold isImmune. rewrite orb_false_iff, andb_false_iff, !Rltb_false. tauto.
Qed.

Lemma not_immune_single s k :
  k <> both ->
  isImmune s k = false <->
  imm_get (immunities s) k <= 0 /\ imm_both (immunities s) <= 0.
Proof.
  intros Hk. destruct k; try done; unfold isImmune;
    rewrite orb_false_iff, !Rltb_false; tauto.
Qed.

(** ** Damage mitigation (C1) *)

Lemma curve_pos r : 0 <= r -> 0 < 100 / (100 + r).
Proof. intros. apply Rdiv_lt_0_compat; lra. Qed.

Lemma curve_decreasing r r' : 0 <= r -> r < r' -> 100 / (100 + r') < 100 / (100 + r).
Proof.
  intros H0 H. unfold Rdiv. apply Rmult_lt_compat_l; [lra|].
  apply Rinv_lt_contravar; [|lra]. apply Rmult_lt_0_compat; lra.
Qed.

Lemma curve_antitone r r' : 0 <= r -> r <= r' -> 100 / (100 + r') <= 100 / (100 + r).
Proof.
  intros H0 [H| ->]; [left; by apply curve_decreasing | right; done].
Qed.

Lemma mitigated_spec st raw k :
  nonneg_resistances st -> mitigated st raw k = spec_mitigated st raw k.
Proof.
  intros [Hp Hm]. unfold mitigated, spec_mitigated. rewrite js_or_0_r.
  destruct k; field; lra.
Qed.

Lemma curve_assoc raw r : raw * 100 / (100 + r) = raw * (100 / (100 + r)).
Proof. unfold Rdiv. ring. Qed.

Lemma spec_mitigated_decreasing st st' raw k :
  nonneg_resistances st -> 0 < raw -> more_resistant k st st' ->
  spec_mitigated st' raw k < spec_mitigated st raw k.
Proof.
  intros [Hp Hm] Hraw Hmore. unfold spec_mitigated. rewrite !curve_assoc.
  destruct k; simpl in Hmore.
  - apply Rmult_lt_compat_l; [done|]. by apply curve_decreasing.
  - apply Rmult_lt_compat_l; [done|]. by apply curve_decreasing.
  - destruct Hmore as (H1 & H2 & H3).
    assert (Hh : 0 < raw / 2) by lra.
    pose proof (curve_antitone _ _ Hp H1) as A1.
    pose proof (curve_antitone _ _ Hm H2) as A2.
    destruct H3 as [H3|H3].
    + pose proof (curve_decreasing _ _ Hp H3). nra.
    + pose proof (curve_decreasing _ _ Hm H3). nra.
Qed.

(** C1 (amended).  A damage effect applied to a target that is not immune
    to its kind and whose resistances are not negative takes from [hp]
    exactly [raw × 100 / (100 + resistance)] for the kinds physical and
    magical and, for the kind both, the sum of the two halves mitigated
    by the physical and by the magical resistance; the amount equals
    [raw] when the resistance is zero, and for a positive [raw] it is
    strictly smaller against a more resistant target. *)
Theorem damage_mitigation (cpos : vec) (st : Stats) (s : State) (raw : R)
    (k : DamageKind) :
  isImmune s k = false ->
  nonneg_resistances st ->
  hp (applyEffect cpos st s (damage raw k)) = hp s - mitigated st raw k
  /\ mitigated st raw k = spec_mitigated st raw k
  /\ (unresisted k st -> mitigated st raw k = raw)
  /\ (forall st', nonneg_resistances st' -> 0 < raw -> more_resistant k st st' ->
        mitigated st' raw k < mitigated st raw k).
Proof.
  intros Himm Hres. simpl. rewrite Himm. simpl.
  split; [done|]. split; [by apply mitigated_spec|]. split.
  - rewrite (mitigated_spec _ _ _ Hres). unfold unresisted, spec_mitigated.
    destruct k; [intros -> | intros -> | intros [-> ->]]; field.
  - intros st' Hres' Hraw Hmore. rewrite !mitigated_spec by done.
    by apply spec_mitigated_decreasing.
Qed.

Lemma state0_not_immune k : isImmune state0 k = false.
Proof. destruct k; simpl; reval; done. Qed.

Lemma damage_mitigation_witness :
  hp (applyEffect (mkvec 0 0) stats20 state0 (damage 14 physical))
  = hp state0 - mitigated stats20 14 physical.
Proof.
  apply (damage_mitigation (mkvec 0 0) stats20 state0 14 physical).
  - apply state0_not_immune.
  - unfold nonneg_resistances; simpl; lra.
Defined.

(** C1 as stated fails for a damage effect of amount [0], the default of
    [Effects.damage]: it takes nothing whatever the resistance, so the
    amount is not strictly decreasing. *)
Lemma damage_mitigation_counterexample :
  isImmune state0 physical = false
  /\ nonneg_resistances stats0 /\ nonneg_resistances stats20
  /\ physicalResistance stats0 < physicalResistance stats20
  /\ ~ (mitigated stats20 0 physical < mitigated stats0 0 physical).
Proof.
  repeat split; try (simpl; lra); try apply state0_not_immune.
  unfold mitigated. rewrite js_or_zero. lra.
Qed.

(** The asymmetric split of the specification: damage of kind both and
    raw amount 20 against resistances 0 and 100 takes 15. *)
Example asymmetric_split : mitigated stats_mixed 20 both = 15.
Proof. unfold mitigated. rewrite js_or_nonzero by lra. simpl. field. Qed.

(** ** Immunity and freeze timers (C6) *)

Lemma set_immunities_id s i : i = immunities s -> set_immunities s i = s.
Proof. intros ->. by destruct s. Qed.

Lemma set_freeze_id s x : x = freeze s -> set_freeze s x = s.
Proof. intros ->. by destruct s. Qed.

Lemma imm_get_set i k v : imm_get (imm_set i k v) k = v.
Proof. by destruct k. Qed.

Lemma imm_set_get i k : imm_set i k (imm_get i k) = i.
Proof. by destruct k, i. Qed.

Lemma imm_set_set i k v v' : imm_set (imm_set i k v) k v' = imm_set i k v'.
Proof. by destruct k. Qed.

Lemma Rmax_absorb a b : Rmax (Rmax a b) b = Rmax a b.
Proof. unfold Rmax. rdec. Qed.

(** C6 (amended).  An immunity effect sets the timer of its kind to the
    maximum of the timer and the duration; a time freeze, as an effect or
    through [world.timeFreeze], sets the freeze timer to the maximum of the
    timer and the duration when the duration is not zero (a zero duration
    is replaced by the default 1).  Timers are never added up: applying
    the same immunity or freeze twice leaves what applying it once leaves,
    and an immunity, or a freeze of non-zero duration, that is not longer
    than the current timer changes nothing. *)
Theorem timers_max (cpos : vec) (st : Stats) (s : State) :
  (forall k d,
      imm_get (immunities (applyEffect cpos st s (immunity k d))) k
      = Rmax (imm_get (immunities s) k) d)
  /\ (forall d, d <> 0 ->
        freeze (applyEffect cpos st s (timeFreeze d)) = Rmax (freeze s) d
        /\ freeze (state_timeFreeze s d) = Rmax (freeze s) d)
  /\ (freeze (applyEffect cpos st s (timeFreeze 0)) = Rmax (freeze s) 1
      /\ freeze (state_timeFreeze s 0) = Rmax (freeze s) 1)
  /\ (forall k d,
        applyEffect cpos st (applyEffect cpos st s (immunity k d)) (immunity k d)
        = applyEffect cpos st s (immunity k d))
  /\ (forall d,
        applyEffect cpos st (applyEffect cpos st s (timeFreeze d)) (timeFreeze d)
        = applyEffect cpos st s (timeFreeze d)
        /\ state_timeFreeze (state_timeFreeze s d) d = state_timeFreeze s d)
  /\ (forall k d,
        d <= imm_get (immunities s) k ->
        applyEffect cpos st s (immunity k d) = s)
  /\ (forall d, d <> 0 -> d <= freeze s ->
        applyEffect cpos st s (timeFreeze d) = s /\ state_timeFreeze s d = s).
Proof.
  repeat split.
  - intros k d. simpl. by rewrite imm_get_set, !js_or_0_r.
  - simpl. by rewrite js_or_idem, js_or_nonzero.
  - simpl. by rewrite js_or_nonzero.
  - simpl. by rewrite js_or_idem, js_or_zero.
  - simpl. by rewrite js_or_zero.
  - intros k d. simpl. rewrite imm_get_set, imm_set_set, !js_or_0_r.
    by rewrite Rmax_absorb.
  - simpl. unfold state_timeFreeze. simpl. rewrite js_or_idem.
    by rewrite Rmax_absorb.
  - unfold state_timeFreeze. simpl. by rewrite Rmax_absorb.
  - intros k d Hd. simpl. rewrite !js_or_0_r. rewrite Rmax_left by done.
    rewrite imm_set_get. by apply set_immunities_id.
  - simpl. unfold state_timeFreeze. rewrite js_or_idem, js_or_nonzero by done.
    rewrite Rmax_left by done. by apply set_freeze_id.
  - unfold state_timeFreeze. rewrite !js_or_nonzero by done.
    rewrite Rmax_left by done. by apply set_freeze_id.
Qed.

Lemma timers_max_witness :
  freeze (applyEffect (mkvec 0 0) stats0 state_frozen_half (timeFreeze 2))
  = Rmax (freeze state_frozen_half) 2
  /\ applyEffect (mkvec 0 0) stats0 state_frozen_half (timeFreeze (1 / 4))
     = state_frozen_half.
Proof.
  destruct (timers_max (mkvec 0 0) stats0 state_frozen_half)
    as (_ & Hfreeze & _ & _ & _ & _ & Hshort).
  split.
  - apply (Hfreeze 2). lra.
  - apply (Hshort (1 / 4)); [lra | change (1 / 4 <= 1 / 2); lra].
Defined.

(** C6 as stated fails for a time freeze of duration [0]: [e.duration||1]
    turns it into a freeze of one second, so a timer at 0.5 becomes 1
    although the duration is shorter than the timer. *)
Lemma timers_max_counterexample :
  0 <= freeze state_frozen_half
  /\ freeze (applyEffect (mkvec 0 0) stats0 state_frozen_half (timeFreeze 0)) = 1
  /\ freeze (applyEffect (mkvec 0 0) stats0 state_frozen_half (timeFreeze 0))
     <> Rmax (freeze state_frozen_half) 0
  /\ freeze (state_timeFreeze state_frozen_half 0)
     <> Rmax (freeze state_frozen_half) 0.
Proof.
  assert (E : Rmax (1 / 2) 1 = 1) by (unfold Rmax; rdec).
  assert (E' : Rmax (1 / 2) 0 = 1 / 2) by (unfold Rmax; rdec).
  simpl. unfold state_timeFreeze. simpl. rewrite !js_or_zero, js_or_nonzero by lra.
  rewrite E, E'. repeat split; lra.
Qed.

(** ** Knockback (C8) *)

Lemma sign_pos a : 0 < a -> sign a = 1.
Proof. intros. unfold sign. rdec. Qed.

Lemma sign_neg a : a < 0 -> sign a = -1.
Proof. intros. unfold sign. rdec. Qed.

Lemma sign_0 : sign 0 = 0.
Proof. unfold sign. rdec. Qed.

(** C8 (amended).  A knockback effect of non-zero force adds [sign(target.x
    - caster.x) × force/2] to the target's x-velocity and [sign(target.y -
    caster.y) × force/2] to its y-velocity, on top of the velocity the
    target has, and changes nothing else; the direction is the sign on
    each axis, so a target placed diagonally receives the full [force/2]
    on both axes.  A force of zero is replaced by the default 80. *)
Theorem knockback_adds (cpos : vec) (st : Stats) (s : State) (force : R) :
  let s' := applyEffect cpos st s (knockback force) in
  let dx := sign (X (pos s) - X cpos) in
  let dy := sign (Y (pos s) - Y cpos) in
  s' = set_vel s (vel s')
  /\ (force <> 0 ->
      X (vel s') = X (vel s) + dx * (force / 2)
      /\ Y (vel s') = Y (vel s) + dy * (force / 2)
      /\ (X cpos < X (pos s) -> Y cpos < Y (pos s) ->
          vel s' = mkvec (X (vel s) + force / 2) (Y (vel s) + force / 2)))
  /\ (force = 0 ->
      X (vel s') = X (vel s) + dx * (80 / 2)
      /\ Y (vel s') = Y (vel s) + dy * (80 / 2)).
Proof.
  simpl. split; [done|]. split.
  - intros Hf. rewrite !js_or_nonzero by done.
    repeat split; try (unfold Rdiv; ring).
    intros Hx Hy. rewrite !sign_pos by lra. f_equal; lra.
  - intros ->. rewrite !js_or_zero. split; unfold Rdiv; ring.
Qed.

Lemma knockback_adds_witness :
  X (vel (applyEffect (mkvec 0 0) stats0 (state_at 10 (-5)) (knockback 100)))
  = X (vel (state_at 10 (-5))) + sign (X (pos (state_at 10 (-5))) - X (mkvec 0 0)) * (100 / 2).
Proof.
  apply (proj1 (proj2 (knockback_adds (mkvec 0 0) stats0 (state_at 10 (-5)) 100))).
  lra.
Defined.

(** C8 as stated fails for a knockback of force [0]: [e.force||80] makes
    it a knockback of force 80, which adds 40 on the axis instead of 0. *)
Lemma knockback_adds_counterexample :
  let s := state_at 10 0 in
  let s' := applyEffect (mkvec 0 0) stats0 s (knockback 0) in
  X (vel s') = 40
  /\ X (vel s') <> X (vel s) + sign (X (pos s) - X (mkvec 0 0)) * (0 / 2).
Proof.
  simpl. rewrite js_or_zero, sign_pos by lra. split; lra.
Qed.

(** ** Damage over time (C2) *)

Lemma dot_while_fuel n m d s :
  d_t d < INR n + 1 -> d_t d < INR m + 1 -> dot_while n d s = dot_while m d s.
Proof.
  revert m d s. induction n as [|n IH]; intros [|m] d s Hn Hm; simpl in *.
  - done.
  - destruct (Rle_dec 1 (d_t d)); [lra | done].
  - destruct (Rle_dec 1 (d_t d)); [lra | done].
  - destruct (Rle_dec 1 (d_t d)) as [Ht|Ht]; [|done].
    assert (H1 : d_t (dot_pulse d) < INR n + 1).
    { simpl. destruct n; simpl in *; lra. }
    assert (H2 : d_t (dot_pulse d) < INR m + 1).
    { simpl. destruct m; simpl in *; lra. }
    destruct (isImmune s (d_dtype d)); by rewrite (IH m _ _ H1 H2).
Qed.

Lemma up_fuel t : t < INR (Z.to_nat (up t)) + 1.
Proof.
  destruct (archimed t) as [Hup _].
  destruct (Z_lt_le_dec (up t) 0) as [Hneg|Hpos].
  - replace (Z.to_nat (up t)) with O by lia. apply IZR_lt in Hneg. simpl. lra.
  - rewrite INR_IZR_INZ, Z2Nat.id by done. lra.
Qed.

Lemma dot_loop_lt d s : d_t d < 1 -> dot_loop d s = (d, s, []).
Proof.
  intros Ht. unfold dot_loop.
  rewrite (dot_while_fuel _ O d s (up_fuel _)) by (simpl; lra). done.
Qed.

Lemma dot_loop_ge d s :
  1 <= d_t d ->
  dot_loop d s =
    if isImmune s (d_dtype d) then dot_loop (dot_pulse d) s
    else
      let '(d', s', l) := dot_loop (dot_pulse d) (set_hp s (hp s - d_dps d)) in
      (d', s', d_dps d :: l).
Proof.
  intros Ht. unfold dot_loop.
  pose proof (up_fuel (d_t d)) as Hf.
  pose proof (up_fuel (d_t (dot_pulse d))) as Hf'.
  destruct (Z.to_nat (up (d_t d))) as [|n] eqn:En; [simpl in Hf; lra|].
  simpl. destruct (Rle_dec 1 (d_t d)); [|lra].
  assert (H1 : d_t (dot_pulse d) < INR n + 1).
  { simpl. destruct n; simpl in *; lra. }
  destruct (isImmune s (d_dtype d)); by rewrite (dot_while_fuel n _ _ _ H1 Hf').
Qed.

Lemma dot_while_exit n : forall d s,
  d_t d < INR n + 1 -> d_t (dot_while n d s).1.1 < 1.
Proof.
  induction n as [|n IH]; intros d s Hf.
  - simpl in *. lra.
  - simpl. destruct (Rle_dec 1 (d_t d)) as [Ht|Ht]; [|simpl; lra].
    assert (H1 : d_t (dot_pulse d) < INR n + 1).
    { simpl. destruct n; simpl in *; lra. }
    destruct (isImmune s (d_dtype d)).
    + by apply IH.
    + specialize (IH (dot_pulse d) (set_hp s (hp s - d_dps d)) H1).
      by destruct (dot_while n (dot_pulse d) (set_hp s (hp s - d_dps d))) as [[? ?] ?].
Qed.

(** The [while] loop of a record ends: it leaves the accumulator below 1. *)
Lemma dot_loop_exit d s : d_t (dot_loop d s).1.1 < 1.
Proof. apply dot_while_exit, up_fuel. Qed.

Lemma decayTimer_nonpos dt v : v <= 0 -> decayTimer dt v = v.
Proof. intros. unfold decayTimer. destruct (Rlt_dec 0 v); [lra | done]. Qed.

(** Status decay never makes a fighter immune. *)
Lemma decay_keeps_not_immune s s' dt k :
  isImmune s k = false ->
  immunities s' = decayImmunities dt (immunities s) -> isImmune s' k = false.
Proof.
  intros Himm Hs'. destruct (decide (k = both)) as [->|Hk].
  - apply not_immune_both in Himm as [Hb Hpm]. apply not_immune_both.
    rewrite Hs'. simpl. rewrite (decayTimer_nonpos _ _ Hb). split; [done|].
    destruct Hpm as [Hp|Hm].
    + left. by rewrite decayTimer_nonpos.
    + right. by rewrite decayTimer_nonpos.
  - apply not_immune_single in Himm as [Hg Hb]; [|done].
    apply not_immune_single; [done|]. rewrite Hs'.
    destruct k; try done; simpl in *; by rewrite !decayTimer_nonpos.
Qed.

Section Decay.
Context {CB : Type}.
Implicit Types f : Fighter CB.

(** One status step of a fighter whose only record is live and whose
    accumulator is below 1, for a step of at most 1. *)
Lemma decay_single_step f d dt :
  dots (state f) = [d] -> 0 < d_duration d ->
  isImmune (state f) (d_dtype d) = false ->
  0 <= d_t d < 1 -> 0 < dt <= 1 ->
  exists f1 l,
    decayFighter_log dt f = (f1, l)
    /\ isImmune (state f1) (d_dtype d) = false
    /\ ((d_t d + dt < 1 /\ l = [] /\ hp (state f1) = hp (state f)
         /\ dots (state f1) = [mkDot (d_dps d) (d_duration d) (d_t d + dt) (d_dtype d)])
        \/ (1 <= d_t d + dt /\ l = [d_dps d]
            /\ hp (state f1) = hp (state f) - d_dps d
            /\ dots (state f1)
               = [mkDot (d_dps d) (d_duration d - 1) (d_t d + dt - 1) (d_dtype d)])).
Proof.
  intros Hd Hdur Himm Ht Hdt. unfold decayFighter_log. rewrite Hd. simpl.
  destruct (Rle_dec (d_duration d) 0); [lra|]. rewrite js_or_0_r.
  destruct (Rlt_dec (d_t d + dt) 1) as [Hlt|Hge].
  - rewrite dot_loop_lt by done. eexists _, _. split; [done|]. split.
    + by apply (decay_keeps_not_immune (state f) _ dt).
    + left. done.
  - rewrite dot_loop_ge by (simpl; lra). simpl. rewrite Himm.
    rewrite dot_loop_lt by (simpl; lra). eexists _, _. split; [done|]. split.
    + by apply (decay_keeps_not_immune (state f) _ dt).
    + right. repeat split; try done; lra.
Qed.

End Decay.

Lemma burning_not_immune : isImmune (state burning) magical = false.
Proof. simpl. reval; done. Qed.

(** ** The ability compiler (C7) *)

Lemma validate_all_invalid {CB} (l : list (AbilitySpec CB)) a m :
  a ∈ l -> Ability_make a = Throw m -> exists m', validate_all l = Throw m'.
Proof.
  intros Hin Hbad. induction l as [|b l IH]; [by apply elem_of_nil in Hin|].
  simpl. apply elem_of_cons in Hin as [<-|Hin].
  - rewrite Hbad. by eexists.
  - destruct (Ability_make b); [by apply IH | by eexists].
Qed.

Lemma validate_all_ok {CB} (l : list (AbilitySpec CB)) :
  validate_all l = Ok () ->
  exists bs, make_all l = Ok bs /\ length bs = length l
             /\ Forall2 (fun a b => Ability_make a = Ok b) l bs.
Proof.
  induction l as [|a l IH]; simpl; intros H.
  - exists []. by repeat split.
  - destruct (Ability_make a) as [b|] eqn:Ea; [|done].
    destruct (IH H) as (bs & -> & Hlen & Hall).
    exists (b :: bs). repeat split; [simpl; by rewrite Hlen | by constructor].
Qed.

Lemma Ability_make_valid {CB} (spec : AbilitySpec CB) a :
  Ability_make spec = Ok a -> 0 < cooldown a /\ 0 <= range a.
Proof.
  unfold Ability_make. destruct (parse_type _); [|done].
  destruct (default _ (s_cooldown spec)) as [c| | |]; try done.
  destruct (Rle_dec c 0); [done|].
  destruct (default _ (s_range spec)) as [r| | |]; try done.
  destruct (Rlt_dec r 0); [done|]. intros [= <-]. simpl. lra.
Qed.

(** C7.  When the compilation of the abilities fails, structurally (the
    text does not compile) or behaviourally (the call throws, the value
    returned is not an array, or some ability of the array fails the
    validation of [Ability.make]), [compileAbilities] returns no list and
    the click handler keeps the list loaded before; a batch with one
    invalid ability among valid ones is rejected as a whole. *)
Theorem compile_failure_keeps_previous {CB} (run : ScriptRun CB)
    (compiled : list (Ability CB)) :
  compile_fails run ->
  (compileAbilities run).1 = None /\ validateClick run compiled = compiled.
Proof.
  intros Hfail.
  assert (Hnone : (compileAbilities run).1 = None).
  { destruct Hfail as [m|m| |l a m Hin Hbad]; try done.
    simpl. by destruct (validate_all_invalid l a m Hin Hbad) as [m' ->]. }
  split; [done|]. unfold validateClick. by rewrite Hnone.
Qed.

Lemma spec_slash_ok : Ability_make spec_slash = Ok slash.
Proof.
  unfold Ability_make. simpl. destruct (Rle_dec (12 / 10) 0); [lra|].
  destruct (Rlt_dec 20 0); [lra|]. done.
Qed.

Lemma spec_bad_throws : Ability_make spec_bad = Throw "cooldown must be > 0".
Proof. unfold Ability_make. simpl. destruct (Rle_dec (-1) 0); [done|lra]. Qed.

Lemma compile_failure_keeps_previous_witness :
  (compileAbilities (returns_array [spec_slash; spec_bad; spec_slash])).1 = None
  /\ validateClick (returns_array [spec_slash; spec_bad; spec_slash]) [slash] = [slash].
Proof.
  apply (compile_failure_keeps_previous
           (returns_array [spec_slash; spec_bad; spec_slash]) [slash]).
  apply (fails_invalid _ spec_bad "cooldown must be > 0").
  - apply list_elem_of_further, list_elem_of_here.
  - apply spec_bad_throws.
Defined.

Lemma validate_all_throw {CB} (l : list (AbilitySpec CB)) m :
  validate_all l = Throw m -> exists a, a ∈ l /\ Ability_make a = Throw m.
Proof.
  induction l as [|a l IH]; simpl; [done|].
  destruct (Ability_make a) as [b|m'] eqn:Ea.
  - intros H. destruct (IH H) as (a' & Hin & Hbad).
    exists a'. split; [by apply list_elem_of_further | done].
  - intros [= ->]. exists a. split; [apply list_elem_of_here | done].
Qed.

(** The converse: a compilation that returns no list has failed in one of
    the listed ways; one that succeeds returns the whole batch, each
    ability as [Ability.make] builds it. *)
Lemma compile_none_fails {CB} (run : ScriptRun CB) :
  (compileAbilities run).1 = None -> compile_fails run.
Proof.
  destruct run as [m|m| |l]; try (intros _; constructor).
  simpl. destruct (validate_all l) as [[]|m] eqn:Ev.
  - by destruct (validate_all_ok l Ev) as (bs & -> & _).
  - intros _. destruct (validate_all_throw l m Ev) as (a & Hin & Hbad).
    by apply (fails_invalid l a m).
Qed.

Lemma compile_some_whole {CB} (run : ScriptRun CB) bs :
  (compileAbilities run).1 = Some bs ->
  exists l, run = returns_array l
            /\ Forall2 (fun a b => Ability_make a = Ok b) l bs.
Proof.
  destruct run as [m|m| |l]; try done.
  simpl. destruct (validate_all l) as [[]|m] eqn:Ev; [|done].
  destruct (validate_all_ok l Ev) as (bs' & -> & _ & Hall).
  intros [= <-]. by exists l.
Qed.

(** ** Velocity decay (C9) *)

Lemma decay_factor_pos dt : 0 < Rpower (2 / 10) dt.
Proof. unfold Rpower. apply exp_pos. Qed.

Lemma decay_factor_lt_1 dt : 0 < dt -> Rpower (2 / 10) dt < 1.
Proof.
  intros Hdt. unfold Rpower. rewrite <- exp_0. apply exp_increasing.
  assert (Hln : ln (2 / 10) < 0).
  { rewrite <- ln_1. apply ln_increasing; lra. }
  nra.
Qed.

Lemma decay_factor_plus a b :
  Rpower (2 / 10) a * Rpower (2 / 10) b = Rpower (2 / 10) (a + b).
Proof. by rewrite Rpower_plus. Qed.

Lemma decay_factor_0 : Rpower (2 / 10) 0 = 1.
Proof. apply Rpower_O. lra. Qed.

Lemma friction_friction a b v : friction b (friction a v) = friction (a + b) v.
Proof.
  unfold friction. simpl. rewrite !Rmult_assoc, !decay_factor_plus. done.
Qed.

Lemma friction_0 v : friction 0 v = v.
Proof.
  unfold friction. rewrite decay_factor_0, !Rmult_1_r. by destruct v.
Qed.

Lemma hypot_scale a b c : 0 <= c -> hypot (a * c) (b * c) = hypot a b * c.
Proof.
  intros Hc. unfold hypot.
  replace (a * c * (a * c) + b * c * (b * c)) with ((a * a + b * b) * (c * c)) by ring.
  rewrite sqrt_mult by nra. by rewrite sqrt_square.
Qed.

Lemma hypot_pos a b : a <> 0 \/ b <> 0 -> 0 < hypot a b.
Proof. intros H. unfold hypot. apply sqrt_lt_R0. destruct H; nra. Qed.

Lemma magnitude_friction dt v :
  magnitude (friction dt v) = magnitude v * Rpower (2 / 10) dt.
Proof.
  unfold magnitude, friction. simpl. apply hypot_scale.
  left. apply decay_factor_pos.
Qed.


(** ** Projectiles (C10, C4) *)

Lemma vec_eta v : mkvec (X v) (Y v) = v.
Proof. by destruct v. Qed.

Section Projectiles.
Context {CB : Type} `{Script CB}.
Implicit Types (w : World CB) (q : Projectile CB).

Lemma collide_miss pi c cb n : forall i w,
  clear_of w c -> collide pi c cb n i w = (w, []).
Proof.
  induction n as [|n IH]; intros i w Hclear; simpl; [done|].
  unfold collide1. destruct (fighters w !! i) as [f|] eqn:Ef.
  - destruct (Rlt_dec _ _) as [Hhit|_]; [by destruct (Hclear i f Ef)|].
    by rewrite IH.
  - by rewrite IH.
Qed.



End Projectiles.

(** Decides the collision tests of a goal about concrete positions. *)
Ltac hit_dec :=
  match goal with
  | |- context [Rlt_dec (dist ?a ?b) hit_radius] =>
      let Hh := fresh "Hh" in
      destruct (Rlt_dec (dist a b) hit_radius) as [Hh|Hh];
      [ try (exfalso; apply hypot_lt in Hh;
             [simpl in Hh; lra | unfold hit_radius; lra])
      | try (exfalso; apply Hh; apply hypot_lt; unfold hit_radius; simpl; lra) ]
  end.

(** C4, at the failing input: a projectile that comes within the hit
    radius of both fighters invokes its [onHit] on the first and then on
    the second fighter in one pass, although the first hit has marked it
    dead; both fighters lose hp, and the projectile is removed at the end
    of the pass. *)
Theorem projectile_hits_both :
  (stepProjectile frame 0 crowded).2 = [0%nat; 1%nat]
  /\ exists w',
       projectilePhase 1 frame crowded = Some (w', [(0, 0); (0, 1)]%nat)
       /\ projectiles w' = []
       /\ Forall (fun f => hp (state f) = 100 - 12 * (100 / (100 + 20))) (fighters w').
Proof.
  assert (Hstep : exists w1,
    stepProjectile frame 0 crowded = (w1, [0%nat; 1%nat])
    /\ Forall (fun p => alive p = false) (projectiles w1)
    /\ length (projectiles w1) = 1%nat
    /\ Forall (fun f => hp (state f) = 100 - 12 * (100 / (100 + 20))) (fighters w1)).
  { unfold stepProjectile, frame. simpl.
    destruct (Rle_dec (2 - 33 / 1000) 0); [lra|]. simpl.
    unfold collide1. simpl. hit_dec. simpl.
    unfold applyEffects. simpl. hit_dec. reval. simpl.
    eexists. split; [done|]. simpl. split; [by repeat constructor|].
    split; [done|]. by repeat constructor. }
  destruct Hstep as (w1 & Hstep & Hdead & Hlen & Hhp).
  split; [by rewrite Hstep|].
  unfold projectilePhase. simpl. rewrite Hstep.
  destruct (decide (1 < length (projectiles w1))%nat); [lia|].
  eexists. split; [done|]. simpl. split; [|done].
  destruct (projectiles w1) as [|q [|? ?]]; try done.
  apply Forall_cons in Hdead as [Hq _]. simpl.
  rewrite filter_cons, decide_False by (rewrite Hq; done). done.
Qed.

(** ** The cast (C3) *)

Lemma onCooldown_false m n : onCooldown m n = false <-> cdTimer m n <= 0.
Proof.
  unfold onCooldown, cdTimer. destruct (m !! n); simpl.
  - apply Rltb_false.
  - split; [lra | done].
Qed.

Lemma inRange_true {CB} d (a : Ability CB) : inRange d a = true <-> d <= Rmax 20 (range a).
Proof. unfold inRange. rewrite js_or_0_r. apply Rleb_true. Qed.

Lemma selectCast_eligible {CB} m d (a : Ability CB) :
  onCooldown m (name a) = false /\ inRange d a = true <-> eligible m d a.
Proof. unfold eligible. by rewrite onCooldown_false, inRange_true. Qed.

Lemma selectCast_some {CB} m d (abs : list (Ability CB)) a :
  selectCast m d abs = Some a ->
  exists pre post, abs = pre ++ a :: post
                   /\ Forall (fun b => ~ eligible m d b) pre /\ eligible m d a.
Proof.
  induction abs as [|b abs IH]; simpl; [done|].
  destruct (onCooldown m (name b)) eqn:Ecd.
  - intros Hsel. destruct (IH Hsel) as (pre & post & -> & Hpre & Ha).
    exists (b :: pre), post. split; [done|]. split; [|done].
    constructor; [|done]. intros Hb. apply selectCast_eligible in Hb as [Hb _].
    congruence.
  - destruct (inRange d b) eqn:Erg.
    + intros [= ->]. exists [], abs. split; [done|]. split; [done|].
      by apply selectCast_eligible.
    + intros Hsel. destruct (IH Hsel) as (pre & post & -> & Hpre & Ha).
      exists (b :: pre), post. split; [done|]. split; [|done].
      constructor; [|done]. intros Hb. apply selectCast_eligible in Hb as [_ Hb].
      congruence.
Qed.

Lemma selectCast_none {CB} m d (abs : list (Ability CB)) :
  selectCast m d abs = None -> Forall (fun b => ~ eligible m d b) abs.
Proof.
  induction abs as [|b abs IH]; simpl; [done|].
  destruct (onCooldown m (name b)) eqn:Ecd.
  - intros Hsel. constructor; [|by apply IH].
    intros Hb. apply selectCast_eligible in Hb as [Hb _]. congruence.
  - destruct (inRange d b) eqn:Erg; [done|].
    intros Hsel. constructor; [|by apply IH].
    intros Hb. apply selectCast_eligible in Hb as [_ Hb]. congruence.
Qed.

Lemma castCooldown_fast {CB} st (a : Ability CB) :
  cooldown a <> 0 -> 1 / 10 <= attackSpeed st ->
  castCooldown st a = spec_castCooldown st a.
Proof.
  intros Hc Hs. unfold castCooldown, spec_castCooldown.
  by rewrite js_or_nonzero, (Rmax_right _ (attackSpeed st)).
Qed.

Section Cast.
Context {CB : Type} `{Script CB}.

(** C3 (amended).  In the cast part of its turn a fighter scans its
    abilities in the declared order and casts the first one whose
    cooldown timer is at most 0 and for which the distance is at most
    [max(20, range)]: the timer of that ability is set to [max(0.1,
    baseCooldown / max(0.1, attackSpeed))], which is [max(0.1,
    baseCooldown / attackSpeed)] for an attack speed of at least 0.1,
    its [onCast] is invoked, and the scan stops; when no ability
    qualifies nothing is cast.  The distance is the one measured at the
    start of the fighter's turn, and a frozen fighter casts nothing.  A
    fighter thus casts at most one ability in a tick. *)
Theorem cast_first_eligible (d : R) (me op : nat) (w : World CB) (f : Fighter CB) :
  fighters w !! me = Some f ->
  Forall (fun a => 0 < cooldown a) (abilities f) ->
  let m := cd (state f) in
  ((exists pre a post,
      abilities f = pre ++ a :: post
      /\ Forall (fun b => ~ eligible m d b) pre
      /\ eligible m d a
      /\ castCooldown (stats f) a
         = Rmax (1 / 10) (cooldown a / Rmax (1 / 10) (attackSpeed (stats f)))
      /\ (1 / 10 <= attackSpeed (stats f) ->
          castCooldown (stats f) a = spec_castCooldown (stats f) a)
      /\ castStep d me op w
         = (invokeOnCast a me op
              (set_fighters w
                 (<[me := with_state f
                      (set_cd (state f) (<[name a := castCooldown (stats f) a]> m))]>
                    (fighters w))),
            [name a]))
   \/ (Forall (fun b => ~ eligible m d b) (abilities f)
       /\ castStep d me op w = (w, [])))
  /\ (length (castStep d me op w).2 <= 1)%nat
  /\ (forall dt o, fighters w !! op = Some o ->
        let s' := moveStep dt (bounds w) (stats f) (maxRange (abilities f))
                    (pos (state o)) (state f) in
        (0 < freeze (state f) -> (aiTurn dt me op w).2 = [])
        /\ (freeze (state f) <= 0 ->
            cd s' = cd (state f)
            /\ aiTurn dt me op w
               = castStep (dist (pos (state f)) (pos (state o))) me op
                   (set_fighters w (<[me := with_state f s']> (fighters w)))))
  /\ (forall dt, (length (aiTurn dt me op w).2 <= 1)%nat)
  /\ (forall dt, (length (aiPhase dt w).2.1 <= 1)%nat
                 /\ (length (aiPhase dt w).2.2 <= 1)%nat).
Proof.
  intros Hme Hvalid m.
  assert (Hcast : forall d' i j w', (length (castStep d' i j w').2 <= 1)%nat).
  { intros d' i j w'. unfold castStep. destruct (fighters w' !! i) as [g|]; [|simpl; lia].
    destruct (selectCast _ _ _); simpl; lia. }
  assert (Hturn : forall dt i j w', (length (aiTurn dt i j w').2 <= 1)%nat).
  { intros dt i j w'. unfold aiTurn.
    destruct (fighters w' !! i) as [g|]; [|simpl; lia].
    destruct (fighters w' !! j) as [o|]; [|simpl; lia].
    destruct (Rlt_dec _ _); [simpl; lia | apply Hcast]. }
  split; [|split; [apply Hcast | split; [|split; [intros dt; apply Hturn|]]]].
  - unfold castStep. rewrite Hme. fold m.
    destruct (selectCast m d (abilities f)) as [a|] eqn:Esel.
    + left. destruct (selectCast_some _ _ _ _ Esel) as (pre & post & Hab & Hpre & Ha).
      exists pre, a, post.
      split; [done|]. split; [done|]. split; [done|]. split; [|split; [|done]].
      * unfold castCooldown. rewrite js_or_nonzero; [done|].
        rewrite Hab in Hvalid. apply Forall_app in Hvalid as [_ Hv].
        apply Forall_cons in Hv as [Hv _]. lra.
      * intros Hs. apply castCooldown_fast; [|done].
        rewrite Hab in Hvalid. apply Forall_app in Hvalid as [_ Hv].
        apply Forall_cons in Hv as [Hv _]. lra.
    + right. split; [by apply selectCast_none | done].
  - intros dt o Hop s'. unfold aiTurn. rewrite Hme, Hop.
    destruct (Rlt_dec 0 (freeze (state f))); (split; [|split]); try done; lra.
  - intros dt. unfold aiPhase. destruct (fighters w) as [|a [|b l]]; try (simpl; lia).
    pose proof (Hturn dt 0%nat 1%nat w) as H0.
    destruct (aiTurn dt 0 1 w) as [w1 c0].
    pose proof (Hturn dt 1%nat 0%nat w1) as H1.
    destruct (aiTurn dt 1 0 w1) as [w2 c1]. done.
Qed.
End Cast.

(** C3 as stated fails for an attack speed below 0.1: the divisor is
    [max(0.1, attackSpeed)], so a base cooldown of 2 at attack speed 0.05
    gives a timer of 20 and not of 40. *)
Lemma cast_first_eligible_counterexample :
  castCooldown stats_slow jab = 20
  /\ spec_castCooldown stats_slow jab = 40
  /\ castCooldown stats_slow jab <> spec_castCooldown stats_slow jab.
Proof.
  assert (E20 : castCooldown stats_slow jab = 20).
  { unfold castCooldown. simpl. rewrite js_or_nonzero by lra.
    rewrite (Rmax_left (1 / 10) (1 / 20)) by lra.
    replace (2 / (1 / 10)) with 20 by field. apply Rmax_right. lra. }
  assert (E40 : spec_castCooldown stats_slow jab = 40).
  { unfold spec_castCooldown. simpl.
    replace (2 / (1 / 20)) with 40 by field. apply Rmax_right. lra. }
  rewrite E20, E40. repeat split; lra.
Qed.

(** ** The hp floor (C5) *)

Lemma mitigated_nonneg st a k :
  nonneg_resistances st -> 0 <= a -> 0 <= mitigated st a k.
Proof.
  intros Hres Ha. rewrite mitigated_spec by done. destruct Hres as [Hp Hm].
  pose proof (curve_pos _ Hp). pose proof (curve_pos _ Hm).
  unfold spec_mitigated. rewrite !curve_assoc. destruct k; nra.
Qed.

Lemma applyEffect_hp_le cpos st s e :
  nonneg_resistances st -> nonneg_effect e -> hp (applyEffect cpos st s e) <= hp s.
Proof.
  intros Hres He. destruct e as [a k|dps du k|k du|du|fo]; simpl.
  - destruct (isImmune s k); simpl; [lra|].
    pose proof (mitigated_nonneg st a k Hres He). lra.
  - destruct (isImmune s k); simpl; lra.
  - lra.
  - lra.
  - lra.
Qed.

Lemma applyEffects_state_hp_le effs cpos st : forall s,
  nonneg_resistances st -> Forall nonneg_effect effs ->
  hp (applyEffects_state effs cpos st s) <= hp s.
Proof.
  unfold applyEffects_state. induction effs as [|e effs IH]; intros s Hres Heffs; simpl.
  - lra.
  - apply Forall_cons in Heffs as [He Heffs].
    pose proof (applyEffect_hp_le cpos st s e Hres He).
    pose proof (IH (applyEffect cpos st s e) Hres Heffs). lra.
Qed.

Lemma dot_while_hp_le n : forall d s,
  0 <= d_dps d -> hp (dot_while n d s).1.2 <= hp s.
Proof.
  induction n as [|n IH]; intros d s Hd; simpl; [lra|].
  destruct (Rle_dec 1 (d_t d)); [|simpl; lra].
  destruct (isImmune s (d_dtype d)).
  - by apply IH.
  - specialize (IH (dot_pulse d) (set_hp s (hp s - d_dps d)) Hd).
    destruct (dot_while n _ _) as [[? ?] ?]. simpl in *. lra.
Qed.

Lemma decayDots_hp_le dt ds : forall s,
  Forall (fun d => 0 <= d_dps d) ds -> hp (decayDots dt ds s).1.2 <= hp s.
Proof.
  induction ds as [|d ds IH]; intros s Hds; simpl; [lra|].
  apply Forall_cons in Hds as [Hd Hds]. specialize (IH s Hds).
  destruct (decayDots dt ds s) as [[rest' s1] l1]. simpl in IH.
  destruct (Rle_dec (d_duration d) 0); [done|].
  pose proof (dot_while_hp_le
    (Z.to_nat (up (js_or (d_t d) 0 + dt)))
    (mkDot (d_dps d) (d_duration d) (js_or (d_t d) 0 + dt) (d_dtype d)) s1 Hd) as Hw.
  unfold dot_loop. simpl. destruct (dot_while _ _ _) as [[? ?] ?]. simpl in *. lra.
Qed.

Section Floor.
Context {CB : Type} `{Script CB}.
Implicit Types (w : World CB) (f : Fighter CB).

Lemma hp_le_refl f : hp_le f f.
Proof. unfold hp_le. repeat split; lra. Qed.

Lemma hp_le_trans f g h : hp_le f g -> hp_le g h -> hp_le f h.
Proof.
  intros (S1 & A1 & H1) (S2 & A2 & H2). unfold hp_le.
  rewrite S2, S1, A2, A1. repeat split; lra.
Qed.

Lemma hp_le_all_refl (l : list (Fighter CB)) : Forall2 hp_le l l.
Proof. apply Forall_Forall2_diag, Forall_forall. intros. apply hp_le_refl. Qed.

Lemma hp_le_all_trans (l k m : list (Fighter CB)) :
  Forall2 hp_le l k -> Forall2 hp_le k m -> Forall2 hp_le l m.
Proof. apply Forall2_trans. intros x y z. apply hp_le_trans. Qed.

Lemma hp_le_insert (l : list (Fighter CB)) i f f' :
  l !! i = Some f -> hp_le f f' -> Forall2 hp_le l (<[i := f']> l).
Proof.
  intros Hi Hle. rewrite <- (list_insert_id l i f Hi) at 1.
  apply Forall2_insert; [apply hp_le_all_refl | done].
Qed.

Lemma hp_le_with_state f s :
  hp s <= hp (state f) -> hp_le f (with_state f s).
Proof. intros. unfold hp_le. simpl. done. Qed.

Lemma sound_hp_le f f' : hp_le f f' -> sound_fighter f -> sound_fighter f'.
Proof. intros (S1 & A1 & _). unfold sound_fighter. by rewrite S1, A1. Qed.

Lemma sound_all_hp_le (l k : list (Fighter CB)) :
  Forall2 hp_le l k -> Forall sound_fighter l -> Forall sound_fighter k.
Proof.
  induction 1 as [|f f' l k Hf _ IH]; [done|]. intros Hs.
  apply Forall_cons in Hs as [Hsf Hs]. constructor; [by eapply sound_hp_le | by apply IH].
Qed.

Lemma applyEffects_hp_le effs c t w :
  Forall sound_fighter (fighters w) -> Forall nonneg_effect effs ->
  Forall2 hp_le (fighters w) (fighters (applyEffects effs c t w)).
Proof.
  intros Hs Heffs. unfold applyEffects.
  destruct (fighters w !! c) as [fc|]; [|apply hp_le_all_refl].
  destruct (fighters w !! t) as [ft|] eqn:Et; [|apply hp_le_all_refl].
  simpl. apply (hp_le_insert _ _ ft); [done|]. apply hp_le_with_state.
  apply applyEffects_state_hp_le; [|done].
  by destruct (Forall_lookup_1 _ _ _ _ Hs Et).
Qed.

Lemma decayFighter_hp_le dt f : dots_nonneg f -> hp_le f (decayFighter dt f).
Proof.
  intros Hd. unfold decayFighter, decayFighter_log.
  pose proof (decayDots_hp_le dt (dots (state f)) (state f) Hd) as Hle.
  destruct (decayDots dt (dots (state f)) (state f)) as [[ds s1] l].
  by apply hp_le_with_state.
Qed.

Lemma decayPhase_hp_le dt w :
  Forall dots_nonneg (fighters w) ->
  Forall2 hp_le (fighters w) (fighters (decayPhase dt w)).
Proof.
  intros Hd. simpl. apply Forall2_fmap_r, Forall_Forall2_diag.
  eapply Forall_impl; [exact Hd|]. intros f Hf. by apply decayFighter_hp_le.
Qed.

Lemma kill_fighters pi w : fighters (kill pi w) = fighters w.
Proof. unfold kill. by destruct (projectiles w !! pi). Qed.

Lemma kill_length pi w : length (projectiles (kill pi w)) = length (projectiles w).
Proof.
  unfold kill. destruct (projectiles w !! pi); [|done]. simpl.
  by rewrite length_insert.
Qed.

Lemma casts_ok_all_hp_le (ok : CB -> Prop) (l k : list (Fighter CB)) :
  Forall2 hp_le l k -> Forall (casts_ok ok) l -> Forall (casts_ok ok) k.
Proof.
  induction 1 as [|f f' l k Hf _ IH]; [done|]. intros Hs.
  apply Forall_cons in Hs as [Hsf Hs]. constructor; [|by apply IH].
  destruct Hf as (_ & A1 & _). unfold casts_ok in *. by rewrite A1.
Qed.

Section NeverRaise.
Variable ok : CB -> Prop.
Hypothesis Hraise : never_raise CB ok.

Lemma hits_ok_insert w pi p q :
  hits_ok ok w -> projectiles w !! pi = Some p -> onHit q = onHit p ->
  hits_ok ok (set_projectiles w (<[pi := q]> (projectiles w))).
Proof.
  unfold hits_ok. simpl. intros Hall Hp Eq. apply Forall_insert; [done|].
  rewrite Eq. by apply (Forall_lookup_1 _ _ _ _ Hall Hp).
Qed.

Lemma kill_hits_ok pi w : hits_ok ok w -> hits_ok ok (kill pi w).
Proof.
  intros Hall. unfold kill. destruct (projectiles w !! pi) as [p|] eqn:Ep; [|done].
  by apply (hits_ok_insert w pi p).
Qed.

Lemma cleanup_hits_ok w : hits_ok ok w -> hits_ok ok (cleanup w).
Proof.
  unfold hits_ok, cleanup. simpl. rewrite !Forall_forall.
  intros Hall p Hp. apply list_elem_of_filter in Hp as [_ Hp]. by apply Hall.
Qed.

Lemma collide_hp_le pi c cb n : forall i w,
  Forall sound_fighter (fighters w) -> hits_ok ok w ->
  (forall k, cb = Some k -> ok k) ->
  Forall2 hp_le (fighters w) (fighters (collide pi c cb n i w).1)
  /\ hits_ok ok (collide pi c cb n i w).1.
Proof.
  induction n as [|n IH]; intros i w Hs Hh Hcb; simpl;
    [split; [apply hp_le_all_refl | done]|].
  assert (H1 : Forall2 hp_le (fighters w) (fighters (collide1 pi c cb i w).1)
               /\ hits_ok ok (collide1 pi c cb i w).1).
  { unfold collide1. destruct (fighters w !! i); [|split; [apply hp_le_all_refl | done]].
    destruct (Rlt_dec _ _); [|split; [apply hp_le_all_refl | done]]. simpl.
    destruct cb as [k|].
    - rewrite <- (kill_fighters pi w) at 1.
      apply Hraise; [by apply Hcb | by rewrite kill_fighters | by apply kill_hits_ok].
    - rewrite kill_fighters. split; [apply hp_le_all_refl | by apply kill_hits_ok]. }
  destruct (collide1 pi c cb i w) as [w1 h]. destruct H1 as [H1 H1'].
  destruct (IH (S i) w1 (sound_all_hp_le _ _ H1 Hs) H1' Hcb) as [H2 H2'].
  destruct (collide pi c cb n (S i) w1) as [w2 hs]. simpl in *.
  split; [by eapply hp_le_all_trans | done].
Qed.

Lemma stepProjectile_hp_le dt pi w :
  Forall sound_fighter (fighters w) -> hits_ok ok w ->
  Forall2 hp_le (fighters w) (fighters (stepProjectile dt pi w).1)
  /\ hits_ok ok (stepProjectile dt pi w).1.
Proof.
  intros Hs Hh. unfold stepProjectile.
  destruct (projectiles w !! pi) as [p|] eqn:Ep; [|split; [apply hp_le_all_refl | done]].
  destruct (negb (alive p)); [split; [apply hp_le_all_refl | done]|].
  destruct (Rle_dec _ _).
  - split; [apply hp_le_all_refl | by apply (hits_ok_insert w pi p)].
  - apply (collide_hp_le _ _ _ _ _ (set_projectiles w _)).
    + done.
    + by apply (hits_ok_insert w pi p).
    + simpl. intros k Ek. by apply (Forall_lookup_1 _ _ _ _ Hh Ep).
Qed.

Lemma projLoop_hp_le dt fuel : forall pi w r,
  Forall sound_fighter (fighters w) -> hits_ok ok w ->
  projLoop fuel dt pi w = Some r ->
  Forall2 hp_le (fighters w) (fighters r.1) /\ hits_ok ok r.1.
Proof.
  induction fuel as [|fuel IH]; intros pi w r Hs Hh; simpl.
  - destruct (decide _); [done|]. intros [= <-]. split; [apply hp_le_all_refl | done].
  - destruct (decide _); [|intros [= <-]; split; [apply hp_le_all_refl | done]].
    destruct (stepProjectile_hp_le dt pi w Hs Hh) as [H1 H1'].
    destruct (stepProjectile dt pi w) as [w1 hs].
    destruct (projLoop fuel dt (S pi) w1) as [[w2 lg]|] eqn:El; [|done].
    intros [= <-]. simpl in *.
    destruct (IH _ _ _ (sound_all_hp_le _ _ H1 Hs) H1' El) as [H2 H2'].
    split; [by eapply hp_le_all_trans | done].
Qed.

Lemma invokeOnCast_hp_le (a : Ability CB) me op w f :
  Forall sound_fighter (fighters w) -> hits_ok ok w ->
  fighters w !! me = Some f -> a ∈ abilities f -> casts_ok ok f ->
  Forall2 hp_le (fighters w) (fighters (invokeOnCast a me op w))
  /\ hits_ok ok (invokeOnCast a me op w).
Proof.
  intros Hs Hh Hme Ha Hc. unfold invokeOnCast. destruct (onCast a) as [c|] eqn:Eo.
  - apply Hraise; [|done|done].
    unfold casts_ok in Hc. rewrite Forall_forall in Hc. by apply (Hc a).
  - split.
    + apply applyEffects_hp_le; [done|].
      destruct (Forall_lookup_1 _ _ _ _ Hs Hme) as [_ Hab].
      rewrite Forall_forall in Hab. by apply Hab.
    + unfold applyEffects. destruct (fighters w !! me); [|done].
      by destruct (fighters w !! op).
Qed.

Lemma selectCast_elem m d (abs : list (Ability CB)) a :
  selectCast m d abs = Some a -> a ∈ abs.
Proof.
  intros Hsel. destruct (selectCast_some _ _ _ _ Hsel) as (pre & post & -> & _).
  apply elem_of_app. right. apply list_elem_of_here.
Qed.

Lemma castStep_hp_le d me op w :
  Forall sound_fighter (fighters w) -> hits_ok ok w ->
  Forall (casts_ok ok) (fighters w) ->
  Forall2 hp_le (fighters w) (fighters (castStep d me op w).1)
  /\ hits_ok ok (castStep d me op w).1.
Proof.
  intros Hs Hh Hc. unfold castStep.
  destruct (fighters w !! me) as [f|] eqn:Ef; [|split; [apply hp_le_all_refl | done]].
  destruct (selectCast _ _ _) as [a|] eqn:Esel; [|split; [apply hp_le_all_refl | done]].
  simpl. set (f' := with_state f _).
  assert (H1 : Forall2 hp_le (fighters w) (<[me := f']> (fighters w))).
  { apply (hp_le_insert _ _ f); [done|]. apply hp_le_with_state. simpl. lra. }
  destruct (invokeOnCast_hp_le a me op (set_fighters w (<[me := f']> (fighters w))) f')
    as [H2 H2'].
  - simpl. by apply (sound_all_hp_le (fighters w)).
  - done.
  - simpl. apply list_lookup_insert_eq. by eapply lookup_lt_Some.
  - simpl. by eapply selectCast_elem.
  - apply (Forall_lookup_1 _ _ _ _ Hc Ef).
  - split; [by eapply hp_le_all_trans | done].
Qed.

Lemma aiTurn_hp_le dt me op w :
  Forall sound_fighter (fighters w) -> hits_ok ok w ->
  Forall (casts_ok ok) (fighters w) ->
  Forall2 hp_le (fighters w) (fighters (aiTurn dt me op w).1)
  /\ hits_ok ok (aiTurn dt me op w).1.
Proof.
  intros Hs Hh Hc. unfold aiTurn.
  destruct (fighters w !! me) as [f|] eqn:Ef; [|split; [apply hp_le_all_refl | done]].
  destruct (fighters w !! op) as [o|] eqn:Eo; [|split; [apply hp_le_all_refl | done]].
  destruct (Rlt_dec _ _).
  - simpl. split; [|done].
    apply (hp_le_insert _ _ f); [done|]. apply hp_le_with_state. simpl. lra.
  - set (f' := with_state f _).
    assert (H1 : Forall2 hp_le (fighters w) (<[me := f']> (fighters w))).
    { apply (hp_le_insert _ _ f); [done|]. apply hp_le_with_state. simpl. lra. }
    destruct (castStep_hp_le (dist (pos (state f)) (pos (state o))) me op
                (set_fighters w (<[me := f']> (fighters w)))) as [H2 H2'].
    + simpl. by apply (sound_all_hp_le (fighters w)).
    + done.
    + simpl. by apply (casts_ok_all_hp_le ok (fighters w)).
    + split; [by eapply hp_le_all_trans | done].
Qed.

Lemma aiPhase_hp_le dt w :
  Forall sound_fighter (fighters w) -> hits_ok ok w ->
  Forall (casts_ok ok) (fighters w) ->
  Forall2 hp_le (fighters w) (fighters (aiPhase dt w).1).
Proof.
  intros Hs Hh Hc. unfold aiPhase.
  destruct (aiTurn_hp_le dt 0 1 w Hs Hh Hc) as [H0 H0'].
  destruct (aiTurn dt 0 1 w) as [w1 c0]. simpl in H0, H0'.
  destruct (aiTurn_hp_le dt 1 0 w1 (sound_all_hp_le _ _ H0 Hs) H0'
              (casts_ok_all_hp_le ok _ _ H0 Hc)) as [H1 _].
  destruct (aiTurn dt 1 0 w1) as [w2 c1]. simpl in H1.
  destruct (fighters w) as [|a [|b l]] eqn:Ew; simpl;
    try (rewrite Ew; apply hp_le_all_refl).
  by eapply hp_le_all_trans.
Qed.
End NeverRaise.
End Floor.

(** More fuel does not change the result of a projectile loop that has
    ended. *)
Lemma projLoop_fuel {CB} `{Script CB} dt fuel : forall pi (w : World CB) r,
  projLoop fuel dt pi w = Some r -> projLoop (S fuel) dt pi w = Some r.
Proof.
  induction fuel as [|fuel IH]; intros pi w r.
  - simpl. by destruct (decide _).
  - intros Hr. simpl in Hr. change (projLoop (S (S fuel)) dt pi w) with
      (if decide (pi < length (projectiles w))%nat then
         let '(w1, hs) := stepProjectile dt pi w in
         match projLoop (S fuel) dt (S pi) w1 with
         | Some (w2, log) => Some (w2, map (pair pi) hs ++ log)
         | None => None
         end
       else Some (w, [])).
    destruct (decide _); [|done].
    destruct (stepProjectile dt pi w) as [w1 hs].
    destruct (projLoop fuel dt (S pi) w1) as [[w2 lg]|] eqn:El; [|done].
    by rewrite (IH _ _ _ El).
Qed.

Section Termination.
Context {CB : Type} `{Script CB}.
Hypothesis Hquiet : hits_spawn_nothing CB.

Lemma collide_length pi c cb n : forall i (w : World CB),
  length (projectiles (collide pi c cb n i w).1) = length (projectiles w).
Proof.
  induction n as [|n IH]; intros i w; simpl; [done|].
  assert (H1 : length (projectiles (collide1 pi c cb i w).1) = length (projectiles w)).
  { unfold collide1. destruct (fighters w !! i); [|done].
    destruct (Rlt_dec _ _); [|done]. simpl.
    destruct cb as [k|]; [rewrite Hquiet|]; apply kill_length. }
  destruct (collide1 pi c cb i w) as [w1 h]. specialize (IH (S i) w1).
  destruct (collide pi c cb n (S i) w1) as [w2 hs]. simpl in *. congruence.
Qed.

Lemma stepProjectile_length dt pi (w : World CB) :
  length (projectiles (stepProjectile dt pi w).1) = length (projectiles w).
Proof.
  unfold stepProjectile. destruct (projectiles w !! pi) as [p|]; [|done].
  destruct (negb (alive p)); [done|].
  destruct (Rle_dec _ _); [simpl; by rewrite length_insert|].
  rewrite collide_length. simpl. by rewrite length_insert.
Qed.

(** The projectile loop ends within as many iterations as there are
    projectiles left to visit. *)
Lemma projLoop_total dt fuel : forall pi (w : World CB),
  (length (projectiles w) <= pi + fuel)%nat -> is_Some (projLoop fuel dt pi w).
Proof.
  induction fuel as [|fuel IH]; intros pi w Hlen; simpl.
  - destruct (decide _); [lia | done].
  - destruct (decide _); [|done].
    pose proof (stepProjectile_length dt pi w) as Hs.
    destruct (stepProjectile dt pi w) as [w1 hs]. simpl in Hs.
    destruct (IH (S pi) w1) as [[w2 lg] ->]; [lia | done].
Qed.

Lemma tick_total dt (w : World CB) :
  is_Some (tick (length (projectiles w)) dt w).
Proof.
  unfold tick, projectilePhase.
  destruct (projLoop_total dt (length (projectiles w)) 0 (decayPhase dt w))
    as [[w1 lg] ->]; [simpl; lia | done].
Qed.
End Termination.

Lemma hpFloor_nonneg {CB} (f : Fighter CB) : 0 <= hp (state (hpFloor f)).
Proof. unfold hpFloor. destruct (Rle_dec _ _); simpl; lra. Qed.

Lemma hpFloor_max {CB} (f : Fighter CB) :
  hp (state (hpFloor f)) = Rmax 0 (hp (state f)).
Proof.
  unfold hpFloor, Rmax. destruct (Rle_dec (hp (state f)) 0); simpl; rdec.
Qed.


Lemma Callback_hits_spawn_nothing : hits_spawn_nothing Callback.
Proof.
  intros [body|body self target] i w; simpl; [done|].
  revert w. induction body as [|c body IH]; intros w; simpl; [done|].
  rewrite IH. destruct c as [effs a b|b du]; simpl.
  - destruct (resolve _ _ _ a); [|done]. destruct (resolve _ _ _ b); [|done].
    unfold applyEffects. destruct (fighters w !! _); [|done].
    by destruct (fighters w !! _).
  - destruct (resolve _ _ _ b); [|done].
    unfold world_timeFreeze. by destruct (fighters w !! _).
Qed.

(** C5 as stated fails for a damage effect of negative amount, which
    [applyEffects] accepts: applied to a fighter whose hp the floor has
    set to 0, it raises the hp to 5. *)
Lemma hp_floor_counterexample :
  let f := hpFloor (mkFighter stats0 (set_hp state0 (-3)) ([] : list (Ability Callback))) in
  let s' := applyEffect (mkvec 0 0) (stats f) (state f) (damage (-5) physical) in
  hp (state f) = 0
  /\ isImmune (state f) physical = false
  /\ hp s' = 5
  /\ ~ hp s' <= hp (state f).
Proof.
  unfold hpFloor. simpl. destruct (Rle_dec (-3) 0); [|lra]. simpl.
  split; [done|]. split; [reval; done|]. unfold mitigated. reval. simpl.
  replace (100 + 0) with 100 by lra. split; lra.
Qed.

(** ** The theorems at sample inputs *)

Lemma cast_first_eligible_witness :
  (length (castStep 10 0 1 crowded).2 <= 1)%nat.
Proof.
  apply (cast_first_eligible 10 0 1 crowded fighterA).
  - reflexivity.
  - repeat constructor. simpl. lra.
Defined.



(** The end-to-end example of the specification: one cast at distance 15
    leaves the target at [100 - 14 × 100 / 120] hp and the caster's
    cooldown at 1.2. *)
Example end_to_end_cast :
  exists w', castStep 15 0 1 duel = (w', ["Punch"])
    /\ (exists b, fighters w' !! 1%nat = Some b
                  /\ hp (state b) = 100 - 14 * 100 / 120)
    /\ (exists a, fighters w' !! 0%nat = Some a
                  /\ cd (state a) !! "Punch" = Some (12 / 10)).
Proof.
  unfold castStep. simpl.
  assert (Hcd : onCooldown (∅ : gmap string R) "Punch" = false)
    by (unfold onCooldown; by rewrite lookup_empty).
  rewrite Hcd.
  assert (Hin : inRange 15 punch = true).
  { apply inRange_true. simpl. unfold Rmax. rdec. }
  rewrite Hin. eexists. split; [reflexivity|].
  unfold invokeOnCast, applyEffects. simpl. split.
  - eexists. split; [reflexivity|]. simpl. unfold mitigated.
    rewrite js_or_nonzero by lra. reval. simpl.
    replace (100 + 20) with 120 by lra. lra.
  - eexists. split; [reflexivity|]. simpl. rewrite lookup_insert_eq.
    f_equal. unfold castCooldown. simpl. rewrite js_or_nonzero by lra.
    rewrite (Rmax_right (1 / 10) 1) by lra.
    rewrite Rmax_right by lra. lra.
Qed.

(** * Further properties of the engine *)

(** ** Immunity *)

Lemma isImmune_timer s k : 0 < imm_get (immunities s) k -> isImmune s k = true.
Proof.
  intros Hk. destruct k; simpl in *.
  - apply orb_true_iff. left. by apply Rltb_true.
  - apply orb_true_iff. left. by apply Rltb_true.
  - apply orb_true_iff. left. by apply Rltb_true.
Qed.

Lemma isImmune_both_timer s k : 0 < imm_both (immunities s) -> isImmune s k = true.
Proof.
  intros Hk. destruct k; simpl; apply orb_true_iff;
    [right | right | left]; by apply Rltb_true.
Qed.

(** X1.  A fighter is immune to the kind both exactly when it is immune
    to the kind physical and to the kind magical. *)
Theorem immune_both_iff (s : State) :
  isImmune s both = true
  <-> isImmune s physical = true /\ isImmune s magical = true.
Proof.
  unfold isImmune. simpl.
  rewrite !orb_true_iff, andb_true_iff, !Rltb_true. tauto.
Qed.

(** X2.  A damage or DoT effect applied to a target that is immune to its
    kind changes nothing; in particular, once an immunity of positive
    duration has been applied, damage of the same kind, and of any kind
    when the immunity is of kind both, leaves the state as the immunity
    left it. *)
Theorem immunity_blocks (cpos : vec) (st : Stats) (s : State) (e : Effect)
    (k' : DamageKind) :
  harms e k' ->
  (isImmune s k' = true -> applyEffect cpos st s e = s)
  /\ (forall k d, 0 < d -> covers k k' ->
        applyEffect cpos st (applyEffect cpos st s (immunity k d)) e
        = applyEffect cpos st s (immunity k d)).
Proof.
  intros He.
  assert (Hblock : forall s0, isImmune s0 k' = true -> applyEffect cpos st s0 e = s0).
  { intros s0 Him. destruct e as [a k0|dps du k0|? ?|?|?]; simpl in He; try done;
      subst k0; simpl; by rewrite Him. }
  split; [apply Hblock|]. intros k d Hd Hcov. apply Hblock.
  assert (Ht : 0 < imm_get (immunities (applyEffect cpos st s (immunity k d))) k).
  { simpl. rewrite imm_get_set, !js_or_0_r.
    pose proof (Rmax_r (imm_get (immunities s) k) d). lra. }
  destruct Hcov as [->| ->].
  - by apply isImmune_both_timer.
  - by apply isImmune_timer.
Qed.

Lemma immunity_blocks_witness :
  applyEffect (mkvec 0 0) stats20
    (applyEffect (mkvec 0 0) stats20 state0 (immunity physical (3 / 2)))
    (damage 50 physical)
  = applyEffect (mkvec 0 0) stats20 state0 (immunity physical (3 / 2)).
Proof.
  apply (proj2 (immunity_blocks (mkvec 0 0) stats20 state0 (damage 50 physical)
                  physical eq_refl) physical (3 / 2)).
  - lra.
  - right. reflexivity.
Defined.

Lemma decayFighter_log_immunities {CB} dt (f : Fighter CB) :
  immunities (state (decayFighter_log dt f).1)
  = decayImmunities dt (immunities (state f)).
Proof.
  unfold decayFighter_log.
  assert (Him : forall ds s, immunities (decayDots dt ds s).1.2 = immunities s).
  { induction ds as [|d ds IH]; intros s; simpl; [done|].
    specialize (IH s). destruct (decayDots dt ds s) as [[rest' s1] l1]. simpl in IH.
    destruct (Rle_dec _ _); [done|]. unfold dot_loop.
    assert (Hw : forall m d0 s0, immunities (dot_while m d0 s0).1.2 = immunities s0).
    { induction m as [|m IHm]; intros d0 s0; simpl; [done|].
      destruct (Rle_dec _ _); [|done]. destruct (isImmune _ _); [apply IHm|].
      specialize (IHm (dot_pulse d0) (set_hp s0 (hp s0 - d_dps d0))).
      by destruct (dot_while m _ _) as [[? ?] ?]. }
    match goal with |- context [dot_while ?m ?d0 s1] =>
      specialize (Hw m d0 s1); destruct (dot_while m d0 s1) as [[? ?] ?] end.
    simpl in *. congruence. }
  specialize (Him (dots (state f)) (state f)).
  destruct (decayDots dt (dots (state f)) (state f)) as [[ds s1] l]. simpl in *.
  by rewrite Him.
Qed.

(** ** What [applyEffects] leaves alone *)

Lemma applyEffect_frame cpos st s e :
  let s' := applyEffect cpos st s e in
  pos s' = pos s /\ facing s' = facing s /\ cd s' = cd s
  /\ exists new, dots s' = dots s ++ new.
Proof.
  destruct e as [a k|dps du k|k du|du|fo]; simpl.
  - destruct (isImmune s k); simpl; repeat split; exists []; by rewrite app_nil_r.
  - destruct (isImmune s k); simpl; repeat split;
      [exists []; by rewrite app_nil_r | by eexists].
  - repeat split. exists []. by rewrite app_nil_r.
  - repeat split. exists []. by rewrite app_nil_r.
  - repeat split. exists []. by rewrite app_nil_r.
Qed.

Lemma applyEffects_state_frame effs cpos st : forall s,
  let s' := applyEffects_state effs cpos st s in
  pos s' = pos s /\ facing s' = facing s /\ cd s' = cd s
  /\ exists new, dots s' = dots s ++ new.
Proof.
  unfold applyEffects_state. induction effs as [|e effs IH]; intros s; simpl.
  - repeat split. exists []. by rewrite app_nil_r.
  - destruct (applyEffect_frame cpos st s e) as (Hp & Hf & Hc & new1 & Hd).
    destruct (IH (applyEffect cpos st s e)) as (Hp' & Hf' & Hc' & new2 & Hd').
    simpl in *. rewrite Hp', Hf', Hc', Hd', Hd. repeat split; try done.
    exists (new1 ++ new2). by rewrite app_assoc.
Qed.

(** X4.  [applyEffects] touches the target only: the number of fighters,
    every other fighter, the projectiles and the bounds stay as they are,
    and of the target it never changes the stats, the abilities, the
    position, the facing or the cooldowns, and it only appends to the DoT
    records. *)
Theorem applyEffects_frame {CB} (effs : list Effect) (c t : nat) (w : World CB) :
  let w' := applyEffects effs c t w in
  length (fighters w') = length (fighters w)
  /\ projectiles w' = projectiles w /\ bounds w' = bounds w
  /\ (forall j, j <> t -> fighters w' !! j = fighters w !! j)
  /\ (forall f, fighters w !! t = Some f ->
        exists f', fighters w' !! t = Some f'
          /\ stats f' = stats f /\ abilities f' = abilities f
          /\ pos (state f') = pos (state f) /\ facing (state f') = facing (state f)
          /\ cd (state f') = cd (state f)
          /\ exists new, dots (state f') = dots (state f) ++ new).
Proof.
  unfold applyEffects.
  destruct (fighters w !! c) as [fc|] eqn:Ec.
  - destruct (fighters w !! t) as [ft|] eqn:Et; simpl.
    + split; [by rewrite length_insert|]. split; [done|]. split; [done|]. split.
      * intros j Hj. by rewrite list_lookup_insert_ne.
      * intros f [= <-]. eexists. split.
        { apply list_lookup_insert_eq. by eapply lookup_lt_Some. }
        simpl. split; [done|]. split; [done|].
        apply applyEffects_state_frame.
    + repeat split; try done; intros f Hf; rewrite Et in Hf; done.
  - repeat split; try done; intros f Hf; exists f; rewrite Hf;
      repeat split; try done; exists []; by rewrite app_nil_r.
Qed.

Lemma applyEffects_frame_witness :
  exists f', fighters (applyEffects [damage 14 physical; dot 2 3 magical; knockback 110]
                         0 1 crowded) !! 1%nat = Some f'
    /\ pos (state f') = pos (state fighterB)
    /\ cd (state f') = cd (state fighterB).
Proof.
  destruct (applyEffects_frame [damage 14 physical; dot 2 3 magical; knockback 110]
              0 1 crowded) as (_ & _ & _ & _ & Ht).
  destruct (Ht fighterB eq_refl) as (f' & Hf' & _ & _ & Hp & _ & Hc & _).
  by exists f'.
Defined.

(** ** Damage over time *)

Section MoreDecay.
Context {CB : Type}.
Implicit Types f : Fighter CB.

Lemma dot_while_records m : forall d s s',
  (dot_while m d s).1.1 = (dot_while m d s').1.1.
Proof.
  induction m as [|m IH]; intros d s s'; simpl; [done|].
  destruct (Rle_dec 1 (d_t d)); [|done].
  assert (Hgen : forall s0,
    (if isImmune s0 (d_dtype d) then dot_while m (dot_pulse d) s0
     else let '(d', s1, l) := dot_while m (dot_pulse d) (set_hp s0 (hp s0 - d_dps d)) in
          (d', s1, d_dps d :: l)).1.1
    = (dot_while m (dot_pulse d) s0).1.1).
  { intros s0. destruct (isImmune s0 (d_dtype d)); [done|].
    rewrite (IH (dot_pulse d) s0 (set_hp s0 (hp s0 - d_dps d))).
    by destruct (dot_while m (dot_pulse d) (set_hp s0 (hp s0 - d_dps d))) as [[? ?] ?]. }
  rewrite (Hgen s), (Hgen s'). apply IH.
Qed.

Lemma decayDots_records dt ds : forall s s',
  (decayDots dt ds s).1.1 = (decayDots dt ds s').1.1.
Proof.
  induction ds as [|d ds IH]; intros s s'; simpl; [done|].
  specialize (IH s s').
  destruct (decayDots dt ds s) as [[r1 s1] l1].
  destruct (decayDots dt ds s') as [[r2 s2] l2]. simpl in IH. subst r2.
  destruct (Rle_dec _ _); [done|]. unfold dot_loop.
  match goal with |- context [dot_while ?m ?d0 s1] =>
    pose proof (dot_while_records m d0 s1 s2) as Hw;
    destruct (dot_while m d0 s1) as [[? ?] ?];
    destruct (dot_while m d0 s2) as [[? ?] ?] end.
  simpl in *. by subst.
Qed.

Lemma dot_while_immune m : forall d s,
  isImmune s (d_dtype d) = true -> (dot_while m d s).1.2 = s /\ (dot_while m d s).2 = [].
Proof.
  induction m as [|m IH]; intros d s Him; simpl; [done|].
  destruct (Rle_dec 1 (d_t d)); [|done]. rewrite Him. by apply IH.
Qed.

Lemma decayDots_immune dt ds : forall s,
  Forall (fun d => isImmune s (d_dtype d) = true) ds ->
  (decayDots dt ds s).1.2 = s /\ (decayDots dt ds s).2 = [].
Proof.
  induction ds as [|d ds IH]; intros s Hds; simpl; [done|].
  apply Forall_cons in Hds as [Hd Hds]. specialize (IH s Hds).
  destruct (decayDots dt ds s) as [[r1 s1] l1]. simpl in IH. destruct IH as [-> ->].
  destruct (Rle_dec _ _); [done|]. unfold dot_loop.
  match goal with |- context [dot_while ?m ?d0 s] =>
    pose proof (dot_while_immune m d0 s Hd) as Hw;
    destruct (dot_while m d0 s) as [[? ?] ?] end.
  simpl in *. by destruct Hw as [-> ->].
Qed.

(** X6.  Immunity suppresses the damage of DoT pulses and not their
    countdown: the records a fighter is left with after the status decay
    depend on its records and on [dt] only, and a fighter immune to the
    kinds of all its records loses no hp and receives no pulse. *)
Theorem dot_countdown_ignores_immunity (dt : R) (f g : Fighter CB) :
  (dots (state f) = dots (state g) ->
   dots (state (decayFighter dt f)) = dots (state (decayFighter dt g)))
  /\ (Forall (fun d => isImmune (state f) (d_dtype d) = true) (dots (state f)) ->
      hp (state (decayFighter dt f)) = hp (state f)
      /\ (decayFighter_log dt f).2 = []).
Proof.
  split.
  - intros Hd. unfold decayFighter, decayFighter_log. rewrite Hd.
    pose proof (decayDots_records dt (dots (state g)) (state f) (state g)) as Hr.
    destruct (decayDots dt (dots (state g)) (state f)) as [[r1 s1] l1].
    destruct (decayDots dt (dots (state g)) (state g)) as [[r2 s2] l2].
    simpl in *. done.
  - intros Him. unfold decayFighter, decayFighter_log.
    destruct (decayDots_immune dt _ _ Him) as [Hs Hl].
    destruct (decayDots dt (dots (state f)) (state f)) as [[r1 s1] l1].
    simpl in *. by subst.
Qed.

Lemma decayDots_accumulators dt ds : forall s,
  Forall (fun d => d_t d < 1) (decayDots dt ds s).1.1
  /\ (length (decayDots dt ds s).1.1 <= length ds)%nat
  /\ (Forall (fun d => d_duration d <= 0) ds -> (decayDots dt ds s).1.1 = []).
Proof.
  induction ds as [|d ds IH]; intros s; simpl; [by repeat split|].
  destruct (IH s) as (Ht & Hlen & Hnil).
  destruct (decayDots dt ds s) as [[r1 s1] l1]. simpl in *.
  destruct (Rle_dec (d_duration d) 0) as [Hdur|Hdur].
  - simpl. repeat split; [done | lia |]. intros Hall.
    apply Forall_cons in Hall as [_ Hall]. by apply Hnil.
  - match goal with |- context [dot_loop ?d0 s1] =>
      pose proof (dot_loop_exit d0 s1) as Hx;
      destruct (dot_loop d0 s1) as [[? ?] ?] end.
    simpl in *. repeat split; [by constructor | lia |].
    intros Hall. apply Forall_cons in Hall as [Hd _]. lra.
Qed.

(** X7.  After the status decay of a tick, whatever its length, every
    DoT record of the fighter has its accumulator below one second, there
    are no more records than before, and if every record was exhausted
    (duration at most 0) none is left. *)
Theorem decay_accumulators (dt : R) (f : Fighter CB) :
  let f' := decayFighter dt f in
  Forall (fun d => d_t d < 1) (dots (state f'))
  /\ (length (dots (state f')) <= length (dots (state f)))%nat
  /\ (Forall (fun d => d_duration d <= 0) (dots (state f)) -> dots (state f') = []).
Proof.
  unfold decayFighter, decayFighter_log.
  pose proof (decayDots_accumulators dt (dots (state f)) (state f)) as Ha.
  destruct (decayDots dt (dots (state f)) (state f)) as [[r1 s1] l1].
  simpl in *. done.
Qed.
End MoreDecay.

Lemma dot_countdown_ignores_immunity_witness :
  hp (state (decayFighter (1 / 2) shielded)) = hp (state shielded)
  /\ dots (state (decayFighter (1 / 2) shielded))
     = dots (state (decayFighter (1 / 2)
                      (with_state shielded (set_immunities (state shielded) (mkImm 0 0 0))))).
Proof.
  destruct (dot_countdown_ignores_immunity (1 / 2) shielded
              (with_state shielded (set_immunities (state shielded) (mkImm 0 0 0))))
    as [Hrec Himm].
  split.
  - apply Himm. repeat constructor. simpl. reval; done.
  - apply Hrec. reflexivity.
Defined.

Lemma decay_accumulators_witness :
  dots (state (decayFighter 7
                 (with_state burning
                    (set_dots (state burning) [mkDot 3 0 (1 / 2) magical])))) = [].
Proof.
  apply (decay_accumulators 7). constructor; [simpl; lra | constructor].
Defined.

(** ** Cooldown timers *)

Lemma Rmax_cases a b :
  (a <= b /\ Rmax a b = b) \/ (b < a /\ Rmax a b = a).
Proof. unfold Rmax. destruct (Rle_dec a b); [left | right]; split; lra. Qed.

(** Decides a goal of linear arithmetic with maxima. *)
Ltac rmax :=
  repeat match goal with
  | |- context [Rmax ?a ?b] =>
      let E := fresh "E" in
      destruct (Rmax_cases a b) as [[? E]|[? E]]; rewrite E in *; clear E
  | _ : context [Rmax ?a ?b] |- _ =>
      let E := fresh "E" in
      destruct (Rmax_cases a b) as [[? E]|[? E]]; rewrite E in *; clear E
  end; try lra.

Lemma cool_nonneg dt x : 0 <= Rmax 0 (x - dt).
Proof. apply Rmax_l. Qed.

Lemma cool_iter dt k : forall x,
  0 <= dt -> (1 <= k)%nat ->
  Nat.iter k (fun x => Rmax 0 (x - dt)) x = Rmax 0 (x - INR k * dt).
Proof.
  induction k as [|k IH]; intros x Hdt Hk; [lia|].
  destruct k as [|k].
  - simpl. f_equal. lra.
  - change (Nat.iter (S (S k)) (fun x => Rmax 0 (x - dt)) x)
      with (Rmax 0 (Nat.iter (S k) (fun x => Rmax 0 (x - dt)) x - dt)).
    rewrite IH by (done || lia). rewrite (S_INR (S k)).
    replace ((INR (S k) + 1) * dt) with (INR (S k) * dt + dt) by ring.
    assert (Hy : 0 <= INR (S k) * dt) by (apply Rmult_le_pos; [apply pos_INR | done]).
    clear IH. generalize dependent (INR (S k) * dt). intros y Hy. rmax.
Qed.

Lemma decayCooldown_lookup dt (m : gmap string R) n n' :
  decayCooldown dt m n !! n'
  = if decide (n = n') then Some (Rmax 0 (cdTimer m n - dt)) else m !! n'.
Proof.
  unfold decayCooldown, cdTimer. destruct (m !! n) as [c|] eqn:Em.
  - rewrite Em. simpl. rewrite lookup_insert. by destruct (decide (n = n')).
  - rewrite lookup_insert_eq. simpl. rewrite lookup_insert.
    destruct (decide (n = n')) as [->|Hne]; [done|].
    by rewrite lookup_insert_ne.
Qed.

Lemma decayCooldowns_lookup {CB} dt (abs : list (Ability CB)) : forall m n,
  decayCooldowns dt abs m !! n
  = match count_name n abs with
    | O => m !! n
    | S k => Some (Nat.iter (S k) (fun x => Rmax 0 (x - dt)) (cdTimer m n))
    end.
Proof.
  unfold decayCooldowns, count_name.
  induction abs as [|a abs IH]; intros m n; simpl; [done|].
  rewrite IH. rewrite filter_cons. unfold cdTimer at 1.
  rewrite decayCooldown_lookup.
  destruct (decide (name a = n)) as [Ha|Ha]; simpl.
  - subst n. destruct (length (filter _ abs)) as [|k]; [done|].
    pose proof (Nat.iter_succ_r k (fun x => Rmax 0 (x - dt)) (cdTimer m (name a))) as E.
    simpl in E. simpl. by rewrite E.
  - done.
Qed.

Lemma count_name_elem {CB} (a : Ability CB) abs :
  a ∈ abs -> (1 <= count_name (name a) abs)%nat.
Proof.
  intros Hin. unfold count_name.
  assert (Hf : a ∈ filter (fun b => name b = name a) abs)
    by (by apply list_elem_of_filter).
  destruct (filter _ abs); [by apply elem_of_nil in Hf | simpl; lia].
Qed.

Lemma count_name_absent {CB} n (abs : list (Ability CB)) :
  (forall a, a ∈ abs -> name a <> n) -> count_name n abs = O.
Proof.
  intros Hall. unfold count_name.
  destruct (filter _ abs) as [|b l] eqn:Ef; [done|].
  assert (Hb : b ∈ filter (fun a => name a = n) abs)
    by (rewrite Ef; apply list_elem_of_here).
  apply list_elem_of_filter in Hb as [Hb Hin]. by destruct (Hall b Hin).
Qed.

Lemma decayCooldowns_timer {CB} (dt : R) (abs : list (Ability CB))
    (m : gmap string R) (n : string) :
  0 <= dt -> (1 <= count_name n abs)%nat ->
  cdTimer (decayCooldowns dt abs m) n
  = Rmax 0 (cdTimer m n - INR (count_name n abs) * dt).
Proof.
  intros Hdt Hc. unfold cdTimer at 1. rewrite decayCooldowns_lookup.
  destruct (count_name n abs) as [|k] eqn:Ek; [lia|].
  change (default 0 (Some ?x)) with x. by apply cool_iter.
Qed.

(** X8.  After the status decay of a tick every ability of the fighter has
    a cooldown entry that is not negative, and no other entry of [cd] has
    changed.  For [dt >= 0] the timer of a name is [max(0, timer - k·dt)]
    where [k] is the number of abilities carrying the name: abilities
    that share a name share a timer, which runs [k] times as fast. *)
Theorem cooldown_decay {CB} (dt : R) (abs : list (Ability CB)) (m : gmap string R) :
  let m' := decayCooldowns dt abs m in
  (forall a, a ∈ abs -> exists c, m' !! name a = Some c /\ 0 <= c)
  /\ (forall n, (forall a, a ∈ abs -> name a <> n) -> m' !! n = m !! n)
  /\ (0 <= dt -> forall n, (1 <= count_name n abs)%nat ->
        cdTimer m' n = Rmax 0 (cdTimer m n - INR (count_name n abs) * dt)).
Proof.
  simpl. split; [|split].
  - intros a Hin. rewrite decayCooldowns_lookup.
    pose proof (count_name_elem a abs Hin) as Hc.
    destruct (count_name (name a) abs) as [|k]; [lia|].
    eexists. split; [done|]. simpl. apply cool_nonneg.
  - intros n Hn. rewrite decayCooldowns_lookup. by rewrite count_name_absent.
  - intros Hdt n Hc. by apply decayCooldowns_timer.
Qed.

Lemma cooldown_decay_witness :
  cdTimer (decayCooldowns frame [slash; firebolt] {["Slash" := 12 / 10]}) "Slash"
  = Rmax 0 (cdTimer {["Slash" := 12 / 10]} "Slash"
            - INR (count_name "Slash" [slash; firebolt]) * frame).
Proof.
  apply (cooldown_decay frame [slash; firebolt] {["Slash" := 12 / 10]}).
  - unfold frame. lra.
  - vm_compute. lia.
Defined.

Lemma elapsed_nonneg dts : Forall (fun dt => 0 <= dt) dts -> 0 <= elapsed dts.
Proof. induction 1; simpl; lra. Qed.

(** ** The movement policy *)

Lemma maxRange_acc {CB} (abs : list (Ability CB)) : forall acc,
  let r := fold_left (fun m a => Rmax m (js_or (range a) 0)) abs acc in
  acc <= r
  /\ (forall a, a ∈ abs -> range a <= r)
  /\ (r = acc \/ exists a, a ∈ abs /\ r = range a).
Proof.
  induction abs as [|b abs IH]; intros acc; simpl.
  - split; [lra|]. split; [|by left]. intros a Ha. by apply elem_of_nil in Ha.
  - rewrite js_or_0_r. destruct (IH (Rmax acc (range b))) as (Hacc & Hall & Hex).
    pose proof (Rmax_l acc (range b)). pose proof (Rmax_r acc (range b)).
    split; [lra|]. split.
    + intros a Ha. apply elem_of_cons in Ha as [->|Ha]; [lra | by apply Hall].
    + destruct Hex as [Hex|(a & Ha & Hr)].
      * destruct (Rmax_cases acc (range b)) as [[_ E]|[_ E]].
        { right. exists b. split; [apply list_elem_of_here | by rewrite Hex]. }
        { left. by rewrite Hex. }
      * right. exists a. split; [by apply list_elem_of_further | done].
Qed.

(** X10.  The largest range of a fighter's abilities is at least 0 and at
    least the range of each ability, and the movement policy treats the
    fighter as ranged exactly when one of its abilities has a range of 40
    or more; a fighter without abilities is melee. *)
Theorem ranged_iff {CB} (abs : list (Ability CB)) :
  0 <= maxRange abs
  /\ (forall a, a ∈ abs -> range a <= maxRange abs)
  /\ (Rleb 40 (maxRange abs) = true <-> exists a, a ∈ abs /\ 40 <= range a)
  /\ (abs = [] -> Rleb 40 (maxRange abs) = false).
Proof.
  unfold maxRange. destruct (maxRange_acc abs 0) as (H0 & Hall & Hex).
  simpl in *. split; [done|]. split; [done|]. split.
  - rewrite Rleb_true. split.
    + intros H40. destruct Hex as [Hex|(a & Ha & Hr)]; [lra|].
      exists a. split; [done|lra].
    + intros (a & Ha & H40). specialize (Hall a Ha). lra.
  - intros ->. simpl. apply Rleb_false. lra.
Qed.

Lemma ranged_iff_witness :
  Rleb 40 (maxRange [slash; firebolt]) = true
  /\ Rleb 40 (maxRange (@nil (Ability Callback))) = false.
Proof.
  split.
  - apply (proj1 (proj2 (proj2 (ranged_iff [slash; firebolt])))).
    exists firebolt. split.
    + apply list_elem_of_further, list_elem_of_here.
    + simpl. lra.
  - by apply (ranged_iff (@nil (Ability Callback))).
Defined.

Lemma hypot_scale_abs a b c : hypot (a * c) (b * c) = hypot a b * Rabs c.
Proof.
  unfold hypot.
  replace (a * c * (a * c) + b * c * (b * c)) with ((a * a + b * b) * (c * c)) by ring.
  rewrite sqrt_mult by nra. f_equal. apply sqrt_Rsqr_abs.
Qed.

Lemma hypot_opp a b : hypot (- a) (- b) = hypot a b.
Proof. unfold hypot. f_equal. ring. Qed.

Lemma dist_sym a b : dist a b = dist b a.
Proof.
  unfold dist. rewrite <- hypot_opp. f_equal; ring.
Qed.

(** X11.  The directed movement of a turn: a melee fighter farther than
    20 from its opponent moves straight towards it and comes closer by
    exactly [moveSpeed × dt] (when that does not overshoot), a ranged
    fighter closer than 0.8 of its largest range moves straight away and
    gains exactly [moveSpeed × dt], and otherwise the fighter stays where
    it is; a ranged fighter standing exactly on its opponent has no
    direction to flee in and stays too. *)
Theorem directed_distance (dt : R) (st : Stats) (mr : R) (opos : vec) (s : State) :
  let d := dist (pos s) opos in
  let p' := directed dt st mr opos s in
  let step := moveSpeed st * dt in
  (mr < 40 -> d <= 20 -> p' = pos s)
  /\ (40 <= mr -> mr * (8 / 10) <= d -> p' = pos s)
  /\ (40 <= mr -> d = 0 -> p' = pos s)
  /\ (mr < 40 -> 20 < d -> 0 <= step <= d -> dist p' opos = d - step)
  /\ (40 <= mr -> 0 < d < mr * (8 / 10) -> 0 <= step -> dist p' opos = d + step).
Proof.
  intros d p' step. subst p'. unfold directed.
  assert (Hd : hypot (X opos - X (pos s)) (Y opos - Y (pos s)) = d).
  { subst d. rewrite dist_sym. done. }
  rewrite Hd. fold d.
  assert (Hscale : forall c, 0 <= c ->
    dist (mkvec (X (pos s) + (X opos - X (pos s)) * (1 - c))
                (Y (pos s) + (Y opos - Y (pos s)) * (1 - c))) opos = d * c).
  { intros c Hc. unfold dist. simpl.
    replace (X (pos s) + (X opos - X (pos s)) * (1 - c) - X opos)
      with ((X (pos s) - X opos) * c) by ring.
    replace (Y (pos s) + (Y opos - Y (pos s)) * (1 - c) - Y opos)
      with ((Y (pos s) - Y opos) * c) by ring.
    rewrite hypot_scale by done. done. }
  split; [|split; [|split; [|split]]].
  - intros Hmr Hle. rewrite (proj2 (Rleb_false 40 mr)) by done. simpl.
    by rewrite (proj2 (Rltb_false 20 d)).
  - intros Hmr Hge. rewrite (proj2 (Rleb_true 40 mr)) by done. simpl.
    by rewrite (proj2 (Rltb_false d (mr * (8 / 10)))).
  - intros Hmr H0. rewrite (proj2 (Rleb_true 40 mr)) by done. simpl.
    rewrite H0, js_or_zero.
    assert (Hx : X opos - X (pos s) = 0 /\ Y opos - Y (pos s) = 0).
    { unfold hypot in Hd. rewrite H0 in Hd.
      apply Rplus_sqr_eq_0. apply sqrt_eq_0; [|exact Hd].
      apply Rplus_le_le_0_compat; apply Rle_0_sqr. }
    destruct Hx as [-> ->]. unfold Rdiv. rewrite !Rmult_0_l, !Rminus_0_r.
    destruct (Rltb 0 _); try done; apply vec_eta.
  - intros Hmr Hfar Hstep. rewrite (proj2 (Rleb_false 40 mr)) by done. simpl.
    rewrite (proj2 (Rltb_true 20 d)) by done. rewrite js_or_nonzero by lra.
    replace (X (pos s) + (X opos - X (pos s)) / d * moveSpeed st * dt)
      with (X (pos s) + (X opos - X (pos s)) * (1 - (1 - step / d)))
      by (subst step; field; lra).
    replace (Y (pos s) + (Y opos - Y (pos s)) / d * moveSpeed st * dt)
      with (Y (pos s) + (Y opos - Y (pos s)) * (1 - (1 - step / d)))
      by (subst step; field; lra).
    rewrite Hscale.
    + field. lra.
    + assert (step / d <= 1); [|lra].
      apply Rmult_le_reg_r with d; [lra|]. unfold Rdiv.
      rewrite Rmult_assoc, Rinv_l by lra. lra.
  - intros Hmr Hnear Hstep. rewrite (proj2 (Rleb_true 40 mr)) by done. simpl.
    rewrite (proj2 (Rltb_true d (mr * (8 / 10)))) by lra.
    rewrite js_or_nonzero by lra.
    replace (X (pos s) - (X opos - X (pos s)) / d * moveSpeed st * dt)
      with (X (pos s) + (X opos - X (pos s)) * (1 - (1 + step / d)))
      by (subst step; field; lra).
    replace (Y (pos s) - (Y opos - Y (pos s)) / d * moveSpeed st * dt)
      with (Y (pos s) + (Y opos - Y (pos s)) * (1 - (1 + step / d)))
      by (subst step; field; lra).
    rewrite Hscale.
    + field. lra.
    + assert (0 <= step / d); [|lra].
      apply Rmult_le_pos; [lra|]. left. apply Rinv_0_lt_compat. lra.
Qed.

Lemma dist_100 : dist (mkvec 100 100) (mkvec 200 100) = 100.
Proof.
  unfold dist, hypot. cbn [X Y].
  replace ((100 - 200) * (100 - 200) + (100 - 100) * (100 - 100)) with (100 * 100) by ring.
  apply sqrt_square. lra.
Qed.

Lemma directed_distance_witness :
  dist (directed frame stats20 20 (mkvec 200 100) (state_at 100 100)) (mkvec 200 100)
  = dist (pos (state_at 100 100)) (mkvec 200 100) - moveSpeed stats20 * frame.
Proof.
  destruct (directed_distance frame stats20 20 (mkvec 200 100) (state_at 100 100))
    as (_ & _ & _ & Hchase & _).
  apply Hchase.
  - lra.
  - change (20 < dist (mkvec 100 100) (mkvec 200 100)). rewrite dist_100. lra.
  - change (0 <= 120 * frame <= dist (mkvec 100 100) (mkvec 200 100)).
    rewrite dist_100. unfold frame. lra.
Defined.

Lemma Rmin_cases a b :
  (a <= b /\ Rmin a b = a) \/ (b < a /\ Rmin a b = b).
Proof. unfold Rmin. destruct (Rle_dec a b); [left | right]; split; lra. Qed.

Lemma clamp_cases x a b :
  (x < a /\ a <= b /\ clamp x a b = a) \/ (a <= x <= b /\ clamp x a b = x)
  \/ (b < x /\ a <= b /\ clamp x a b = b) \/ (b < a /\ clamp x a b = a).
Proof.
  unfold clamp.
  destruct (Rmin_cases b x) as [[? E]|[? E]]; rewrite E;
    destruct (Rmax_cases a b) as [[? E1]|[? E1]];
    destruct (Rmax_cases a x) as [[? E2]|[? E2]]; rewrite ?E1, ?E2;
    destruct (Rlt_dec x a); destruct (Rlt_dec b a); try lra;
    try (left; split; [lra | split; [lra | done || lra]]);
    try (right; left; split; [lra | done || lra]);
    try (right; right; left; split; [lra | split; [lra | done || lra]]);
    try (right; right; right; split; [lra | done || lra]).
Qed.

Lemma clamp_between x a b : a <= b -> a <= clamp x a b <= b.
Proof.
  intros. destruct (clamp_cases x a b) as [(?&?&->)|[(?&->)|[(?&?&->)|(?&->)]]]; lra.
Qed.

Lemma clamp_inside x a b : a <= x <= b -> clamp x a b = x.
Proof.
  intros. destruct (clamp_cases x a b) as [(?&?&->)|[(?&->)|[(?&?&->)|(?&->)]]]; lra.
Qed.

Lemma clamp_empty x a b : b < a -> clamp x a b = a.
Proof.
  intros. destruct (clamp_cases x a b) as [(?&?&->)|[(?&->)|[(?&?&->)|(?&->)]]]; lra.
Qed.

(** X12.  The movement part of a turn leaves the fighter inside the arena
    bounds on each axis whose extent is not negative (on an axis of
    negative extent the lower bound wins), faces it towards the opponent
    (1 when it stands strictly to the left of it, -1 otherwise), and
    changes neither hp, DoT records, immunities, freeze timer nor
    cooldowns. *)
Theorem moveStep_in_bounds (dt : R) (b : Bounds) (st : Stats) (mr : R)
    (opos : vec) (s : State) :
  let s' := moveStep dt b st mr opos s in
  (0 <= b_w b -> b_x b <= X (pos s') <= b_x b + b_w b)
  /\ (0 <= b_h b -> b_y b <= Y (pos s') <= b_y b + b_h b)
  /\ (b_w b < 0 -> X (pos s') = b_x b)
  /\ (b_h b < 0 -> Y (pos s') = b_y b)
  /\ (X (pos s') < X opos -> facing s' = 1)
  /\ (X opos <= X (pos s') -> facing s' = -1)
  /\ hp s' = hp s /\ dots s' = dots s /\ immunities s' = immunities s
  /\ freeze s' = freeze s /\ cd s' = cd s.
Proof.
  simpl. repeat split; try (intros; apply clamp_between; lra);
    try (intros; apply clamp_empty; lra).
  - intros Hl. destruct (Rlt_dec _ _); [done | lra].
  - intros Hr. destruct (Rlt_dec _ _); [lra | done].
Qed.

Lemma moveStep_in_bounds_witness :
  b_x bounds0
  <= X (pos (moveStep frame bounds0 stats20 20 (mkvec 200 100) (state_at 10 10)))
  <= b_x bounds0 + b_w bounds0.
Proof.
  apply (moveStep_in_bounds frame bounds0 stats20 20 (mkvec 200 100) (state_at 10 10)).
  simpl. lra.
Defined.

(** ** Projectiles in flight *)

Lemma vec_neq a b : a <> b -> X a <> X b \/ Y a <> Y b.
Proof.
  intros Hne. destruct a as [ax ay], b as [bx by_]. simpl.
  destruct (Req_dec_T ax bx) as [->|Hx]; [|by left].
  destruct (Req_dec_T ay by_) as [->|Hy]; [|by right].
  by destruct Hne.
Qed.

(** X13.  When [from] and [to] differ, [spawnProjectile] gives the
    projectile a velocity whose magnitude is the speed (220 when the speed
    is missing or 0) and whose direction is that of [to - from]: it is
    parallel to it and, for a positive speed, points the same way. *)
Theorem spawn_aims {CB} (p : ProjSpec CB) :
  p_from p <> p_to p ->
  let v := p_vel (spawned p) in
  let dx := X (p_to p) - X (p_from p) in
  let dy := Y (p_to p) - Y (p_from p) in
  magnitude v = Rabs (js_or (speed p) 220)
  /\ X v * dy = Y v * dx
  /\ (0 < js_or (speed p) 220 -> 0 < X v * dx + Y v * dy).
Proof.
  intros Hne v dx dy.
  assert (Hsq : 0 < dx * dx + dy * dy).
  { apply vec_neq in Hne. pose proof (Rle_0_sqr dx). pose proof (Rle_0_sqr dy).
    destruct Hne as [Hx|Hy].
    - assert (0 < Rsqr dx) by (apply Rsqr_pos_lt; subst dx; lra).
      unfold Rsqr in *. lra.
    - assert (0 < Rsqr dy) by (apply Rsqr_pos_lt; subst dy; lra).
      unfold Rsqr in *. lra. }
  assert (HL : 0 < hypot dx dy) by (by apply sqrt_lt_R0).
  assert (EL : spawn_L p = hypot dx dy).
  { unfold spawn_L. fold dx dy. apply js_or_nonzero. lra. }
  subst v. unfold spawned. simpl. fold dx dy. rewrite EL.
  set (L := hypot dx dy) in *. set (sp := js_or (speed p) 220).
  split; [|split].
  - unfold magnitude. simpl.
    replace (dx / L * sp) with (dx * (sp / L)) by (field; lra).
    replace (dy / L * sp) with (dy * (sp / L)) by (field; lra).
    rewrite hypot_scale_abs. fold L. unfold Rdiv.
    rewrite Rabs_mult, (Rabs_pos_eq (/ L)) by (left; by apply Rinv_0_lt_compat).
    field. lra.
  - field. lra.
  - intros Hsp.
    replace (dx / L * sp * dx + dy / L * sp * dy)
      with ((dx * dx + dy * dy) * (sp / L)) by (field; lra).
    apply Rmult_lt_0_compat; [done|]. by apply Rdiv_lt_0_compat.
Qed.

Lemma spawn_aims_witness :
  magnitude (p_vel (spawned aimed_spec)) = Rabs (js_or (speed aimed_spec) 220).
Proof.
  apply (spawn_aims aimed_spec). simpl. intros [= E _]. lra.
Defined.

Section Flight.
Context {CB : Type} `{Script CB}.
Implicit Types (q : Projectile CB) (fs : list (Fighter CB)).

Lemma flight_compose a b q :
  advance b (age b (advance a (age a q))) = advance (a + b) (age (a + b) q).
Proof.
  unfold advance, age. simpl. f_equal; [f_equal; ring | ring].
Qed.

Lemma flight_0 q : advance 0 (age 0 q) = q.
Proof.
  destruct q as [[px py] v t sh ti oh al]. unfold advance, age. simpl.
  f_equal; [f_equal; ring | ring].
Qed.

Lemma flight_step fs b q dt :
  alive q = true -> 0 < ttl q - dt ->
  clear_of (mkWorld fs [q] b) (ray q dt) ->
  projectilePhase 1 dt (mkWorld fs [q] b)
  = Some (mkWorld fs [advance dt (age dt q)] b, []).
Proof.
  intros Hal Httl Hclear. unfold projectilePhase. simpl.
  unfold stepProjectile. simpl. rewrite Hal. simpl.
  destruct (Rle_dec (ttl q - dt) 0); [lra|].
  rewrite collide_miss by exact Hclear. simpl. unfold cleanup. simpl.
  rewrite filter_cons_True by exact Hal. done.
Qed.

Lemma expire_step fs b q dt :
  alive q = true -> ttl q - dt <= 0 ->
  projectilePhase 1 dt (mkWorld fs [q] b) = Some (mkWorld fs [] b, []).
Proof.
  intros Hal Httl. unfold projectilePhase. simpl.
  unfold stepProjectile. simpl. rewrite Hal. simpl.
  destruct (Rle_dec (ttl q - dt) 0); [|lra]. simpl. unfold cleanup. simpl.
  rewrite filter_cons, decide_False by done. done.
Qed.

Lemma runProjectiles_none fs b dts :
  runProjectiles dts (mkWorld fs [] b) = Some (mkWorld fs [] b, []).
Proof.
  induction dts as [|dt dts IH]; [done|].
  assert (Hp : projectilePhase 0 dt (mkWorld fs [] b) = Some (mkWorld fs [] b, []))
    by reflexivity.
  change (runProjectiles (dt :: dts) (mkWorld fs [] b))
    with (match projectilePhase 0 dt (mkWorld fs [] b) with
          | Some (w1, l1) =>
              match runProjectiles dts w1 with
              | Some (w2, l2) => Some (w2, l1 ++ l2)
              | None => None
              end
          | None => None
          end).
  by rewrite Hp, IH.
Qed.

Lemma flight_run fs b dts : forall q,
  alive q = true -> Forall (fun dt => 0 <= dt) dts ->
  (forall e, 0 <= e -> clear_of (mkWorld fs [q] b) (ray q e)) ->
  (elapsed dts < ttl q ->
   runProjectiles dts (mkWorld fs [q] b)
   = Some (mkWorld fs [advance (elapsed dts) (age (elapsed dts) q)] b, []))
  /\ (0 < ttl q -> ttl q <= elapsed dts ->
      runProjectiles dts (mkWorld fs [q] b) = Some (mkWorld fs [] b, [])).
Proof.
  induction dts as [|dt dts IH]; intros q Hal Hdts Hclear.
  - simpl. split; [|lra]. intros _. by rewrite flight_0.
  - apply Forall_cons in Hdts as [Hdt Hdts].
    pose proof (elapsed_nonneg dts Hdts) as He.
    assert (Hnext : forall e, 0 <= e ->
              clear_of (mkWorld fs [advance dt (age dt q)] b)
                (ray (advance dt (age dt q)) e)).
    { intros e He'. replace (ray (advance dt (age dt q)) e) with (ray q (dt + e)).
      - apply (Hclear (dt + e)). lra.
      - unfold ray, advance, age. simpl. f_equal; ring. }
    destruct (IH (advance dt (age dt q)) Hal Hdts Hnext) as [IH1 IH2].
    change (ttl (advance dt (age dt q))) with (ttl q - dt) in IH1, IH2.
    split.
    + intros Hlt. simpl in Hlt.
      change (runProjectiles (dt :: dts) (mkWorld fs [q] b))
        with (match projectilePhase 1 dt (mkWorld fs [q] b) with
              | Some (w1, l1) =>
                  match runProjectiles dts w1 with
                  | Some (w2, l2) => Some (w2, l1 ++ l2)
                  | None => None
                  end
              | None => None
              end).
      rewrite flight_step by (done || lra || (apply Hclear; lra)).
      rewrite IH1 by lra. rewrite flight_compose. done.
    + intros Hpos Hge. simpl in Hge.
      change (runProjectiles (dt :: dts) (mkWorld fs [q] b))
        with (match projectilePhase 1 dt (mkWorld fs [q] b) with
              | Some (w1, l1) =>
                  match runProjectiles dts w1 with
                  | Some (w2, l2) => Some (w2, l1 ++ l2)
                  | None => None
                  end
              | None => None
              end).
      destruct (Rle_dec (ttl q - dt) 0) as [Hexp|Hlive].
      * rewrite expire_step by done. by rewrite runProjectiles_none.
      * rewrite flight_step by (done || lra || (apply Hclear; lra)).
        rewrite IH2 by lra. done.
Qed.

Lemma countdown_slack_nonneg n v D : 0 < v -> 0 <= countdown_slack n v D.
Proof.
  intros Hv. unfold countdown_slack.
  pose proof (pos_INR n). pose proof (Rmax_l v D).
  assert (0 < 2 ^ 40) by (apply pow_lt; lra).
  apply Rmult_le_pos; [apply Rmult_le_pos; lra|].
  apply Rlt_le, Rinv_0_lt_compat. done.
Qed.

Lemma clear_by_clear_of (w : World CB) c : clear_by 1 w c -> clear_of w c.
Proof. intros Hc j f Hf Hhit. specialize (Hc j f Hf). lra. Qed.

(** In exact arithmetic, with the margins that the rounding of the
    program asks for: a pixel between the line of flight and the hit
    radius of every fighter, and [countdown_slack] between the time
    elapsed and the ttl. *)
Lemma flight_on_ray (w : World CB) (q : Projectile CB) (dts : list R) (D : R) :
  projectiles w = [q] -> alive q = true -> 0 < ttl q ->
  Forall (fun dt => 0 <= dt <= D) dts ->
  (forall e, 0 <= e -> clear_by 1 w (ray q e)) ->
  (elapsed dts + countdown_slack (length dts) (ttl q) D < ttl q ->
   runProjectiles dts w
   = Some (set_projectiles w [advance (elapsed dts) (age (elapsed dts) q)], [])
   /\ p_pos (advance (elapsed dts) (age (elapsed dts) q)) = ray q (elapsed dts)
   /\ ttl (advance (elapsed dts) (age (elapsed dts) q)) = ttl q - elapsed dts
   /\ alive (advance (elapsed dts) (age (elapsed dts) q)) = true)
  /\ (ttl q + countdown_slack (length dts) (ttl q) D <= elapsed dts ->
      runProjectiles dts w = Some (set_projectiles w [], [])).
Proof.
  destruct w as [fs ps b]. simpl. intros -> Hal Httl Hdts Hclear.
  pose proof (countdown_slack_nonneg (length dts) (ttl q) D Httl) as Hs.
  assert (Hdts' : Forall (fun dt => 0 <= dt) dts).
  { eapply Forall_impl; [exact Hdts|]. simpl. intros; lra. }
  assert (Hclear' : forall e, 0 <= e -> clear_of (mkWorld fs [q] b) (ray q e)).
  { intros e He. by apply clear_by_clear_of, Hclear. }
  destruct (flight_run fs b dts q Hal Hdts' Hclear') as [H1 H2]. split.
  - intros Hlt. split; [apply H1; lra | done].
  - intros Hge. apply H2; [done | lra].
Qed.
End Flight.

Lemma range_world_clear e : clear_of range_world (ray flying e).
Proof.
  intros j f Hj Hhit. apply hypot_lt in Hhit; [|unfold hit_radius; lra].
  unfold hit_radius in Hhit.
  destruct j as [|[|j]]; simpl in Hj; try done; injection Hj as <-;
    simpl in Hhit;
    match type of Hhit with
    | ?a * ?a + _ < _ => pose proof (Rle_0_sqr a) as Hs; unfold Rsqr in Hs
    end; nra.
Qed.

Lemma range_world_clear_by e : clear_by 1 range_world (ray flying e).
Proof.
  intros j f Hf. unfold hit_radius.
  assert (Hy : Y (ray flying e) = 100) by (simpl; lra).
  assert (Hf' : Y (pos (state f)) = 300).
  { destruct j as [|[|j]]; simpl in Hf; try done; by injection Hf as <-. }
  unfold dist, hypot. rewrite Hy, Hf'.
  replace (18 + 1) with (sqrt (19 * 19)) by (rewrite sqrt_square; lra).
  apply sqrt_le_1_alt.
  pose proof (Rle_0_sqr (X (ray flying e) - X (pos (state f)))) as Hsq.
  unfold Rsqr in Hsq. lra.
Qed.

Section Survivors.
Context {CB : Type} `{Script CB}.

Lemma projLoop_length (Hquiet : hits_spawn_nothing CB) dt fuel :
  forall pi (w : World CB) r,
  projLoop fuel dt pi w = Some r ->
  length (projectiles r.1) = length (projectiles w).
Proof.
  induction fuel as [|fuel IH]; intros pi w r; simpl.
  - destruct (decide _); [done|]. by intros [= <-].
  - destruct (decide _); [|by intros [= <-]].
    pose proof (stepProjectile_length Hquiet dt pi w) as Hs.
    destruct (stepProjectile dt pi w) as [w1 hs].
    destruct (projLoop fuel dt (S pi) w1) as [[w2 lg]|] eqn:El; [|done].
    intros [= <-]. simpl in *. rewrite <- Hs. apply (IH _ _ _ El).
Qed.

(** X15.  After the projectile phase of a tick every projectile left in
    the list is alive, and when the [onHit] callbacks spawn nothing the
    list is not longer than before.  A projectile whose ttl runs out in
    the tick is marked dead before any collision test: it invokes no
    [onHit] and changes no fighter, even when it overlaps one. *)
Theorem projectile_survivors (fuel : nat) (dt : R) (w : World CB) :
  (forall w' lg, projectilePhase fuel dt w = Some (w', lg) ->
     Forall (fun p => alive p = true) (projectiles w')
     /\ (hits_spawn_nothing CB ->
         (length (projectiles w') <= length (projectiles w))%nat))
  /\ (forall pi q, projectiles w !! pi = Some q -> alive q = true -> ttl q <= dt ->
        (stepProjectile dt pi w).2 = []
        /\ fighters (stepProjectile dt pi w).1 = fighters w
        /\ exists q', projectiles (stepProjectile dt pi w).1 !! pi = Some q'
                      /\ alive q' = false).
Proof.
  split.
  - intros w' lg. unfold projectilePhase.
    destruct (projLoop fuel dt 0 w) as [[w1 lg1]|] eqn:El; [|done].
    intros [= <- <-]. split.
    + simpl. apply Forall_forall. intros p Hp.
      by apply list_elem_of_filter in Hp as [Hp _].
    + intros Hquiet. pose proof (projLoop_length Hquiet _ _ _ _ _ El) as Hlen.
      simpl in *. rewrite <- Hlen. apply length_filter.
  - intros pi q Hq Hal Httl. unfold stepProjectile. rewrite Hq, Hal. simpl.
    destruct (Rle_dec (ttl q - dt) 0); [|lra]. simpl.
    split; [done|]. split; [done|]. exists (set_alive (age dt q) false).
    split; [|reflexivity].
    apply list_lookup_insert_eq. by eapply lookup_lt_Some.
Qed.
End Survivors.

Lemma projectile_survivors_witness :
  (stepProjectile 3 0 crowded).2 = []
  /\ fighters (stepProjectile 3 0 crowded).1 = fighters crowded.
Proof.
  destruct (proj2 (projectile_survivors 1 3 crowded) 0%nat bolt eq_refl eq_refl)
    as (Hl & Hf & _).
  - simpl. lra.
  - by split.
Defined.

(** ** Abilities *)

Lemma parse_type_name ty : parse_type (JStr (type_name ty)) = Some ty.
Proof. by destruct ty. Qed.

(** X16.  [Ability.make] checks the type first, then the cooldown, then
    the range, and reports the first check that fails; when it succeeds
    the ability has a cooldown above 0 and a range of at least 0, and
    carries the fields of the argument, with the defaults (name
    "Ability", type status, cooldown 2, range 20, no effects) for the
    fields that are absent. *)
Theorem Ability_make_checks {CB} (spec : AbilitySpec CB) :
  let ty := parse_type (default (JStr "status") (s_type spec)) in
  let c := default (JNum 2) (s_cooldown spec) in
  let r := default (JNum 20) (s_range spec) in
  (ty = None -> Ability_make spec = Throw "Invalid ability.type")
  /\ (ty <> None -> (forall x, c = JNum x -> x <= 0) ->
      Ability_make spec = Throw "cooldown must be > 0")
  /\ (ty <> None -> (exists x, c = JNum x /\ 0 < x) ->
      (forall y, r = JNum y -> y < 0) ->
      Ability_make spec = Throw "range must be >= 0")
  /\ (forall a, Ability_make spec = Ok a <->
        exists t x y, ty = Some t /\ c = JNum x /\ 0 < x /\ r = JNum y /\ 0 <= y
          /\ a = mkAbility (default "Ability" (s_name spec)) t x y
                   (default [] (s_effects spec)) (s_onCast spec)).
Proof.
  simpl. unfold Ability_make.
  destruct (parse_type _) as [t|]; (split; [|split; [|split]]); try done.
  - intros _ Hc. destruct (default _ (s_cooldown spec)) as [x| | |]; try done.
    destruct (Rle_dec x 0) as [|Hx]; [done|]. specialize (Hc x eq_refl). lra.
  - intros _ (x & -> & Hx) Hr. destruct (Rle_dec x 0); [lra|].
    destruct (default _ (s_range spec)) as [y| | |]; try done.
    destruct (Rlt_dec y 0) as [|Hy]; [done|]. specialize (Hr y eq_refl). lra.
  - intros a. split.
    + destruct (default _ (s_cooldown spec)) as [x| | |]; try done.
      destruct (Rle_dec x 0); [done|].
      destruct (default _ (s_range spec)) as [y| | |]; try done.
      destruct (Rlt_dec y 0); [done|]. intros [= <-].
      exists t, x, y. repeat split; try done; lra.
    + intros (t' & x & y & [= <-] & -> & Hx & -> & Hy & ->).
      destruct (Rle_dec x 0); [lra|]. destruct (Rlt_dec y 0); [lra|]. done.
  - intros a. split; [done|]. by intros (t' & x & y & ? & _).
Qed.

Lemma Ability_make_checks_witness :
  Ability_make spec_twice_bad = Throw "Invalid ability.type"
  /\ Ability_make spec_bad = Throw "cooldown must be > 0".
Proof.
  split.
  - apply (Ability_make_checks spec_twice_bad). reflexivity.
  - apply (proj1 (proj2 (Ability_make_checks spec_bad))).
    + discriminate.
    + intros x [= <-]. lra.
Defined.

Lemma Ability_make_to_spec {CB} (a : Ability CB) :
  Ability_make (to_spec a)
  = if Rle_dec (cooldown a) 0 then Throw "cooldown must be > 0"
    else if Rlt_dec (range a) 0 then Throw "range must be >= 0"
    else Ok a.
Proof. destruct a as [n [] c r es oc]; reflexivity. Qed.

(** X17.  [Ability.make] is idempotent: an ability it has produced,
    passed to it again as an object with all its fields, is accepted and
    comes back unchanged; in general an ability object is accepted, and
    returned as it is, exactly when its cooldown is above 0 and its range
    at least 0. *)
Theorem Ability_make_idempotent {CB} (a : Ability CB) :
  (Ability_make (to_spec a) = Ok a <-> 0 < cooldown a /\ 0 <= range a)
  /\ (forall b, Ability_make (to_spec a) = Ok b -> b = a)
  /\ (forall spec, Ability_make spec = Ok a -> Ability_make (to_spec a) = Ok a).
Proof.
  rewrite Ability_make_to_spec.
  assert (Hiff : (if Rle_dec (cooldown a) 0 then Throw "cooldown must be > 0"
                  else if Rlt_dec (range a) 0 then Throw "range must be >= 0"
                  else Ok a) = Ok a <-> 0 < cooldown a /\ 0 <= range a).
  { destruct (Rle_dec (cooldown a) 0); [split; [done | lra]|].
    destruct (Rlt_dec (range a) 0); [split; [done | lra]|].
    split; [lra | done]. }
  split; [done|]. split.
  - intros b. destruct (Rle_dec (cooldown a) 0); [done|].
    destruct (Rlt_dec (range a) 0); [done|]. by intros [= <-].
  - intros spec Hspec. apply Hiff. by apply (Ability_make_valid spec).
Qed.

Lemma Ability_make_idempotent_witness : Ability_make (to_spec slash) = Ok slash.
Proof.
  apply (proj2 (proj2 (Ability_make_idempotent slash)) spec_slash).
  apply spec_slash_ok.
Defined.

(** ** The compiler's result *)

Lemma make_all_throw {CB} (l : list (AbilitySpec CB)) m :
  make_all l = Throw m -> exists m', validate_all l = Throw m'.
Proof.
  revert m. induction l as [|a l IH]; intros m; simpl; [done|].
  destruct (Ability_make a); [|by eexists].
  destruct (make_all l) eqn:El; [done|]. intros _. by eapply IH.
Qed.


(** X18.  [compileAbilities] returns a list exactly when the script
    returns an array all of whose elements pass [Ability.make]; the list
    then holds the ability made from each element, in the order of the
    array, the status reports their number, and the click handler
    replaces the loaded list by it. *)
Theorem compile_success {CB} (run : ScriptRun CB) (bs : list (Ability CB)) :
  (compileAbilities run).1 = Some bs
  <-> exists l, run = returns_array l
                /\ Forall2 (fun a b => Ability_make a = Ok b) l bs
                /\ (compileAbilities run).2 = status_loaded (length bs)
                /\ forall compiled, validateClick run compiled = bs.
Proof.
  split.
  - intros Hc. destruct (compile_some_whole run bs Hc) as (l & -> & Hall).
    exists l. split; [done|]. split; [done|].
    pose proof (Forall2_length _ _ _ Hall) as Hlen. split.
    + simpl in *. destruct (validate_all l) as [[]|]; [|done].
      destruct (make_all l); [|done]. simpl. by rewrite Hlen.
    + intros compiled. unfold validateClick. by rewrite Hc.
  - intros (l & -> & Hall & _). simpl.
    assert (Hm : make_all l = Ok bs).
    { induction Hall as [|a b l bs Hab _ IH]; simpl; [done|]. by rewrite Hab, IH. }
    destruct (validate_all l) as [[]|m] eqn:Ev; [by rewrite Hm|].
    destruct (validate_all_throw l m Ev) as (a & Hin & Hbad).
    apply list_elem_of_lookup in Hin as [i Hi].
    destruct (Forall2_lookup_l _ _ _ _ _ Hall Hi) as (b & _ & Hab). congruence.
Qed.

Lemma compile_success_witness :
  exists l, returns_array [spec_slash; to_spec slash] = returns_array l
    /\ Forall2 (fun a b => Ability_make a = Ok b) l [slash; slash]
    /\ (compileAbilities (returns_array [spec_slash; to_spec slash])).2
       = status_loaded (length [slash; slash])
    /\ forall compiled : list (Ability Callback),
         validateClick (returns_array [spec_slash; to_spec slash]) compiled
         = [slash; slash].
Proof.
  apply (compile_success (returns_array [spec_slash; to_spec slash]) [slash; slash]).
  assert (E : Ability_make (to_spec slash) = Ok slash).
  { rewrite Ability_make_to_spec. simpl.
    destruct (Rle_dec (12 / 10) 0); [lra|]. by destruct (Rlt_dec 20 0); [lra|]. }
  cbn [compileAbilities validate_all make_all].
  by rewrite spec_slash_ok, E.
Defined.



(** ** The arena object *)

Lemma respawn_idem {CB} p (f : Fighter CB) : respawn p (respawn p f) = respawn p f.
Proof. reflexivity. Qed.

Lemma hypot_0_r a : hypot a 0 = Rabs a.
Proof.
  unfold hypot. replace (a * a + 0 * 0) with (Rsqr a) by (unfold Rsqr; ring).
  apply sqrt_Rsqr_abs.
Qed.

(** X20.  [Arena.reset] empties the projectiles and keeps the number of
    fighters; it gives the first two fighters their base hp and the spawn
    places 220px to the left and to the right of the middle of the
    canvas, and changes nothing else: their velocity, DoT records,
    immunities, freeze and cooldowns are those of before, and a third or
    later fighter is untouched.  Resetting what a reset has produced
    changes nothing, so the Reset button pressed twice does what it does
    pressed once. *)
Theorem reset_respawns {CB} (fs : list (Fighter CB)) (a : Arena CB) :
  let a' := Arena_reset fs a in
  let spot (i : nat) := mkvec (width (cv a) / 2 + match i with O => -220 | _ => 220 end)
                              (height (cv a) / 2) in
  projectiles (world a') = []
  /\ length (fighters (world a')) = length fs
  /\ (forall i f, fs !! i = Some f ->
        exists f', fighters (world a') !! i = Some f'
          /\ stats f' = stats f /\ abilities f' = abilities f
          /\ vel (state f') = vel (state f) /\ facing (state f') = facing (state f)
          /\ dots (state f') = dots (state f)
          /\ immunities (state f') = immunities (state f)
          /\ freeze (state f') = freeze (state f) /\ cd (state f') = cd (state f)
          /\ ((i < 2)%nat -> hp (state f') = stat_hp (stats f) /\ pos (state f') = spot i)
          /\ ((2 <= i)%nat -> f' = f))
  /\ Arena_reset (fighters (world a')) a' = a'
  /\ forall p : Page CB, resetClick (resetClick p) = resetClick p.
Proof.
  assert (Hidem : forall (gs : list (Fighter CB)) (b : Arena CB),
             Arena_reset (fighters (world (Arena_reset gs b))) (Arena_reset gs b)
             = Arena_reset gs b).
  { intros gs b. by destruct gs as [|f0 [|f1 rest]]. }
  simpl. split; [done|]. split.
  { by destruct fs as [|f0 [|f1 rest]]. }
  split; [|split; [apply Hidem|]].
  - intros i f Hi. destruct fs as [|f0 [|f1 rest]]; [done| |].
    + destruct i as [|i]; [|done]. injection Hi as ->.
      eexists. split; [reflexivity|]. simpl.
      repeat split; try done; try lia; try (f_equal; lra).
    + destruct i as [|[|i]].
      * injection Hi as ->. eexists. split; [reflexivity|]. simpl.
        repeat split; try done; try lia; try (f_equal; lra).
      * injection Hi as ->. eexists. split; [reflexivity|]. simpl.
        repeat split; try done; lia.
      * exists f. split; [exact Hi|]. repeat split; try done; lia.
  - intros p. unfold resetClick. simpl. f_equal.
    apply (Hidem (fighters (world (arena p))) (Arena_pause (arena p))).
Qed.

Lemma reset_respawns_witness :
  exists f', fighters (world (Arena_reset [worn] (Arena_init canvas0 0))) !! 0%nat = Some f'
    /\ hp (state f') = 100 /\ pos (state f') = mkvec 180 240
    /\ dots (state f') = [mkDot 2 3 0 magical] /\ freeze (state f') = 4 / 10.
Proof.
  destruct (reset_respawns [worn] (Arena_init canvas0 0)) as (_ & _ & H & _).
  destruct (H 0%nat worn eq_refl)
    as (f' & Hf & _ & _ & _ & _ & Hd & _ & Hfr & _ & Hp & _).
  destruct (Hp ltac:(lia)) as [Hhp Hpos].
  exists f'. split; [exact Hf|]. split; [exact Hhp|]. split; [|split; [exact Hd | exact Hfr]].
  rewrite Hpos. simpl. f_equal; lra.
Defined.

(** X21.  After [Arena.init] and a reset with two fighters, the two stand
    440px apart, at the same distance from the middle of the arena; both
    spawn places lie within the bounds of the arena exactly when the
    canvas is at least 520 wide and 80 high. *)
Theorem spawn_places {CB} (canvas : Canvas) (now : R) (fA fB : Fighter CB) :
  let a := Arena_reset [fA; fB] (Arena_init canvas now) in
  exists gA gB, fighters (world a) = [gA; gB]
    /\ dist (pos (state gA)) (pos (state gB)) = 440
    /\ X (pos (state gA)) + X (pos (state gB))
       = 2 * (b_x (bounds (world a)) + b_w (bounds (world a)) / 2)
    /\ (in_bounds (bounds (world a)) (pos (state gA))
        /\ in_bounds (bounds (world a)) (pos (state gB))
        <-> 520 <= width canvas /\ 80 <= height canvas).
Proof.
  simpl. eexists. eexists. split; [reflexivity|]. simpl. split; [|split].
  - unfold dist. simpl.
    replace (width canvas / 2 - 220 - (width canvas / 2 + 220)) with (-440) by lra.
    replace (height canvas / 2 - height canvas / 2) with 0 by lra.
    rewrite hypot_0_r. rewrite Rabs_left by lra. lra.
  - lra.
  - unfold in_bounds. simpl. split; intros; lra.
Qed.

Lemma spawn_places_witness :
  in_bounds (bounds (world (Arena_reset [worn; worn] (Arena_init canvas0 0))))
    (mkvec 180 240).
Proof.
  destruct (spawn_places canvas0 0 worn worn) as (gA & gB & Hfs & _ & _ & Hin).
  injection Hfs as <- <-.
  assert (H : 520 <= width canvas0 /\ 80 <= height canvas0) by (simpl; lra).
  destruct (proj2 Hin H) as [HA _]. simpl in HA.
  replace (mkvec 180 240) with (mkvec (800 / 2 - 220) (480 / 2)) by (f_equal; lra).
  exact HA.
Defined.

Lemma last_nonempty (x : R) l d d' : List.last (x :: l) d = List.last (x :: l) d'.
Proof.
  revert x. induction l as [|y l IH]; intros x; [done|].
  change (List.last (y :: l) d = List.last (y :: l) d'). apply IH.
Qed.

(** X22.  While the arena is paused the frames change nothing but the
    time of the last frame: whatever their number and times, fighters and
    projectiles are as they were, and the arena is still paused.  The
    time spent paused is not simulated afterwards: the first frame after
    [start] runs one tick, of the time since the last paused frame and of
    at most 0.033s. *)
Theorem paused_frames {CB} `{Script CB} (nows : list R) (a : Arena CB) :
  running a = false ->
  let a' := mkArena (cv a) (List.last nows (last a)) false (world a) in
  runFrames nows a = Some a'
  /\ forall fuel t,
       exists dt, dt = Rmin (33 / 1000) (t - List.last nows (last a))
         /\ dt <= 33 / 1000
         /\ Arena_loop fuel t (Arena_start a')
            = match tick fuel dt (world a) with
              | Some w => Some (mkArena (cv a) t true w)
              | None => None
              end.
Proof.
  intros Hp. simpl. split.
  - revert a Hp. induction nows as [|t nows IH]; intros a Hp.
    + simpl. destruct a; simpl in *. by rewrite Hp.
    + change (runFrames (t :: nows) a)
        with (match Arena_loop (length (projectiles (world a))) t a with
              | Some a' => runFrames nows a'
              | None => None
              end).
      unfold Arena_loop. rewrite Hp. rewrite IH by done. simpl.
      do 2 f_equal. destruct nows as [|t' nows]; [done|].
      apply last_nonempty.
  - intros fuel t. eexists. split; [reflexivity|]. split; [apply Rmin_l | done].
Qed.

Lemma paused_frames_witness :
  runFrames [1; 2; 3] (Arena_reset [worn; worn] (Arena_init canvas0 0))
  = Some (mkArena canvas0 3 false
            (world (Arena_reset [worn; worn] (Arena_init canvas0 0)))).
Proof.
  apply (paused_frames [1; 2; 3] (Arena_reset [worn; worn] (Arena_init canvas0 0))).
  reflexivity.
Defined.



(** ** Freeze *)





(** ** The stats editor *)

Lemma set_key_data e kv : data (set_key e kv) = data e.
Proof.
  unfold set_key. destruct (decide _); [done|]. by destruct (decide _).
Qed.

Lemma set_key_fly e kv : kv.1 <> "canFly" -> flyEl (set_key e kv) = flyEl e.
Proof.
  intros Hk. unfold set_key. destruct (decide _); [done|]. by destruct (decide _).
Qed.

Lemma field_nonzero e k d : d <> 0 -> field e k d <> 0.
Proof.
  intros Hd. unfold field. destruct (data e !! k) as [v|]; [|done].
  unfold js_or. by destruct (Req_dec_T v 0).
Qed.

Lemma StatsEditor_set_data obj e : data (StatsEditor_set obj e) = data e.
Proof.
  unfold StatsEditor_set. revert e. induction obj as [|kv obj IH]; intros e; [done|].
  simpl. by rewrite IH, set_key_data.
Qed.

Lemma StatsEditor_set_fly obj e :
  "canFly" ∉ obj.*1 -> flyEl (StatsEditor_set obj e) = flyEl e.
Proof.
  unfold StatsEditor_set. revert e. induction obj as [|kv obj IH]; intros e Hk; [done|].
  simpl in *. apply not_elem_of_cons in Hk as [Hk Hobj].
  rewrite IH by done. by apply set_key_fly.
Qed.

(** X25.  [set] of the stats editor writes the inputs shown and the fly
    checkbox, not the numbers [get] reads: after [set(obj)], as on an
    import, [get] returns the numbers it returned before, and [canFly] is
    the only field an import changes (it is kept when [obj] has no key
    [canFly]).  The hp, the movement speed and the attack speed that [get]
    returns are never 0. *)
Theorem stats_set_get (obj : list (string * Json)) (e : StatsEditor) :
  let s := StatsEditor_get e in
  let s' := StatsEditor_get (StatsEditor_set obj e) in
  s' = mkStats (stat_hp s) (physicalStrength s) (physicalResistance s)
         (magicalPower s) (magicalResistance s) (moveSpeed s) (attackSpeed s)
         (canFly s')
  /\ ("canFly" ∉ obj.*1 -> canFly s' = canFly s)
  /\ stat_hp s' <> 0 /\ moveSpeed s' <> 0 /\ attackSpeed s' <> 0.
Proof.
  simpl. split; [|split].
  - unfold StatsEditor_get, field. by rewrite StatsEditor_set_data.
  - apply StatsEditor_set_fly.
  - repeat split; apply field_nonzero; lra.
Qed.

Lemma stats_set_get_witness :
  StatsEditor_get (StatsEditor_set stats_json StatsEditor_init)
  = mkStats 100 10 20 10 20 120 1 true
  /\ canFly (StatsEditor_get (StatsEditor_set [("hp", JNumber 250)] StatsEditor_init))
     = false.
Proof.
  split.
  - destruct (stats_set_get stats_json StatsEditor_init) as (H & _).
    rewrite H. unfold StatsEditor_get, field. simpl.
    repeat (rewrite ?lookup_insert_eq, ?lookup_insert_ne by done).
    unfold js_or.
    repeat match goal with
           | |- context[Req_dec_T ?a 0] => destruct (Req_dec_T a 0); [lra|]
           end.
    reflexivity.
  - apply (stats_set_get [("hp", JNumber 250)] StatsEditor_init).
    simpl. intros Hin. apply elem_of_cons in Hin as [Hin|Hin]; [discriminate | by apply elem_of_nil in Hin].
Defined.

(** ** The sprite editor *)

Lemma fold_insert_seq {A} (g : nat -> A) (n : nat) (px : list A) :
  (n <= length px)%nat ->
  fold_left (fun p i => <[i := g i]> p) (seq 0 n) px = (g <$> seq 0 n) ++ drop n px.
Proof.
  induction n as [|n IH]; intros Hn; [done|].
  rewrite seq_S, fold_left_app, IH by lia. simpl.
  rewrite fmap_app. simpl.
  rewrite insert_app_r_alt by (rewrite length_fmap, length_seq; lia).
  rewrite length_fmap, length_seq, Nat.sub_diag.
  destruct (lookup_lt_is_Some_2 px n) as [y Hy]; [lia|].
  rewrite (drop_S _ _ _ Hy). simpl. by rewrite <- app_assoc.
Qed.

Lemma fmap_seq_take {A} (d : A) (arr : list A) (n : nat) :
  (n <= length arr)%nat -> (fun i => default d (arr !! i)) <$> seq 0 n = take n arr.
Proof.
  induction n as [|n IH]; intros Hn; [done|].
  rewrite seq_S, fmap_app, IH by lia. simpl.
  destruct (lookup_lt_is_Some_2 arr n) as [y Hy]; [lia|].
  by rewrite (take_S_r _ _ _ Hy), Hy.
Qed.

Lemma fmap_seq_const {A} (x : A) (n : nat) : (fun _ => x) <$> seq 0 n = replicate n x.
Proof.
  induction n as [|n IH]; [done|].
  rewrite seq_S, fmap_app, IH. simpl. symmetry. apply replicate_S_end.
Qed.

Lemma fromData_pixels arr e :
  Sprite.pixels (Sprite.fromData arr e)
  = take (length (Sprite.pixels e)) arr ++ drop (length arr) (Sprite.pixels e).
Proof.
  unfold Sprite.fromData, Sprite.setPixel. cbn [Sprite.pixels].
  assert (Hn : (Nat.min (length arr) (length (Sprite.pixels e))
                <= length (Sprite.pixels e))%nat) by lia.
  pose proof (fold_insert_seq (fun i => default None (arr !! i)) _ _ Hn) as E.
  cbv beta in E. rewrite E. clear E.
  rewrite fmap_seq_take by lia.
  destruct (Nat.min_spec (length arr) (length (Sprite.pixels e))) as [[Hlt ->]|[Hle ->]].
  - by rewrite !take_ge by lia.
  - by rewrite !drop_ge by lia.
Qed.

Lemma clear_pixels e :
  Sprite.pixels (Sprite.clear e) = replicate (length (Sprite.pixels e)) None.
Proof.
  unfold Sprite.clear, Sprite.setPixel. cbn [Sprite.pixels].
  assert (Hn : (length (Sprite.pixels e) <= length (Sprite.pixels e))%nat) by lia.
  pose proof (fold_insert_seq (fun _ => @None string) _ _ Hn) as E.
  cbv beta in E. rewrite E. clear E.
  by rewrite drop_all, app_nil_r, fmap_seq_const.
Qed.

(** X26.  [fromData] overwrites the first pixels with the array and keeps
    the rest: the pixels become the first [pixels.length] elements of the
    array followed by the pixels beyond the length of the array, so their
    number does not change.  Loading what [toData] returns changes
    nothing, an array of the length of the grid is returned by [toData] as
    it was loaded, an empty array (an import without sprite) leaves the
    drawing as it is, and [clear] sets every pixel to null. *)
Theorem sprite_fromData (arr : list (option string)) (e : Sprite.Editor) :
  Sprite.toData (Sprite.fromData arr e)
  = take (length (Sprite.pixels e)) arr ++ drop (length arr) (Sprite.pixels e)
  /\ length (Sprite.toData (Sprite.fromData arr e)) = length (Sprite.pixels e)
  /\ Sprite.fromData (Sprite.toData e) e = e
  /\ (length arr = length (Sprite.pixels e) -> Sprite.toData (Sprite.fromData arr e) = arr)
  /\ Sprite.fromData [] e = e
  /\ Sprite.toData (Sprite.clear e) = replicate (length (Sprite.pixels e)) None.
Proof.
  unfold Sprite.toData. pose proof (fromData_pixels arr e) as Hp.
  split; [done|]. split; [|split; [|split; [|split]]].
  - rewrite Hp, length_app, length_take, length_drop. lia.
  - pose proof (fromData_pixels (Sprite.pixels e) e) as Hq.
    rewrite take_ge, drop_ge, app_nil_r in Hq by lia.
    destruct e as [px t c]. unfold Sprite.fromData in *. simpl in *. by rewrite Hq.
  - intros Hlen. rewrite Hp. rewrite take_ge, drop_ge, app_nil_r by lia. done.
  - by destruct e.
  - apply clear_pixels.
Qed.

Lemma sprite_fromData_witness :
  Sprite.toData (Sprite.fromData (replicate 256 (Some "#ff0000")) (Sprite.init "#000000"))
  = replicate 256 (Some "#ff0000").
Proof.
  apply (sprite_fromData (replicate 256 (Some "#ff0000")) (Sprite.init "#000000")).
  reflexivity.
Defined.

Lemma step_length e ev :
  length (Sprite.pixels (Sprite.step e ev)) = length (Sprite.pixels e).
Proof.
  destruct ev as [t| |arr|i|i pressed|c]; unfold Sprite.step; try done.
  - by rewrite clear_pixels, length_replicate.
  - rewrite fromData_pixels, length_app, length_take, length_drop. lia.
  - unfold Sprite.mousedown, Sprite.setPixel.
    destruct (Sprite.tool e); simpl; by rewrite ?length_insert.
  - unfold Sprite.mouseenter, Sprite.setPixel.
    destruct pressed; [|done]. destruct (Sprite.tool e); simpl; by rewrite ?length_insert.
Qed.

(** X27.  The sprite editor keeps its 256 pixels through every event.  A
    press changes at most the pixel of the cell pressed.  A press with
    the eyedropper changes no pixel and always returns to the paint tool;
    it picks the colour of the cell when the cell has one and keeps the
    current colour on an empty cell, so that a colour painted into a cell
    is picked back from it whatever colour was chosen in between.  The
    paint tool comes back in no other way than by this press or by
    [setTool("paint")]. *)
Theorem sprite_events (evs : list Sprite.Event) (e : Sprite.Editor) (i : nat) :
  length (Sprite.pixels (Sprite.run evs (Sprite.init (Sprite.colorEl e)))) = 256%nat
  /\ length (Sprite.pixels (Sprite.run evs e)) = length (Sprite.pixels e)
  /\ (forall j, j <> i ->
        Sprite.pixels (Sprite.mousedown i e) !! j = Sprite.pixels e !! j)
  /\ (Sprite.tool e = Sprite.eyedrop ->
        Sprite.pixels (Sprite.mousedown i e) = Sprite.pixels e
        /\ Sprite.tool (Sprite.mousedown i e) = Sprite.paint
        /\ (Sprite.is_colour (Sprite.getColor i e) = false ->
            Sprite.colorEl (Sprite.mousedown i e) = Sprite.colorEl e))
  /\ (Sprite.tool e = Sprite.paint -> (i < length (Sprite.pixels e))%nat ->
        Sprite.colorEl e <> "" ->
        forall c,
          Sprite.run [Sprite.ev_mousedown i; Sprite.ev_colour c;
                      Sprite.ev_setTool Sprite.eyedrop; Sprite.ev_mousedown i] e
          = Sprite.mkEditor (<[i := Some (Sprite.colorEl e)]> (Sprite.pixels e))
              Sprite.paint (Sprite.colorEl e))
  /\ (forall ev, Sprite.tool (Sprite.step e ev) = Sprite.paint ->
        Sprite.tool e = Sprite.paint \/ ev = Sprite.ev_setTool Sprite.paint
        \/ (Sprite.tool e = Sprite.eyedrop /\ exists j, ev = Sprite.ev_mousedown j)).
Proof.
  assert (Hlen : forall evs e0,
             length (Sprite.pixels (Sprite.run evs e0)) = length (Sprite.pixels e0)).
  { clear. intros evs. unfold Sprite.run.
    induction evs as [|ev evs IH]; intros e0; [done|].
    simpl. by rewrite IH, step_length. }
  split; [by rewrite Hlen|]. split; [apply Hlen|].
  split; [|split; [|split]].
  - intros j Hj. unfold Sprite.mousedown, Sprite.setPixel.
    destruct (Sprite.tool e); simpl; try done; by rewrite list_lookup_insert_ne.
  - intros Ht. unfold Sprite.mousedown. rewrite Ht. simpl.
    repeat split. by intros ->.
  - intros Ht Hi Hc c. unfold Sprite.run. simpl.
    unfold Sprite.mousedown at 2. rewrite Ht. simpl.
    unfold Sprite.mousedown, Sprite.getColor, Sprite.setPixel. simpl.
    rewrite list_lookup_insert_eq by done. simpl.
    by destruct (decide (Sprite.colorEl e = "")).
  - intros ev Hev. destruct ev as [t| |arr|j|j pressed|c]; simpl in Hev.
    + right. left. by rewrite Hev.
    + by left.
    + by left.
    + destruct (Sprite.tool e) eqn:Et.
      * by left.
      * unfold Sprite.mousedown in Hev. rewrite Et in Hev. simpl in Hev. congruence.
      * right. right. split; [done|]. by exists j.
    + destruct (Sprite.tool e) eqn:Et; [by left| |].
      * unfold Sprite.mouseenter in Hev. destruct pressed;
          [rewrite Et in Hev; simpl in Hev|]; congruence.
      * unfold Sprite.mouseenter in Hev. destruct pressed;
          [rewrite Et in Hev; simpl in Hev|]; congruence.
    + by left.
Qed.

Lemma sprite_events_witness :
  Sprite.pixels (Sprite.mousedown 5 (Sprite.setTool Sprite.eyedrop (Sprite.init "#00ff00")))
  = Sprite.pixels (Sprite.setTool Sprite.eyedrop (Sprite.init "#00ff00"))
  /\ Sprite.run [Sprite.ev_mousedown 5; Sprite.ev_colour "#123456";
                 Sprite.ev_setTool Sprite.eyedrop; Sprite.ev_mousedown 5]
       (Sprite.init "#00ff00")
     = Sprite.mkEditor (<[5%nat := Some "#00ff00"]> (Sprite.pixels (Sprite.init "#00ff00")))
         Sprite.paint "#00ff00".
Proof.
  split.
  - apply (sprite_events [] (Sprite.setTool Sprite.eyedrop (Sprite.init "#00ff00")) 5).
    reflexivity.
  - apply (proj1 (proj2 (proj2 (proj2 (proj2
             (sprite_events [] (Sprite.init "#00ff00") 5)))))).
    + reflexivity.
    + simpl. lia.
    + discriminate.
Defined.

(** ** Distances *)

Lemma hypot_sqr a b : hypot a b * hypot a b = a * a + b * b.
Proof. unfold hypot. apply sqrt_sqrt. nra. Qed.

Lemma hypot_triangle a b c d : hypot (a + c) (b + d) <= hypot a b + hypot c d.
Proof.
  pose proof (hypot_nonneg a b) as HU. pose proof (hypot_nonneg c d) as HV.
  pose proof (hypot_sqr a b) as EU. pose proof (hypot_sqr c d) as EV.
  set (U := hypot a b) in *. set (V := hypot c d) in *.
  assert (Hdot : a * c + b * d <= U * V).
  { destruct (Rle_dec (a * c + b * d) (U * V)) as [|Hn]; [done|]. exfalso.
    assert (H1 : 0 <= U * V) by (by apply Rmult_le_pos).
    assert (H2 : (U * V) * (U * V) < (a * c + b * d) * (a * c + b * d)) by nra.
    assert (H3 : (U * V) * (U * V) = (a * a + b * b) * (c * c + d * d)).
    { rewrite <- EU, <- EV. ring. }
    pose proof (Rle_0_sqr (a * d - b * c)) as H4. unfold Rsqr in H4. nra. }
  rewrite <- (sqrt_square (U + V)) by lra.
  unfold hypot. apply sqrt_le_1_alt. nra.
Qed.

(** X28.  [dist] is a distance: it is the square root of [dist2], never
    negative, 0 exactly between equal points, the same in both
    directions, and no longer by way of a third point.  So two fighters
    that are both within the hit radius of one projectile are less than
    36px apart. *)
Theorem dist_metric (a b c : vec) :
  dist a b = sqrt (dist2 a b) /\ dist a b * dist a b = distsq a b
  /\ 0 <= dist a b
  /\ (dist a b = 0 <-> a = b)
  /\ dist a b = dist b a
  /\ dist a b <= dist a c + dist c b
  /\ (dist c a < hit_radius -> dist c b < hit_radius -> dist a b < 36).
Proof.
  assert (Htri : dist a b <= dist a c + dist c b).
  { unfold dist.
    replace (X a - X b) with ((X a - X c) + (X c - X b)) by ring.
    replace (Y a - Y b) with ((Y a - Y c) + (Y c - Y b)) by ring.
    apply hypot_triangle. }
  split; [done|]. split; [apply hypot_sqr|]. split; [apply hypot_nonneg|].
  split; [|split; [apply dist_sym|split; [done|]]].
  - split.
    + intros H0. pose proof (hypot_sqr (X a - X b) (Y a - Y b)) as E.
      unfold dist in H0. rewrite H0 in E.
      assert (X a - X b = 0 /\ Y a - Y b = 0) as [Hx Hy].
      { pose proof (Rle_0_sqr (X a - X b)) as H1. pose proof (Rle_0_sqr (Y a - Y b)) as H2.
        unfold Rsqr in *. split; nra. }
      destruct a, b. simpl in *. f_equal; lra.
    + intros ->. unfold dist. rewrite !Rminus_diag. apply hypot_0.
  - unfold hit_radius. rewrite (dist_sym c a). lra.
Qed.

Lemma dist_metric_witness :
  dist (mkvec 100 100) (mkvec 110 100) < 36.
Proof.
  apply (dist_metric (mkvec 100 100) (mkvec 110 100) (mkvec (10358 / 100) 100)).
  - unfold hit_radius, dist. apply hypot_lt; [lra|]. simpl. lra.
  - unfold hit_radius, dist. apply hypot_lt; [lra|]. simpl. lra.
Defined.

(** * Rounded arithmetic *)

Lemma elapsed_app dts dts' : elapsed (dts ++ dts') = elapsed dts + elapsed dts'.
Proof. induction dts as [|dt dts IH]; simpl; [lra|]. rewrite IH. lra. Qed.

Lemma elapsed_replicate n x : elapsed (replicate n x) = INR n * x.
Proof.
  induction n as [|n IH]; [simpl; lra|].
  change (elapsed (replicate (S n) x)) with (x + elapsed (replicate n x)).
  rewrite IH, S_INR. lra.
Qed.

Section Rounded.
Variables (eps eta : R) (rnd : R -> R).
Hypothesis Hr : rounding eps eta rnd.
Hypothesis Heps : 0 <= eps <= 1 / 100.
Hypothesis Heta : 0 <= eta <= 1 / 100.

Lemma rnd_0 : rnd 0 = 0.
Proof. apply (rnd_int _ _ _ Hr 0). simpl. lia. Qed.

Lemma rnd_1 : rnd 1 = 1.
Proof. apply (rnd_int _ _ _ Hr 1). simpl. lia. Qed.


Lemma rnd_nonpos x : x <= 0 -> rnd x <= 0.
Proof. intros Hx. rewrite <- rnd_0. by apply (rnd_mono _ _ _ Hr). Qed.




(** ** A DoT record under rounding *)








End Rounded.

(** ** Roundings *)

Lemma id_rounding eps eta : 0 <= eps -> 0 <= eta -> rounding eps eta (fun x => x).
Proof.
  intros He Ht. split; try done.
  intros x. rewrite Rminus_diag, Rabs_R0. pose proof (Rabs_pos x). nra.
Qed.

Lemma snap_rounding : rounding (1 / 500) 0 snap.
Proof.
  split.
  - intros x y Hxy. unfold snap.
    destruct (Rle_dec _ x), (Rle_dec _ y); repeat destruct (Rle_dec _ 1); lra.
  - intros x. unfold snap.
    destruct (Rle_dec _ x); [destruct (Rle_dec x 1)|].
    + rewrite (Rabs_pos_eq x) by lra. rewrite Rabs_pos_eq by lra. lra.
    + rewrite Rminus_diag, Rabs_R0. pose proof (Rabs_pos x). lra.
    + rewrite Rminus_diag, Rabs_R0. pose proof (Rabs_pos x). lra.
  - intros x. unfold snap.
    destruct (Rle_dec _ x); [destruct (Rle_dec x 1)|].
    + destruct (Rle_dec _ 1); [|lra]. by destruct (Rle_dec 1 1); [|lra].
    + destruct (Rle_dec _ x); [|lra]. by destruct (Rle_dec x 1).
    + by destruct (Rle_dec _ x).
  - intros z _. unfold snap.
    destruct (Rle_dec _ (IZR z)) as [H1|]; [|done].
    destruct (Rle_dec (IZR z) 1) as [H2|]; [|done].
    assert (0 < z < 2)%Z as Hz.
    { split; [apply lt_IZR; lra | apply lt_IZR; lra]. }
    by replace z with 1%Z by lia.
Qed.


(** ** Damage over time (C2) *)







(** ** Timers that run down under rounding *)

Section Timers.
Variables (eps eta : R) (rnd : R -> R).
Hypothesis Hr : rounding eps eta rnd.
Hypothesis Heps : 0 <= eps.
Hypothesis Heta : 0 <= eta.

Lemma rnd_sub_near v dt V D :
  0 < v <= V -> 0 <= dt <= D ->
  Rabs (rnd (v - dt) - (v - dt)) <= eps * Rmax V D + eta.
Proof.
  intros Hv Hdt. pose proof (rnd_err _ _ _ Hr (v - dt)) as He.
  assert (Hb : Rabs (v - dt) <= Rmax V D).
  { pose proof (Rmax_l V D). pose proof (Rmax_r V D).
    unfold Rabs. destruct (Rcase_abs _); lra. }
  assert (eps * Rabs (v - dt) <= eps * Rmax V D) by (by apply Rmult_le_compat_l).
  lra.
Qed.

Section Countdown.
Variable step : R -> R -> R.
Variables (V D : R).
Hypothesis step_live : forall dt v,
  0 < v <= V -> rnd v = v -> 0 <= dt <= D ->
  step dt v <= v /\ rnd (step dt v) = step dt v
  /\ (0 < step dt v -> Rabs (step dt v - (v - dt)) <= eps * Rmax V D + eta)
  /\ (step dt v <= 0 -> v - dt <= eps * Rmax V D + eta).
Hypothesis step_dead : forall dt v, v <= 0 -> 0 <= dt -> step dt v <= 0.

Lemma countdown_dead dts : forall v,
  v <= 0 -> Forall (fun dt => 0 <= dt <= D) dts ->
  fold_left (fun x dt => step dt x) dts v <= 0.
Proof.
  induction dts as [|dt dts IH]; intros v Hv Hdts; simpl; [done|].
  apply Forall_cons in Hdts as [Hdt Hdts]. apply IH; [|done].
  apply step_dead; lra.
Qed.

(** A timer that each step takes [dt] off, rounded: it never goes up, it
    is still running as long as the steps sum to less than the timer
    minus the rounding allowance, where it is the timer minus the time
    elapsed up to that allowance, and it has run out once they sum to the
    timer plus the allowance. *)
Lemma countdown dts : forall v,
  0 < v <= V -> rnd v = v -> Forall (fun dt => 0 <= dt <= D) dts ->
  fold_left (fun x dt => step dt x) dts v <= v
  /\ (elapsed dts + INR (length dts) * (eps * Rmax V D + eta) < v ->
      0 < fold_left (fun x dt => step dt x) dts v
      /\ Rabs (fold_left (fun x dt => step dt x) dts v - (v - elapsed dts))
         <= INR (length dts) * (eps * Rmax V D + eta))
  /\ (v + INR (length dts) * (eps * Rmax V D + eta) <= elapsed dts ->
      fold_left (fun x dt => step dt x) dts v <= 0).
Proof.
  induction dts as [|dt dts IH]; intros v Hv Hfix Hdts;
    assert (HM : 0 <= eps * Rmax V D + eta) by (pose proof (Rmax_l V D); nra).
  - simpl. split; [lra|]. split; [|lra].
    intros Hlt. split; [lra|]. rewrite Rabs_pos_eq; lra.
  - apply Forall_cons in Hdts as [Hdt Hdts].
    assert (He : 0 <= elapsed dts).
    { apply elapsed_nonneg. eapply Forall_impl; [exact Hdts|]. simpl. intros; lra. }
    pose proof (pos_INR (length dts)) as Hn.
    assert (Hnm : 0 <= INR (length dts) * (eps * Rmax V D + eta))
      by (by apply Rmult_le_pos).
    change (length (dt :: dts)) with (S (length dts)). rewrite S_INR.
    change (elapsed (dt :: dts)) with (dt + elapsed dts).
    change (fold_left (fun x dt0 => step dt0 x) (dt :: dts) v)
      with (fold_left (fun x dt0 => step dt0 x) dts (step dt v)).
    destruct (step_live dt v Hv Hfix Hdt) as (Hle & Hfix1 & Hrun & Hout).
    destruct (Rle_dec (step dt v) 0) as [Hdead|Hlive].
    + pose proof (countdown_dead dts (step dt v) Hdead Hdts) as Hd.
      specialize (Hout Hdead).
      split; [lra|]. split; [intros Hlt; lra | done].
    + assert (H1 : 0 < step dt v <= V) by lra.
      specialize (Hrun ltac:(lra)).
      destruct (IH (step dt v) H1 Hfix1 Hdts) as (IH1 & IH2 & IH3).
      unfold Rabs in Hrun. destruct (Rcase_abs _) in Hrun.
      * split; [lra|]. split.
        { intros Hlt. destruct IH2 as [Hp Ha]; [lra|]. split; [done|].
          unfold Rabs in *. destruct (Rcase_abs _) in Ha; destruct (Rcase_abs _); lra. }
        { intros Hge. apply IH3. lra. }
      * split; [lra|]. split.
        { intros Hlt. destruct IH2 as [Hp Ha]; [lra|]. split; [done|].
          unfold Rabs in *. destruct (Rcase_abs _) in Ha; destruct (Rcase_abs _); lra. }
        { intros Hge. apply IH3. lra. }
Qed.
End Countdown.

(** *** Immunity timers *)

Lemma decay_timer_live V D dt v :
  0 < v <= V -> rnd v = v -> 0 <= dt <= D ->
  Num.decay_timer (rounded rnd) dt v <= v
  /\ rnd (Num.decay_timer (rounded rnd) dt v) = Num.decay_timer (rounded rnd) dt v
  /\ (0 < Num.decay_timer (rounded rnd) dt v ->
      Rabs (Num.decay_timer (rounded rnd) dt v - (v - dt)) <= eps * Rmax V D + eta)
  /\ (Num.decay_timer (rounded rnd) dt v <= 0 -> v - dt <= eps * Rmax V D + eta).
Proof.
  intros Hv Hfix Hdt. unfold Num.decay_timer. simpl.
  rewrite (proj2 (Rltb_true 0 v)) by lra.
  pose proof (rnd_sub_near v dt V D Hv Hdt) as He.
  split; [|split; [apply (rnd_idem _ _ _ Hr)|split]].
  - rewrite <- Hfix at 2. apply (rnd_mono _ _ _ Hr). lra.
  - done.
  - intros Hout. unfold Rabs in He. destruct (Rcase_abs _) in He; lra.
Qed.

Lemma decay_timer_dead dt v : v <= 0 -> 0 <= dt -> Num.decay_timer (rounded rnd) dt v <= 0.
Proof.
  intros Hv _. unfold Num.decay_timer. simpl.
  by rewrite (proj2 (Rltb_false 0 v)) by lra.
Qed.

Lemma decay_timer_stays dts : forall v,
  v <= 0 -> fold_left (fun x dt => Num.decay_timer (rounded rnd) dt x) dts v = v.
Proof.
  induction dts as [|dt dts IH]; intros v Hv; simpl; [done|].
  unfold Num.decay_timer at 2. simpl.
  rewrite (proj2 (Rltb_false 0 v)) by lra. by apply IH.
Qed.

Lemma run_immunities fuel names dts : forall st st' lg k,
  Num.run (rounded rnd) fuel names dts st = Some (st', lg) ->
  Num.imm_get (Num.immunities st') k
  = fold_left (fun x dt => Num.decay_timer (rounded rnd) dt x) dts
      (Num.imm_get (Num.immunities st) k).
Proof.
  induction dts as [|dt dts IH]; intros st st' lg k; simpl.
  - by intros [= <- <-].
  - unfold Num.decay.
    destruct (Num.decay_dots _ _ _ _ _ _) as [[[ds h] l]|]; [|done].
    destruct (Num.run _ _ _ _ _) as [[st2 l2]|] eqn:Er; [|done].
    intros [= <- <-]. rewrite (IH _ _ _ k Er). simpl.
    by destruct (Num.immunities st) as [ph mg bo], k.
Qed.

Lemma run_no_dots_some fuel names dts (st : Num.Status R) :
  Num.dots st = [] -> exists st', Num.run (rounded rnd) fuel names dts st = Some (st', []).
Proof.
  intros Hd. revert st Hd.
  induction dts as [|dt dts IH]; intros st Hd; simpl; [by eexists|].
  unfold Num.decay. rewrite Hd. simpl.
  destruct (IH (Num.mkStatus (Num.hp st) []
                  (Num.decay_immunities (rounded rnd) dt (Num.immunities st))
                  (Num.decay_cooldowns (rounded rnd) dt names (Num.cd st))) eq_refl)
    as [st' ->].
  by eexists.
Qed.

Lemma immune_timer (i : Num.Imm R) k :
  0 < Num.imm_get i k -> Num.isImmune (rounded rnd) i k = true.
Proof.
  intros Hk. destruct i as [ph mg bo]. unfold Num.isImmune.
  destruct k; simpl in *; rewrite (proj2 (Rltb_true 0 _) Hk); done.
Qed.

(** X3.  Under any rounding of the subtraction, an immunity timer runs
    down with the time elapsed through the status decay of successive
    ticks, and never goes up.  As long as the steps sum to less than the
    timer, minus the rounding allowance of [eps × max(timer, D) + eta] a
    tick, the fighter is still immune to the kind and the timer is the
    timer of the start minus the time elapsed, up to that allowance;
    once they sum to the timer plus the allowance the timer is at most
    0.  A timer that is at most 0 is left as it is. *)
Theorem immunity_expires (fuel : nat) (names : list string) (st : Num.Status R)
    (k : DamageKind) (dts : list R) (D : R) :
  let v := Num.imm_get (Num.immunities st) k in
  rnd v = v -> Forall (fun dt => 0 <= dt <= D) dts ->
  let allowance := INR (length dts) * (eps * Rmax v D + eta) in
  (Num.dots st = [] ->
   exists st', Num.run (rounded rnd) fuel names dts st = Some (st', []))
  /\ forall st' lg,
       Num.run (rounded rnd) fuel names dts st = Some (st', lg) ->
       let v' := Num.imm_get (Num.immunities st') k in
       (v <= 0 -> v' = v)
       /\ (0 < v ->
           v' <= v
           /\ (elapsed dts + allowance < v ->
               Rabs (v' - (v - elapsed dts)) <= allowance
               /\ Num.isImmune (rounded rnd) (Num.immunities st') k = true)
           /\ (v + allowance <= elapsed dts -> v' <= 0)).
Proof.
  intros v Hfix Hdts allowance. split; [apply run_no_dots_some|].
  intros st' lg Hrun. simpl. rewrite (run_immunities _ _ _ _ _ _ k Hrun). fold v.
  split; [apply decay_timer_stays|].
  intros Hv.
  destruct (countdown (fun dt x => Num.decay_timer (rounded rnd) dt x) v D
              (decay_timer_live v D) decay_timer_dead dts v ltac:(lra) Hfix Hdts)
    as (H1 & H2 & H3).
  split; [done|]. split; [|done].
  intros Hlt. destruct (H2 Hlt) as [Hp Ha]. split; [done|].
  apply immune_timer. by rewrite (run_immunities _ _ _ _ _ _ k Hrun).
Qed.

(** *** Cooldown timers *)

Lemma cool_live V D dt v :
  0 < v <= V -> rnd v = v -> 0 <= dt <= D ->
  Num.max_zero (rounded rnd) (rnd (v - dt)) <= v
  /\ rnd (Num.max_zero (rounded rnd) (rnd (v - dt)))
     = Num.max_zero (rounded rnd) (rnd (v - dt))
  /\ (0 < Num.max_zero (rounded rnd) (rnd (v - dt)) ->
      Rabs (Num.max_zero (rounded rnd) (rnd (v - dt)) - (v - dt))
      <= eps * Rmax V D + eta)
  /\ (Num.max_zero (rounded rnd) (rnd (v - dt)) <= 0 ->
      v - dt <= eps * Rmax V D + eta).
Proof.
  intros Hv Hfix Hdt. pose proof (rnd_sub_near v dt V D Hv Hdt) as He.
  assert (Hle : rnd (v - dt) <= v).
  { rewrite <- Hfix at 2. apply (rnd_mono _ _ _ Hr). lra. }
  assert (H0 : rnd 0 = 0) by (apply (rnd_int _ _ _ Hr 0); simpl; lia).
  unfold Num.max_zero. simpl. unfold Rltb.
  destruct (Rlt_dec 0 (rnd (v - dt))) as [Hp|Hn].
  - split; [done|]. split; [apply (rnd_idem _ _ _ Hr)|]. split; [done|]. lra.
  - split; [lra|]. split; [done|]. split; [lra|]. intros _.
    unfold Rabs in He. destruct (Rcase_abs _) in He; lra.
Qed.

Lemma cool_dead dt v :
  v <= 0 -> 0 <= dt -> Num.max_zero (rounded rnd) (rnd (v - dt)) <= 0.
Proof.
  intros Hv Hdt. unfold Num.max_zero. simpl. unfold Rltb.
  destruct (Rlt_dec 0 (rnd (v - dt))) as [Hp|Hn]; [|lra].
  assert (H0 : rnd 0 = 0) by (apply (rnd_int _ _ _ Hr 0); simpl; lia).
  assert (rnd (v - dt) <= rnd 0) by (apply (rnd_mono _ _ _ Hr); lra). lra.
Qed.

Lemma cool_nonneg_rnd x : 0 <= Num.max_zero (rounded rnd) x.
Proof. unfold Num.max_zero. simpl. unfold Rltb. destruct (Rlt_dec 0 x); lra. Qed.

Lemma decay_cooldown_timer dt (m : gmap string R) n n' :
  default 0 (Num.decay_cooldown (rounded rnd) dt m n !! n')
  = if decide (n = n')
    then Num.max_zero (rounded rnd) (rnd (default 0 (m !! n) - dt))
    else default 0 (m !! n').
Proof.
  unfold Num.decay_cooldown. simpl. destruct (m !! n) as [c|] eqn:Em.
  - rewrite Em. simpl. rewrite lookup_insert. by destruct (decide (n = n')).
  - rewrite lookup_insert_eq. simpl. rewrite lookup_insert.
    destruct (decide (n = n')) as [->|Hne]; [done|].
    by rewrite lookup_insert_ne.
Qed.

Lemma decay_cooldowns_timer dt names n : forall m,
  default 0 (Num.decay_cooldowns (rounded rnd) dt names m !! n)
  = fold_left (fun x d => Num.max_zero (rounded rnd) (rnd (x - d)))
      (replicate (count_of n names) dt) (default 0 (m !! n)).
Proof.
  unfold Num.decay_cooldowns, count_of.
  induction names as [|a names IH]; intros m; simpl; [done|].
  rewrite IH, decay_cooldown_timer. rewrite filter_cons.
  destruct (decide (a = n)) as [->|Ha]; simpl; [done|].
  by destruct (decide (a = n)).
Qed.

Lemma run_cd fuel names dts n : forall st st' lg,
  Num.run (rounded rnd) fuel names dts st = Some (st', lg) ->
  default 0 (Num.cd st' !! n)
  = fold_left (fun x d => Num.max_zero (rounded rnd) (rnd (x - d)))
      (concat (replicate (count_of n names) <$> dts)) (default 0 (Num.cd st !! n)).
Proof.
  induction dts as [|dt dts IH]; intros st st' lg.
  - simpl. by intros [= <- <-].
  - cbn [Num.run]. unfold Num.decay.
    destruct (Num.decay_dots _ _ _ _ _ _) as [[[ds h] l]|]; [|done].
    destruct (Num.run _ _ _ _ _) as [[st2 l2]|] eqn:Er; [|done].
    intros [= <- <-]. rewrite (IH _ _ _ Er).
    rewrite fmap_cons. cbn [concat Num.cd].
    by rewrite fold_left_app, decay_cooldowns_timer.
Qed.

Lemma elapsed_concat c dts :
  elapsed (concat (replicate c <$> dts)) = INR c * elapsed dts.
Proof.
  induction dts as [|dt dts IH]; [simpl; lra|].
  rewrite fmap_cons. cbn [concat].
  change (elapsed (dt :: dts)) with (dt + elapsed dts).
  rewrite elapsed_app, elapsed_replicate, IH. lra.
Qed.

Lemma length_concat_replicate {A} c (dts : list A) :
  length (concat (replicate c <$> dts)) = (c * length dts)%nat.
Proof.
  induction dts as [|dt dts IH]; [simpl; lia|].
  rewrite fmap_cons. cbn [concat].
  rewrite length_app, length_replicate, IH. simpl. lia.
Qed.

Lemma cool_fold_nonneg l : forall v,
  0 <= v -> 0 <= fold_left (fun x d => Num.max_zero (rounded rnd) (rnd (x - d))) l v.
Proof.
  induction l as [|d l IH]; intros v Hv; simpl; [done|].
  apply IH, cool_nonneg_rnd.
Qed.

(** X9.  Under any rounding of the subtraction, and with no cast in
    between, a cooldown timer that is not negative runs down through the
    status decay of successive ticks, [k] times as fast as the time when
    [k >= 1] abilities carry the name, and is never negative and never
    goes up.  As long as [k] times the time elapsed is less than the
    timer, minus the rounding allowance of [eps × max(timer, D) + eta]
    for each subtraction, the ability is on cooldown and the timer is
    the timer of the start minus [k] times the time elapsed, up to that
    allowance; once [k] times the time elapsed has reached the timer
    plus the allowance the timer is 0 and the ability is ready. *)
Theorem cooldown_runs_down (fuel : nat) (names : list string) (st : Num.Status R)
    (n : string) (dts : list R) (D : R) :
  let v := default 0 (Num.cd st !! n) in
  let k := count_of n names in
  0 <= v -> rnd v = v -> Forall (fun dt => 0 <= dt <= D) dts ->
  let allowance := INR (k * length dts) * (eps * Rmax v D + eta) in
  (Num.dots st = [] ->
   exists st', Num.run (rounded rnd) fuel names dts st = Some (st', []))
  /\ forall st' lg,
       Num.run (rounded rnd) fuel names dts st = Some (st', lg) ->
       let v' := default 0 (Num.cd st' !! n) in
       0 <= v' <= v
       /\ Num.onCooldown (rounded rnd) (Num.cd st') n = Rltb 0 v'
       /\ (INR k * elapsed dts + allowance < v ->
           Rabs (v' - (v - INR k * elapsed dts)) <= allowance
           /\ Num.onCooldown (rounded rnd) (Num.cd st') n = true)
       /\ (v + allowance <= INR k * elapsed dts ->
           v' = 0 /\ Num.onCooldown (rounded rnd) (Num.cd st') n = false).
Proof.
  intros v k Hv Hfix Hdts allowance. split; [apply run_no_dots_some|].
  intros st' lg Hrun.
  assert (Hon : Num.onCooldown (rounded rnd) (Num.cd st') n
                = Rltb 0 (default 0 (Num.cd st' !! n))).
  { unfold Num.onCooldown. destruct (Num.cd st' !! n); simpl; [done|].
    symmetry. apply Rltb_false. lra. }
  simpl. rewrite Hon. rewrite (run_cd _ _ _ n _ _ _ Hrun). fold v k.
  set (l := concat (replicate k <$> dts)).
  assert (Hl : Forall (fun dt => 0 <= dt <= D) l).
  { unfold l. clear -Hdts. induction Hdts as [|dt dts Hdt _ IH]; [done|].
    rewrite fmap_cons. cbn [concat].
    apply Forall_app. split; [by apply Forall_replicate | done]. }
  assert (El : elapsed l = INR k * elapsed dts) by apply elapsed_concat.
  assert (Ll : length l = (k * length dts)%nat) by apply length_concat_replicate.
  pose proof (cool_fold_nonneg l v Hv) as Hnn.
  destruct (Rle_dec v 0) as [H0|Hpos].
  - assert (Hd : fold_left (fun x d => Num.max_zero (rounded rnd) (rnd (x - d))) l v <= 0).
    { apply (countdown_dead (fun d x => Num.max_zero (rounded rnd) (rnd (x - d))) D);
        [apply cool_dead | done | done]. }
    split; [lra|]. split; [done|]. split.
    + intros Hlt. exfalso.
      assert (0 <= elapsed dts).
      { apply elapsed_nonneg. eapply Forall_impl; [exact Hdts|]. simpl. intros; lra. }
      assert (0 <= allowance).
      { unfold allowance. apply Rmult_le_pos; [apply pos_INR|].
        pose proof (Rmax_l v D).
        assert (0 <= Rmax v D) by lra. nra. }
      pose proof (pos_INR k). nra.
    + intros _. split; [lra|]. apply Rltb_false. lra.
  - destruct (countdown (fun d x => Num.max_zero (rounded rnd) (rnd (x - d))) v D
                (cool_live v D) cool_dead l v ltac:(lra) Hfix Hl)
      as (H1 & H2 & H3).
    rewrite El, Ll in H2, H3. fold allowance in H2, H3.
    split; [lra|]. split; [done|]. split.
    + intros Hlt. destruct (H2 Hlt) as [Hp Ha]. split; [done|].
      by apply Rltb_true.
    + intros Hge. specialize (H3 Hge). split; [lra|]. apply Rltb_false. lra.
Qed.

(** *** The ttl of a projectile *)

Lemma flight_timer dts : forall v,
  0 < v ->
  Num.flight (rounded rnd) dts v
  = (let x := fold_left (fun x dt => Num.decay_timer (rounded rnd) dt x) dts v in
     if Rlt_dec 0 x then Some x else None).
Proof.
  induction dts as [|dt dts IH]; intros v Hv.
  - simpl. by destruct (Rlt_dec 0 v).
  - assert (Ed : Num.decay_timer (rounded rnd) dt v = rnd (v - dt)).
    { unfold Num.decay_timer. simpl. by rewrite (proj2 (Rltb_true 0 v)). }
    cbn [Num.flight fold_left]. rewrite Ed.
    cbn [Num.sub Num.leb Num.zero rounded].
    unfold Rleb. destruct (Rle_dec (rnd (v - dt)) 0) as [Hd|Hl].
    + cbv zeta. rewrite decay_timer_stays by done. by destruct (Rlt_dec 0 _); [lra|].
    + apply IH. lra.
Qed.

Lemma flight_rounded dts v D :
  0 < v -> rnd v = v -> Forall (fun dt => 0 <= dt <= D) dts ->
  let allowance := INR (length dts) * (eps * Rmax v D + eta) in
  (elapsed dts + allowance < v ->
   exists x, Num.flight (rounded rnd) dts v = Some x
             /\ 0 < x /\ Rabs (x - (v - elapsed dts)) <= allowance)
  /\ (v + allowance <= elapsed dts -> Num.flight (rounded rnd) dts v = None).
Proof.
  intros Hv Hfix Hdts. simpl. rewrite flight_timer by done. simpl.
  destruct (countdown (fun dt x => Num.decay_timer (rounded rnd) dt x) v D
              (decay_timer_live v D) decay_timer_dead dts v ltac:(lra) Hfix Hdts)
    as (_ & H2 & H3).
  split.
  - intros Hlt. destruct (H2 Hlt) as [Hp Ha].
    destruct (Rlt_dec 0 _); [|done]. by eexists.
  - intros Hge. specialize (H3 Hge). by destruct (Rlt_dec 0 _); [lra|].
Qed.

End Timers.

(** The allowance [countdown_slack] covers the rounding of a countdown in
    every arithmetic at least as fine as a part in [2^41]. *)
Lemma slack_covers eps eta (n : nat) v D :
  0 < v -> 0 <= eps <= / 2 ^ 41 -> 0 <= eta <= Rmax v D / 2 ^ 41 ->
  INR n * (eps * Rmax v D + eta) <= countdown_slack n v D.
Proof.
  intros Hv Heps Heta. unfold countdown_slack.
  pose proof (Rmax_l v D) as HM. pose proof (pos_INR n) as Hn.
  assert (HP : 0 < 2 ^ 40) by (apply pow_lt; lra).
  assert (E : / 2 ^ 41 = / 2 ^ 40 / 2).
  { change (2 ^ 41) with (2 * 2 ^ 40). rewrite Rinv_mult. lra. }
  unfold Rdiv in *. rewrite E in Heps, Heta.
  pose proof (Rinv_0_lt_compat _ HP) as Hi.
  rewrite Rmult_assoc. apply Rmult_le_compat_l; [done|].
  assert (eps * Rmax v D <= / 2 ^ 40 * / 2 * Rmax v D)
    by (apply Rmult_le_compat_r; lra).
  lra.
Qed.

Section FlightRounded.
Context {CB : Type} `{Script CB}.

(** X14.  A live projectile whose straight line stays more than a pixel
    beyond the hit radius of every fighter flies on that line whatever
    the frame rate.  As long as the ticks sum to less than its ttl, by
    more than the allowance for the rounding of the countdown (a part in
    [2^40] of the larger of the ttl and the longest tick, for each
    tick), it is in flight after their projectile phases, at
    [pos + vel × elapsed] with the ttl reduced by the time elapsed; once
    they sum to the ttl plus that allowance it has been removed; in each
    case without any [onHit].  Within the same allowance the countdown
    of the ttl ends the same way under every rounding of the subtraction
    that is at least as fine as a part in [2^41], as binary64 is: the
    projectile is alive with a ttl that is the ttl of the start minus
    the time elapsed, up to the allowance, or has been removed. *)
Theorem projectile_flight (w : World CB) (q : Projectile CB) (dts : list R) (D : R) :
  projectiles w = [q] -> alive q = true -> 0 < ttl q ->
  Forall (fun dt => 0 <= dt <= D) dts ->
  (forall e, 0 <= e -> clear_by 1 w (ray q e)) ->
  let slack := countdown_slack (length dts) (ttl q) D in
  (elapsed dts + slack < ttl q ->
   runProjectiles dts w
   = Some (set_projectiles w [advance (elapsed dts) (age (elapsed dts) q)], [])
   /\ p_pos (advance (elapsed dts) (age (elapsed dts) q)) = ray q (elapsed dts)
   /\ ttl (advance (elapsed dts) (age (elapsed dts) q)) = ttl q - elapsed dts
   /\ alive (advance (elapsed dts) (age (elapsed dts) q)) = true)
  /\ (ttl q + slack <= elapsed dts ->
      runProjectiles dts w = Some (set_projectiles w [], []))
  /\ (forall eps eta rnd,
        rounding eps eta rnd -> 0 <= eps <= / 2 ^ 41 ->
        0 <= eta <= Rmax (ttl q) D / 2 ^ 41 -> rnd (ttl q) = ttl q ->
        (elapsed dts + slack < ttl q ->
         exists x, Num.flight (rounded rnd) dts (ttl q) = Some x
                   /\ 0 < x /\ Rabs (x - (ttl q - elapsed dts)) <= slack)
        /\ (ttl q + slack <= elapsed dts ->
            Num.flight (rounded rnd) dts (ttl q) = None)).
Proof.
  intros Hq Hal Httl Hdts Hclear slack.
  destruct (flight_on_ray w q dts D Hq Hal Httl Hdts Hclear) as [H1 H2].
  split; [exact H1|]. split; [exact H2|].
  intros eps eta rnd Hr Heps Heta Hfix.
  pose proof (slack_covers eps eta (length dts) (ttl q) D Httl Heps Heta) as Hs.
  fold slack in Hs.
  destruct (flight_rounded eps eta rnd Hr ltac:(lra) ltac:(lra) dts (ttl q) D
              Httl Hfix Hdts) as [F1 F2].
  split.
  - intros Hlt. destruct F1 as (x & Hx & Hp & Ha); [lra|].
    exists x. split; [done|]. split; [done | lra].
  - intros Hge. apply F2. lra.
Qed.
End FlightRounded.

(** ** Velocity decay (C9) *)

Lemma factor_product dts :
  fold_right Rmult 1 (Rpower (2 / 10) <$> dts) = Rpower (2 / 10) (elapsed dts).
Proof.
  induction dts as [|dt dts IH]; [simpl; symmetry; apply decay_factor_0|].
  rewrite fmap_cons. cbn [fold_right]. rewrite IH.
  change (elapsed (dt :: dts)) with (dt + elapsed dts).
  apply decay_factor_plus.
Qed.

Lemma hypot_mono a b c d : Rabs a <= Rabs c -> Rabs b <= Rabs d -> hypot a b <= hypot c d.
Proof.
  intros Ha Hb. unfold hypot. apply sqrt_le_1_alt.
  assert (Ea : forall x, x * x = Rabs x * Rabs x).
  { intros x. unfold Rabs. destruct (Rcase_abs x); ring. }
  rewrite (Ea a), (Ea b), (Ea c), (Ea d).
  pose proof (Rabs_pos a). pose proof (Rabs_pos b). nra.
Qed.

Section Friction.
Variables (eps eta : R) (rnd : R -> R).
Hypothesis Hr : rounding eps eta rnd.
Hypothesis Heps : 0 <= eps.
Hypothesis Heta : 0 <= eta.

Lemma scaled_le v k : 0 <= k <= 1 -> rnd v = v -> Rabs (rnd (v * k)) <= Rabs v.
Proof.
  intros Hk Hfix.
  assert (H0 : rnd 0 = 0) by (apply (rnd_int _ _ _ Hr 0); simpl; lia).
  destruct (Rle_dec 0 v) as [Hv|Hv].
  - assert (H1 : rnd 0 <= rnd (v * k)) by (apply (rnd_mono _ _ _ Hr); nra).
    assert (H2 : rnd (v * k) <= rnd v) by (apply (rnd_mono _ _ _ Hr); nra).
    rewrite !Rabs_pos_eq; lra.
  - assert (H1 : rnd (v * k) <= rnd 0) by (apply (rnd_mono _ _ _ Hr); nra).
    assert (H2 : rnd v <= rnd (v * k)) by (apply (rnd_mono _ _ _ Hr); nra).
    rewrite (Rabs_left1 (rnd (v * k))), (Rabs_left1 v); lra.
Qed.

Lemma scaled_lt v k :
  0 <= k <= 1 -> eps * Rabs (v * k) + eta < Rabs v * (1 - k) ->
  Rabs (rnd (v * k)) < Rabs v.
Proof.
  intros Hk Hgap. pose proof (rnd_err _ _ _ Hr (v * k)) as He.
  pose proof (Rabs_triang (rnd (v * k) - v * k) (v * k)) as Ht.
  replace (rnd (v * k) - v * k + v * k) with (rnd (v * k)) in Ht by ring.
  assert (Ek : Rabs (v * k) = Rabs v * k).
  { rewrite Rabs_mult, (Rabs_pos_eq k); lra. }
  lra.
Qed.

Lemma scaled_nonzero v k :
  eps * Rabs (v * k) + eta < Rabs (v * k) -> rnd (v * k) <> 0.
Proof.
  intros Hgap E. pose proof (rnd_err _ _ _ Hr (v * k)) as He.
  rewrite E, Rminus_0_l, Rabs_Ropp in He. lra.
Qed.

End Friction.

(** C9 (amended).  In the movement phase of a tick the velocity of an
    unfrozen fighter is multiplied by [0.2^dt] on both axes, after the
    position has been advanced by velocity × dt (and before it is clamped
    to the bounds).  For [dt > 0] the factor lies strictly between 0 and
    1, and the product of the factors of successive ticks depends on the
    time elapsed only (in exact arithmetic, of which the multiplication
    [Num.friction] of the program is the rounding).  Under any rounding of the multiplication a
    factor [k] between 0 and 1 never increases the velocity, on either
    axis or in magnitude; on an axis the velocity strictly decreases as
    long as the rounding error of the product is smaller than what the
    factor takes from it, and is not zero as long as the rounding error
    is smaller than the product, that is, above the underflow range of
    the arithmetic. *)
Theorem friction_decay {CB} `{Script CB} (dt : R) (me op : nat) (w : World CB)
    (f o : Fighter CB) :
  let s := state f in
  let mr := maxRange (abilities f) in
  let s' := moveStep dt (bounds w) (stats f) mr (pos (state o)) s in
  let p1 := directed dt (stats f) mr (pos (state o)) s in
  (fighters w !! me = Some f -> fighters w !! op = Some o ->
   freeze s <= 0 ->
   aiTurn dt me op w
   = castStep (dist (pos s) (pos (state o))) me op
       (set_fighters w (<[me := with_state f s']> (fighters w))))
  /\ vel s' = mkvec (X (vel s) * Rpower (2 / 10) dt) (Y (vel s) * Rpower (2 / 10) dt)
  /\ pos s' = mkvec (clamp (X p1 + X (vel s) * dt) (b_x (bounds w))
                       (b_x (bounds w) + b_w (bounds w)))
                    (clamp (Y p1 + Y (vel s) * dt) (b_y (bounds w))
                       (b_y (bounds w) + b_h (bounds w)))
  /\ (let v' := Num.friction (rounded (fun x => x)) (Rpower (2 / 10) dt)
                  (X (vel s), Y (vel s)) in
      vel s' = mkvec v'.1 v'.2)
  /\ (0 < dt -> 0 < Rpower (2 / 10) dt < 1)
  /\ (forall dts,
        fold_right Rmult 1 (Rpower (2 / 10) <$> dts) = Rpower (2 / 10) (elapsed dts))
  /\ (forall eps eta rnd k vx vy,
        rounding eps eta rnd -> 0 <= eps -> 0 <= eta ->
        0 <= k <= 1 -> rnd vx = vx -> rnd vy = vy ->
        let v' := Num.friction (rounded rnd) k (vx, vy) in
        Rabs v'.1 <= Rabs vx /\ Rabs v'.2 <= Rabs vy
        /\ hypot v'.1 v'.2 <= hypot vx vy
        /\ (eps * Rabs (vx * k) + eta < Rabs vx * (1 - k) -> Rabs v'.1 < Rabs vx)
        /\ (eps * Rabs (vy * k) + eta < Rabs vy * (1 - k) -> Rabs v'.2 < Rabs vy)
        /\ (eps * Rabs (vx * k) + eta < Rabs (vx * k) -> v'.1 <> 0)
        /\ (eps * Rabs (vy * k) + eta < Rabs (vy * k) -> v'.2 <> 0)).
Proof.
  intros s mr s' p1. split; [|split; [|split; [|split; [|split; [|split]]]]].
  - intros Hme Hop Hfr. unfold aiTurn. rewrite Hme, Hop.
    destruct (Rlt_dec 0 (freeze (state f))); [subst s; lra | done].
  - done.
  - done.
  - done.
  - intros Hdt. split; [apply decay_factor_pos | by apply decay_factor_lt_1].
  - apply factor_product.
  - intros eps eta rnd k vx vy Hr Heps Heta Hk Hx Hy. simpl.
    pose proof (scaled_le eps eta rnd Hr vx k Hk Hx) as Hlx.
    pose proof (scaled_le eps eta rnd Hr vy k Hk Hy) as Hly.
    split; [done|]. split; [done|]. split; [by apply hypot_mono|].
    split; [by apply (scaled_lt eps eta rnd Hr)|].
    split; [by apply (scaled_lt eps eta rnd Hr)|].
    split; by apply (scaled_nonzero eps eta rnd Hr).
Qed.

Lemma friction_decay_witness :
  Rabs (Num.friction (rounded snap) (1 / 5) (50, 0)).1 < Rabs 50
  /\ (Num.friction (rounded snap) (1 / 5) (50, 0)).1 <> 0.
Proof.
  assert (H50 : snap 50 = 50).
  { unfold snap. destruct (Rle_dec _ 50); [|lra]. by destruct (Rle_dec 50 1); [lra|]. }
  assert (H0 : snap 0 = 0).
  { unfold snap. by destruct (Rle_dec _ 0); [lra|]. }
  destruct (friction_decay frame 0 1 shoved knocked fighterB)
    as (_ & _ & _ & _ & _ & _ & Hrnd).
  destruct (Hrnd (1 / 500) 0 snap (1 / 5) 50 0 snap_rounding ltac:(lra) ltac:(lra)
              ltac:(lra) H50 H0)
    as (_ & _ & _ & Hlt & _ & Hnz & _).
  split.
  - apply Hlt. rewrite !Rabs_pos_eq by lra. lra.
  - apply Hnz. rewrite !Rabs_pos_eq by lra. lra.
Defined.

(** C9 as stated fails in the arithmetic of the program: the velocity
    does become exactly zero after finitely many ticks.  With [dt = 1]
    the factor [Math.pow(0.2, 1)] is the number 0.2, and a velocity of 50
    on the x axis, which is not zero after 465 ticks, is exactly zero
    after 466: the product has gone below the smallest number of
    binary64.  From there on it does not decrease any more. *)
Lemma friction_decay_counterexample :
  0 < to_R Binary64.fifth < 1
  /\ PrimFloat.eqb (Nat.iter 465 (Num.friction binary64 Binary64.fifth)
                      Binary64.knocked_back).1 Binary64.n0 = false
  /\ Nat.iter 466 (Num.friction binary64 Binary64.fifth) Binary64.knocked_back
     = Binary64.at_rest
  /\ Nat.iter 467 (Num.friction binary64 Binary64.fifth) Binary64.knocked_back
     = Binary64.at_rest.
Proof.
  split; [|split; [|split]].
  - unfold to_R.
    replace (FloatOps.Prim2SF Binary64.fifth)
      with (SpecFloat.S754_finite false 7205759403792794 (-55))
      by (vm_compute; reflexivity).
    simpl. lra.
  - by vm_compute.
  - by vm_compute.
  - by vm_compute.
Qed.

(** ** The hp floor (C5) *)

Lemma applyEffects_stats {CB} effs c t (w : World CB) :
  stats <$> fighters (applyEffects effs c t w) = stats <$> fighters w.
Proof.
  unfold applyEffects. destruct (fighters w !! c); [|done].
  destruct (fighters w !! t) as [ft|] eqn:Et; [|done]. simpl.
  rewrite list_fmap_insert. simpl. apply list_insert_id.
  by rewrite list_lookup_fmap, Et.
Qed.

Lemma world_timeFreeze_stats {CB} t d (w : World CB) :
  stats <$> fighters (world_timeFreeze t d w) = stats <$> fighters w.
Proof.
  unfold world_timeFreeze. destruct (fighters w !! t) as [ft|] eqn:Et; [|done]. simpl.
  rewrite list_fmap_insert. simpl. apply list_insert_id.
  by rewrite list_lookup_fmap, Et.
Qed.

Lemma exec_hit_stats {CB} self target hit (w : World CB) c :
  stats <$> fighters (exec_hit self target hit w c) = stats <$> fighters w.
Proof.
  destruct c as [effs a b|b du]; simpl.
  - destruct (resolve _ _ _ a); [|done]. destruct (resolve _ _ _ b); [|done].
    apply applyEffects_stats.
  - destruct (resolve _ _ _ b); [|done]. apply world_timeFreeze_stats.
Qed.

Lemma Callback_keeps_stats : keeps_stats Callback.
Proof.
  split.
  - intros [body|body self target] me op w; simpl; [|done].
    revert w. induction body as [|c body IH]; intros w; simpl; [done|].
    rewrite IH. destruct c as [h|spd maxT a b onhit]; simpl.
    + apply exec_hit_stats.
    + destruct (resolve _ _ _ a ≫= _); [|done]. by destruct (resolve _ _ _ b ≫= _).
  - intros [body|body self target] i w; simpl; [done|].
    revert w. induction body as [|c body IH]; intros w; simpl; [done|].
    rewrite IH. apply exec_hit_stats.
Qed.

Lemma world_timeFreeze_hp_le {CB} `{Script CB} t d (w : World CB) :
  Forall2 hp_le (fighters w) (fighters (world_timeFreeze t d w)).
Proof.
  unfold world_timeFreeze. destruct (fighters w !! t) as [ft|] eqn:Et;
    [|apply hp_le_all_refl].
  simpl. apply (hp_le_insert _ _ ft); [done|]. apply hp_le_with_state.
  unfold state_timeFreeze. simpl. lra.
Qed.

Lemma exec_hit_hp_le self target hit (w : World Callback) c :
  nonneg_hit c -> Forall sound_fighter (fighters w) ->
  Forall2 hp_le (fighters w) (fighters (exec_hit self target hit w c))
  /\ projectiles (exec_hit self target hit w c) = projectiles w.
Proof.
  intros Hc Hs. destruct c as [effs a b|b du]; simpl in *.
  - destruct (resolve _ _ _ a); [|split; [apply hp_le_all_refl | done]].
    destruct (resolve _ _ _ b); [|split; [apply hp_le_all_refl | done]].
    split; [by apply applyEffects_hp_le|].
    unfold applyEffects. destruct (fighters w !! _); [|done].
    by destruct (fighters w !! _).
  - destruct (resolve _ _ _ b); [|split; [apply hp_le_all_refl | done]].
    split; [apply world_timeFreeze_hp_le|].
    unfold world_timeFreeze. by destruct (fighters w !! _).
Qed.

Lemma exec_hits_hp_le self target hit body : forall (w : World Callback),
  Forall nonneg_hit body -> Forall sound_fighter (fighters w) ->
  Forall2 hp_le (fighters w) (fighters (fold_left (exec_hit self target hit) body w))
  /\ projectiles (fold_left (exec_hit self target hit) body w) = projectiles w.
Proof.
  induction body as [|c body IH]; intros w Hb Hs; simpl;
    [split; [apply hp_le_all_refl | done]|].
  apply Forall_cons in Hb as [Hc Hb].
  destruct (exec_hit_hp_le self target hit w c Hc Hs) as [H1 H1'].
  destruct (IH (exec_hit self target hit w c) Hb (sound_all_hp_le _ _ H1 Hs))
    as [H2 H2'].
  split; [by eapply hp_le_all_trans | by rewrite H2'].
Qed.

Lemma exec_calls_hp_le me op body : forall (w : World Callback),
  Forall nonneg_call body -> Forall sound_fighter (fighters w) ->
  hits_ok nonneg_callback w ->
  Forall2 hp_le (fighters w) (fighters (fold_left (exec_call me op) body w))
  /\ hits_ok nonneg_callback (fold_left (exec_call me op) body w).
Proof.
  induction body as [|c body IH]; intros w Hb Hs Hh; simpl;
    [split; [apply hp_le_all_refl | done]|].
  apply Forall_cons in Hb as [Hc Hb].
  assert (H1 : Forall2 hp_le (fighters w) (fighters (exec_call me op w c))
               /\ hits_ok nonneg_callback (exec_call me op w c)).
  { destruct c as [h|spd maxT a b onhit]; simpl in *.
    - destruct (exec_hit_hp_le me op None w h Hc Hs) as [H1 H1'].
      split; [done|]. unfold hits_ok. by rewrite H1'.
    - destruct (resolve _ _ _ a ≫= _); [|split; [apply hp_le_all_refl | done]].
      destruct (resolve _ _ _ b ≫= _); [|split; [apply hp_le_all_refl | done]].
      split; [apply hp_le_all_refl|].
      unfold hits_ok, spawnProjectile. simpl. apply Forall_app. split; [done|].
      constructor; [|constructor]. simpl. by intros k [= <-]. }
  destruct H1 as [H1 H1'].
  destruct (IH (exec_call me op w c) Hb (sound_all_hp_le _ _ H1 Hs) H1') as [H2 H2'].
  split; [by eapply hp_le_all_trans | done].
Qed.

(** The callbacks of the script language whose effects have amounts that
    are not negative never raise hp, whatever damage they deal. *)
Lemma Callback_never_raise : never_raise Callback nonneg_callback.
Proof.
  split.
  - intros [body|body self target] me op w Hok Hs Hh; simpl;
      [|split; [apply hp_le_all_refl | done]].
    by apply exec_calls_hp_le.
  - intros [body|body self target] i w Hok Hs Hh; simpl;
      [split; [apply hp_le_all_refl | done]|].
    destruct (exec_hits_hp_le self target (Some i) body w Hok Hs) as [H1 H1'].
    split; [done|]. unfold hits_ok. by rewrite H1'.
Qed.

Section Tick.
Context {CB : Type} `{Script CB}.

(** C5 (amended).  At the end of every tick the hp of every fighter is
    at least 0: the damage applied inside the tick may drive it below,
    and the last pass of the tick sets an hp that is not positive to 0
    and changes nothing else, so that the hp a fighter ends the tick
    with is the larger of 0 and the hp it had before that pass (stated
    for resistances other than -100, where the mitigation divides by
    zero, and callbacks that do not write the stats).  A tick ends
    whenever the [onHit] callbacks spawn no projectile.  The engine has
    no operation that restores hp inside a tick for amounts that are not
    negative: when the resistances, the damage amounts of the abilities
    with the default [onCast] and the dps of the DoT records are not
    negative and the callbacks of the abilities and of the projectiles,
    whatever damage they deal, never raise hp, a tick leaves no fighter
    with more hp than it had, hence a fighter at 0 stays at 0. *)
Theorem hp_floor (ok : CB -> Prop) (dt : R) (w : World CB) :
  (keeps_stats CB -> Forall defined_mitigation (fighters w) ->
   forall fuel w', tick fuel dt w = Some w' ->
     Forall (fun f => 0 <= hp (state f)) (fighters w')
     /\ exists w2 lg,
          projectilePhase fuel dt (decayPhase dt w) = Some (w2, lg)
          /\ projectiles w' = projectiles (aiPhase dt w2).1
          /\ Forall2 (fun f0 f' =>
                        hp (state f') = Rmax 0 (hp (state f0))
                        /\ set_hp (state f') (hp (state f0)) = state f0
                        /\ stats f' = stats f0 /\ abilities f' = abilities f0)
               (fighters (aiPhase dt w2).1) (fighters w'))
  /\ (hits_spawn_nothing CB ->
      exists w', tick (length (projectiles w)) dt w = Some w')
  /\ (never_raise CB ok ->
      Forall sound_fighter (fighters w) -> Forall dots_nonneg (fighters w) ->
      Forall (casts_ok ok) (fighters w) -> hits_ok ok w ->
      forall fuel w', tick fuel dt w = Some w' ->
        Forall2 (fun f f' => hp (state f') <= Rmax 0 (hp (state f))
                             /\ (hp (state f) = 0 -> hp (state f') = 0))
          (fighters w) (fighters w')).
Proof.
  split; [|split].
  - intros _ _ fuel w'. unfold tick.
    destruct (projectilePhase _ _ _) as [[w2 lg]|]; [|done]. intros [= <-].
    split.
    + simpl. apply Forall_fmap, Forall_forall. intros f _. apply hpFloor_nonneg.
    + exists w2, lg. split; [done|]. split; [done|]. simpl.
      apply Forall2_fmap_r, Forall_Forall2_diag, Forall_forall. intros f _.
      split; [apply hpFloor_max|]. unfold hpFloor.
      destruct (Rle_dec (hp (state f)) 0); simpl; [|by destruct (state f)].
      by destruct (state f).
  - intros Hquiet. by apply tick_total.
  - intros Hraise Hs Hd Hc Hh fuel w'. unfold tick, projectilePhase.
    destruct (projLoop _ _ _ _) as [[w1 lg]|] eqn:El; [|done]. intros [= <-].
    pose proof (decayPhase_hp_le dt w Hd) as H1.
    destruct (projLoop_hp_le ok Hraise _ _ _ _ _
                (sound_all_hp_le _ _ H1 Hs) Hh El) as [H2 H2']. simpl in H2, H2'.
    assert (H12 : Forall2 hp_le (fighters w) (fighters (cleanup w1)))
      by (by eapply hp_le_all_trans).
    pose proof (aiPhase_hp_le ok Hraise dt (cleanup w1)
                  (sound_all_hp_le _ _ H12 Hs) (cleanup_hits_ok ok w1 H2')
                  (casts_ok_all_hp_le ok _ _ H12 Hc)) as H3.
    pose proof (hp_le_all_trans _ _ _ H12 H3) as H4.
    simpl. apply Forall2_fmap_r. eapply Forall2_impl; [exact H4|].
    intros f f' (_ & _ & Hle). simpl. rewrite hpFloor_max.
    assert (Hm : Rmax 0 (hp (state f')) <= Rmax 0 (hp (state f))).
    { apply Rle_max_compat_l. done. }
    split; [done|]. intros E0. rewrite E0 in Hm.
    rewrite (Rmax_left 0 0) in Hm by lra.
    pose proof (Rmax_l 0 (hp (state f'))). lra.
Qed.
End Tick.

Lemma crowded_sound : Forall sound_fighter (fighters crowded).
Proof.
  assert (Hp : sound_fighter fighterA).
  { split; [unfold nonneg_resistances; simpl; lra|]. by repeat constructor. }
  constructor; [exact Hp | constructor; [exact Hp | constructor]].
Qed.

Lemma crowded_casts : Forall (casts_ok nonneg_callback) (fighters crowded).
Proof.
  assert (Hp : casts_ok nonneg_callback fighterA).
  { constructor; [|constructor]. simpl. intros c [= <-]. simpl.
    repeat constructor; simpl; lra. }
  constructor; [exact Hp | constructor; [exact Hp | constructor]].
Qed.

Lemma crowded_hits : hits_ok nonneg_callback crowded.
Proof.
  constructor; [|constructor]. simpl. intros c [= <-]. simpl.
  repeat constructor; simpl; lra.
Qed.

Lemma hp_floor_witness :
  exists w', tick (length (projectiles crowded)) frame crowded = Some w'
    /\ Forall (fun f => 0 <= hp (state f)) (fighters w')
    /\ Forall2 (fun f f' => hp (state f') <= Rmax 0 (hp (state f))
                            /\ (hp (state f) = 0 -> hp (state f') = 0))
         (fighters crowded) (fighters w').
Proof.
  destruct (hp_floor nonneg_callback frame crowded) as (Hfloor & Hends & Hkeep).
  destruct (Hends Callback_hits_spawn_nothing) as [w' Hw'].
  exists w'. split; [exact Hw'|]. split.
  - apply (Hfloor Callback_keeps_stats) in Hw' as [Hnn _]; [exact Hnn|].
    repeat constructor; simpl; lra.
  - apply (Hkeep Callback_never_raise crowded_sound) with (fuel := 1%nat).
    + repeat constructor.
    + apply crowded_casts.
    + apply crowded_hits.
    + exact Hw'.
Defined.

(** ** Why the timer theorems make an allowance

    In binary64 the steps can sum to the timer and leave it running: an
    immunity of 0.7 after 7 ticks of 0.1, a cooldown of 1.2 after 12
    ticks of 0.1 and a ttl of 2 after 5 ticks of 0.4 are all still above
    0. *)
Example timers_binary64 :
  (exists st',
     Num.run binary64 0 ["Slash"] (replicate 7 Binary64.tenth) Binary64.warded
     = Some (st', [])
     /\ Num.isImmune binary64 (Num.immunities st') physical = true)
  /\ (exists st',
        Num.run binary64 0 ["Slash"] (replicate 12 Binary64.tenth) Binary64.warded
        = Some (st', [])
        /\ Num.onCooldown binary64 (Num.cd st') "Slash" = true)
  /\ (exists x,
        Num.flight binary64 (replicate 5 Binary64.two_fifths) Binary64.n2 = Some x).
Proof.
  split; [|split].
  - eexists. split; [by vm_compute | by vm_compute].
  - eexists. split; [by vm_compute | by vm_compute].
  - eexists. by vm_compute.
Qed.

(** ** The timer theorems at sample inputs *)

Lemma projectile_flight_witness :
  runProjectiles [frame; frame; frame] range_world
  = Some (set_projectiles range_world
            [advance (elapsed [frame; frame; frame])
               (age (elapsed [frame; frame; frame]) flying)], [])
  /\ runProjectiles [1; 1; 1 / 2] range_world = Some (set_projectiles range_world [], [])
  /\ Num.flight exact [1; 1; 1 / 2] (ttl flying) = None.
Proof.
  assert (H16 : 16 <= 2 ^ 40).
  { replace 16 with (2 ^ 4) by (simpl; lra). apply Rle_pow; [lra | lia]. }
  assert (Hinv : 0 < / 2 ^ 40 <= / 16).
  { split; [apply Rinv_0_lt_compat; lra | apply Rinv_le_contravar; lra]. }
  assert (Hslack : countdown_slack 3 (ttl flying) 1 <= 6 / 16).
  { unfold countdown_slack. cbn [ttl flying]. rewrite Rmax_left by lra.
    replace (INR 3) with 3 by (simpl; lra). unfold Rdiv. lra. }
  assert (Hfr : Forall (fun dt => 0 <= dt <= 1) [frame; frame; frame]).
  { unfold frame. repeat constructor; lra. }
  assert (Hlong : Forall (fun dt => 0 <= dt <= 1) [1; 1; 1 / 2]).
  { repeat constructor; lra. }
  assert (Httl : 0 < ttl flying) by (simpl; lra).
  assert (Hclear : forall e, 0 <= e -> clear_by 1 range_world (ray flying e)).
  { intros e _. apply range_world_clear_by. }
  destruct (projectile_flight range_world flying [frame; frame; frame] 1
              eq_refl eq_refl Httl Hfr Hclear) as (Hin & _ & _).
  destruct (projectile_flight range_world flying [1; 1; 1 / 2] 1
              eq_refl eq_refl Httl Hlong Hclear) as (_ & Hout & Hrnd).
  assert (Hgone : ttl flying + countdown_slack (length [1; 1; 1 / 2]) (ttl flying) 1
                  <= elapsed [1; 1; 1 / 2]).
  { change (length [1; 1; 1 / 2]) with 3%nat.
    cbn [elapsed fold_right ttl flying] in *. lra. }
  split; [|split].
  - apply Hin. change (length [frame; frame; frame]) with 3%nat.
    unfold frame. cbn [elapsed fold_right ttl flying] in *. lra.
  - by apply Hout.
  - destruct (Hrnd 0 0 (fun x => x)) as [_ Hnone].
    + apply id_rounding; lra.
    + split; [lra|]. apply Rlt_le, Rinv_0_lt_compat, pow_lt. lra.
    + split; [lra|]. cbn [ttl flying]. rewrite Rmax_left by lra.
      apply Rmult_le_pos; [lra|]. apply Rlt_le, Rinv_0_lt_compat, pow_lt. lra.
    + done.
    + by apply Hnone.
Defined.

Lemma snap_fix x : 1 < x -> snap x = x.
Proof.
  intros Hx. unfold snap. destruct (Rle_dec _ x); [|done].
  by destruct (Rle_dec x 1); [lra|].
Qed.

Lemma immunity_expires_witness :
  (exists st', Num.run (rounded snap) 0 [] [1 / 2; 1 / 2] warded_status = Some (st', [])
               /\ Num.isImmune (rounded snap) (Num.immunities st') physical = true)
  /\ (exists st', Num.run (rounded snap) 0 [] [1 / 2; 1 / 2; 1 / 2; 1 / 2] warded_status
                  = Some (st', [])
                  /\ Num.imm_get (Num.immunities st') physical <= 0).
Proof.
  split.
  - destruct (immunity_expires (1 / 500) 0 snap snap_rounding ltac:(lra) ltac:(lra)
                0 [] warded_status physical [1 / 2; 1 / 2] (1 / 2))
      as [Hex Hall].
    + apply snap_fix. simpl. lra.
    + repeat constructor; lra.
    + destruct (Hex eq_refl) as [st' Hrun]. exists st'. split; [exact Hrun|].
      destruct (Hall st' [] Hrun) as (_ & Hlive).
      destruct Hlive as (_ & Hin & _); [simpl; lra|].
      apply Hin. simpl. rewrite Rmax_left by lra. lra.
  - destruct (immunity_expires (1 / 500) 0 snap snap_rounding ltac:(lra) ltac:(lra)
                0 [] warded_status physical [1 / 2; 1 / 2; 1 / 2; 1 / 2] (1 / 2))
      as [Hex Hall].
    + apply snap_fix. simpl. lra.
    + repeat constructor; lra.
    + destruct (Hex eq_refl) as [st' Hrun]. exists st'. split; [exact Hrun|].
      destruct (Hall st' [] Hrun) as (_ & Hlive).
      destruct Hlive as (_ & _ & Hout); [simpl; lra|].
      apply Hout. simpl. rewrite Rmax_left by lra. lra.
Defined.

Lemma cooldown_runs_down_witness :
  exists st',
    Num.run (rounded snap) 0 ["Slash"; "Firebolt"] [1; 1 / 2] cooling_status
    = Some (st', [])
    /\ Num.onCooldown (rounded snap) (Num.cd st') "Slash" = false.
Proof.
  assert (Ev : default 0 (Num.cd cooling_status !! "Slash") = 6 / 5).
  { simpl. by rewrite lookup_singleton_eq. }
  assert (Ek : count_of "Slash" ["Slash"; "Firebolt"] = 1%nat) by (by vm_compute).
  destruct (cooldown_runs_down (1 / 500) 0 snap snap_rounding ltac:(lra) ltac:(lra)
              0 ["Slash"; "Firebolt"] cooling_status "Slash" [1; 1 / 2] 1)
    as [Hex Hall].
  - rewrite Ev. lra.
  - rewrite Ev. apply snap_fix. lra.
  - repeat constructor; lra.
  - destruct (Hex eq_refl) as [st' Hrun]. exists st'. split; [exact Hrun|].
    destruct (Hall st' [] Hrun) as (_ & _ & _ & Hready).
    apply Hready. rewrite Ev, Ek. simpl. rewrite Rmax_left by lra. lra.
Defined.

(** ** The two embeddings of the status decay agree

    Without rounding, the status decay over [Num] computes what the
    status loop of [tick] computes on the state of a fighter. *)

Lemma isImmune_exact s k :
  Num.isImmune exact (imm_of (immunities s)) k = isImmune s k.
Proof. by destruct k. Qed.

Lemma dot_while_immunities m : forall d s,
  immunities (dot_while m d s).1.2 = immunities s.
Proof.
  induction m as [|m IH]; intros d s; simpl; [done|].
  destruct (Rle_dec _ _); [|done]. destruct (isImmune _ _); [apply IH|].
  specialize (IH (dot_pulse d) (set_hp s (hp s - d_dps d))).
  by destruct (dot_while m _ _) as [[? ?] ?].
Qed.

Lemma decayDots_immunities dt ds : forall s,
  immunities (decayDots dt ds s).1.2 = immunities s.
Proof.
  induction ds as [|d ds IH]; intros s; simpl; [done|].
  specialize (IH s). destruct (decayDots dt ds s) as [[rest' s1] l1]. simpl in IH.
  destruct (Rle_dec _ _); [done|]. unfold dot_loop.
  match goal with |- context [dot_while ?m ?d0 s1] =>
    pose proof (dot_while_immunities m d0 s1) as Hw;
    destruct (dot_while m d0 s1) as [[? ?] ?] end.
  simpl in *. congruence.
Qed.

Lemma dot_while_cd m : forall d s, cd (dot_while m d s).1.2 = cd s.
Proof.
  induction m as [|m IH]; intros d s; simpl; [done|].
  destruct (Rle_dec _ _); [|done]. destruct (isImmune _ _); [apply IH|].
  specialize (IH (dot_pulse d) (set_hp s (hp s - d_dps d))).
  by destruct (dot_while m _ _) as [[? ?] ?].
Qed.

Lemma decayDots_cd dt ds : forall s, cd (decayDots dt ds s).1.2 = cd s.
Proof.
  induction ds as [|d ds IH]; intros s; simpl; [done|].
  specialize (IH s). destruct (decayDots dt ds s) as [[rest' s1] l1]. simpl in IH.
  destruct (Rle_dec _ _); [done|]. unfold dot_loop.
  match goal with |- context [dot_while ?m ?d0 s1] =>
    pose proof (dot_while_cd m d0 s1) as Hw;
    destruct (dot_while m d0 s1) as [[? ?] ?] end.
  simpl in *. congruence.
Qed.

Lemma pulses_exact fuel : forall d s i r,
  imm_of (immunities s) = i ->
  Num.pulses exact fuel (Num.isImmune exact i (d_dtype d)) (dot_of d) (hp s) = Some r ->
  r = (dot_of (dot_loop d s).1.1, hp (dot_loop d s).1.2, (dot_loop d s).2).
Proof.
  induction fuel as [|fuel IH]; intros d s i r <-; rewrite isImmune_exact.
  - simpl. unfold Rleb. destruct (Rle_dec 1 (d_t d)) as [Ht|Ht]; [done|].
    intros [= <-]. rewrite dot_loop_lt by lra. done.
  - cbn [Num.pulses]. simpl Num.leb. simpl Num.t. simpl Num.one.
    unfold Rleb. destruct (Rle_dec 1 (d_t d)) as [Ht|Ht].
    + rewrite dot_loop_ge by done.
      destruct (isImmune s (d_dtype d)) eqn:Ei.
      * intros Hp. apply (IH (dot_pulse d) s (imm_of (immunities s))); [done|].
        rewrite isImmune_exact. simpl. by rewrite Ei.
      * destruct (Num.pulses _ _ _ _ _) as [[[d2 h2] l]|] eqn:Ep; [|done].
        intros [= <-].
        pose proof (IH (dot_pulse d) (set_hp s (hp s - d_dps d))
                      (imm_of (immunities s)) (d2, h2, l) eq_refl) as Hr.
        rewrite isImmune_exact in Hr. simpl in Hr. rewrite Ei in Hr.
        specialize (Hr Ep).
        destruct (dot_loop (dot_pulse d) (set_hp s (hp s - d_dps d))) as [[d' s'] l'].
        simpl in *. by injection Hr as -> -> ->.
    + intros [= <-]. rewrite dot_loop_lt by lra. done.
Qed.

Lemma decay_dots_exact fuel dt ds : forall s r,
  Num.decay_dots exact fuel dt (imm_of (immunities s)) (dot_of <$> ds) (hp s) = Some r ->
  r = (dot_of <$> (decayDots dt ds s).1.1, hp (decayDots dt ds s).1.2,
       (decayDots dt ds s).2).
Proof.
  induction ds as [|d ds IH]; intros s r.
  - simpl. by intros [= <-].
  - rewrite fmap_cons. cbn [Num.decay_dots].
    destruct (Num.decay_dots _ _ _ _ _ _) as [[[rest' h1] l1]|] eqn:Er; [|done].
    pose proof (IH s _ Er) as Hr.
    pose proof (decayDots_immunities dt ds s) as Him.
    simpl decayDots. destruct (decayDots dt ds s) as [[rest s1] l]. simpl in Hr, Him.
    injection Hr as -> -> ->.
    simpl Num.leb. simpl Num.duration. simpl Num.zero.
    unfold Rleb. destruct (Rle_dec (d_duration d) 0) as [Hd|Hd]; [by intros [= <-]|].
    set (d1 := mkDot (d_dps d) (d_duration d) (js_or (d_t d) 0 + dt) (d_dtype d)).
    destruct (Num.pulses _ _ _ _ _) as [[[d2 h2] l2]|] eqn:Ep; [|done].
    intros [= <-].
    assert (Hp : (d2, h2, l2)
                 = (dot_of (dot_loop d1 s1).1.1, hp (dot_loop d1 s1).1.2,
                    (dot_loop d1 s1).2)).
    { apply (pulses_exact fuel d1 s1 (imm_of (immunities s))); [by rewrite Him|].
      rewrite <- Ep. f_equal. unfold dot_of, d1, Num.or_zero, js_or. simpl.
      by destruct (Req_dec_T (d_t d) 0). }
    destruct (dot_loop d1 s1) as [[d' s'] l']. simpl in *. by injection Hp as -> -> ->.
Qed.

Lemma decay_timer_exact dt v : Num.decay_timer exact dt v = decayTimer dt v.
Proof.
  unfold Num.decay_timer, decayTimer. simpl. unfold Rltb. by destruct (Rlt_dec 0 v).
Qed.

Lemma decay_cooldown_exact dt m n : Num.decay_cooldown exact dt m n = decayCooldown dt m n.
Proof.
  unfold Num.decay_cooldown, decayCooldown, Num.max_zero. simpl. f_equal.
  unfold Rltb, Rmax. destruct (Rlt_dec 0 _), (Rle_dec 0 _); lra.
Qed.

Lemma decay_cooldowns_exact {CB} dt (abs : list (Ability CB)) : forall m,
  Num.decay_cooldowns exact dt (name <$> abs) m = decayCooldowns dt abs m.
Proof.
  unfold Num.decay_cooldowns, decayCooldowns.
  induction abs as [|a abs IH]; intros m; simpl; [done|].
  by rewrite decay_cooldown_exact, IH.
Qed.

Lemma decay_exact {CB} fuel dt (f : Fighter CB) st' lg :
  Num.decay exact fuel (name <$> abilities f) dt (status_of (state f)) = Some (st', lg) ->
  st' = status_of (state (decayFighter_log dt f).1) /\ lg = (decayFighter_log dt f).2.
Proof.
  unfold Num.decay, decayFighter_log. simpl.
  destruct (Num.decay_dots _ _ _ _ _ _) as [[[ds h] l]|] eqn:Ed; [|done].
  intros [= <- <-].
  pose proof (decay_dots_exact fuel dt (dots (state f)) (state f) _ Ed) as Hr.
  pose proof (decayDots_immunities dt (dots (state f)) (state f)) as Him.
  pose proof (decayDots_cd dt (dots (state f)) (state f)) as Hcd.
  destruct (decayDots dt (dots (state f)) (state f)) as [[ds1 s1] l1]. simpl in *.
  injection Hr as -> -> ->. split; [|done].
  unfold status_of. simpl. rewrite Him, Hcd. f_equal.
  - unfold Num.decay_immunities, decayImmunities, imm_of. simpl.
    by rewrite !decay_timer_exact.
  - by rewrite decay_cooldowns_exact.
Qed.
